(** * UVMAC: the VHASH pipeline and the one-time-pad tag combiner

    A shallow embedding of the 64-bit-register build of the UVMAC library
    (UVMAC_ARCH_64, UVMAC_TAG_LEN = 64, UVMAC_PREFER_BIG_ENDIAN = 0, on a
    little-endian host), with the block size UVMAC_NHBYTES kept as a
    parameter.  A [uint64_t] is a [Z] in [0, 2^64) and every C operation that
    can wrap is written with its reduction.  Message and key buffers are
    lists of bytes; a pointer into a buffer is the suffix that starts there. *)

From Stdlib Require Import ZArith List Lia Bool PeanoNat.
From Stdlib Require Import Strings.Byte.
Import ListNotations.
Local Open Scope Z_scope.

(** ** Constants and masks *)

Definition p64   : Z := 0xfffffffffffffeff.  (* 2^64 - 257 *)
Definition m62   : Z := 0x3fffffffffffffff.
Definition m63   : Z := 0x7fffffffffffffff.
Definition m64   : Z := 0xffffffffffffffff.
Definition mpoly : Z := 0x1fffffff1fffffff.

Definition p127 : Z := 2 ^ 127 - 1.

(** ** Machine arithmetic *)

(** Truncation to [uint64_t] and to [uint32_t]. *)
Definition u64 (x : Z) : Z := x mod 2 ^ 64.
Definition u32 (x : Z) : Z := x mod 2 ^ 32.

(** A [uint64_t] value. *)
Definition word64 (x : Z) : Prop := 0 <= x < 2 ^ 64.

(** The value of a (high, low) register pair. *)
Definition val128 (p : Z * Z) : Z := fst p * 2 ^ 64 + snd p.

(** [ADD128(rh,rl,ih,il)], default implementation:
    [rl += il; if (rl < il) rh++; rh += ih]. *)
Definition ADD128 (rh rl ih il : Z) : Z * Z :=
  let rl := u64 (rl + il) in
  let rh := if rl <? il then u64 (rh + 1) else rh in
  let rh := u64 (rh + ih) in
  (rh, rl).

(** [MUL32(i1,i2)]: [(uint64_t)(uint32_t)(i1) * (uint32_t)(i2)]. *)
Definition MUL32 (i1 i2 : Z) : Z := u64 (u32 i1 * u32 i2).

(** [PMUL64(rh,rl,i1,i2)], default implementation ("assumes m doesn't
    overflow"). *)
Definition PMUL64 (i1 i2 : Z) : Z * Z :=
  let m  := u64 (MUL32 i1 (Z.shiftr i2 32) + MUL32 (Z.shiftr i1 32) i2) in
  let rh := MUL32 (Z.shiftr i1 32) (Z.shiftr i2 32) in
  let rl := MUL32 i1 i2 in
  ADD128 rh rl (Z.shiftr m 32) (u64 (Z.shiftl m 32)).

(** [MUL64(rh,rl,i1,i2)], default implementation. *)
Definition MUL64 (i1 i2 : Z) : Z * Z :=
  let m1 := MUL32 i1 (Z.shiftr i2 32) in
  let m2 := MUL32 (Z.shiftr i1 32) i2 in
  let rh := MUL32 (Z.shiftr i1 32) (Z.shiftr i2 32) in
  let rl := MUL32 i1 i2 in
  let '(rh, rl) := ADD128 rh rl (Z.shiftr m1 32) (u64 (Z.shiftl m1 32)) in
  ADD128 rh rl (Z.shiftr m2 32) (u64 (Z.shiftl m2 32)).

(** ** Layer 2: one step of the polynomial hash ([poly_step], 64-bit path) *)

Definition poly_step (ah al kh kl mh ml : Z) : Z * Z :=
  let z := 0 in
  let '(t3h, t3l) := PMUL64 al kh in
  let '(t2h, t2l) := PMUL64 ah kl in
  let '(t1h, t1l) := PMUL64 ah (u64 (2 * kh)) in
  let '(ah, al)   := PMUL64 al kl in
  let '(ah, al)   := ADD128 ah al t1h t1l in
  let '(t2h, t2l) := ADD128 t2h t2l t3h t3l in
  let '(t2h, ah)  := ADD128 t2h ah z t2l in
  let t2h := u64 (2 * t2h + Z.shiftr ah 63) in
  let ah  := Z.land ah m63 in
  let '(ah, al)   := ADD128 ah al mh ml in
  ADD128 ah al z t2h.

(** The poly-key mask leaves 29 bits in each 32-bit lane. *)
Definition lanes29 (w : Z) : Prop :=
  0 <= w < 2 ^ 64 /\ w mod 2 ^ 32 < 2 ^ 29 /\ w / 2 ^ 32 < 2 ^ 29.


(** ** Layer 3: [l3hash] *)

(** A C comparison, as the [int] it yields. *)
Definition b2z (b : bool) : Z := if b then 1 else 0.

Definition l3hash (p1 p2 k1 k2 len : Z) : Z :=
  let z := 0 in
  (* fully reduce (p1,p2)+(len,0) mod p127 *)
  let t := Z.shiftr p1 63 in
  let p1 := Z.land p1 m63 in
  let '(p1, p2) := ADD128 p1 p2 len t in
  let t := b2z (p1 >? m63) + b2z ((p1 =? m63) && (p2 =? m64)) in
  let '(p1, p2) := ADD128 p1 p2 z t in
  let p1 := Z.land p1 m63 in
  (* compute (p1,p2)/(2^64-2^32) and (p1,p2)%(2^64-2^32) *)
  let t := u64 (p1 + Z.shiftr p2 32) in
  let t := u64 (t + Z.shiftr t 32) in
  let t := u64 (t + b2z (u32 t >? 0xfffffffe)) in
  let p1 := u64 (p1 + Z.shiftr t 32) in
  let p2 := u64 (p2 + u64 (Z.shiftl p1 32)) in
  (* compute (p1+k1)%p64 and (p2+k2)%p64 *)
  let p1 := u64 (p1 + k1) in
  let p1 := u64 (p1 + Z.land (0 - b2z (p1 <? k1)) 257) in
  let p2 := u64 (p2 + k2) in
  let p2 := u64 (p2 + Z.land (0 - b2z (p2 <? k2)) 257) in
  (* compute (p1+k1)*(p2+k2)%p64 *)
  let '(rh, rl) := MUL64 p1 p2 in
  let t := Z.shiftr rh 56 in
  let '(t, rl) := ADD128 t rl z rh in
  let rh := u64 (Z.shiftl rh 8) in
  let '(t, rl) := ADD128 t rl z rh in
  let t := u64 (t + u64 (Z.shiftl t 8)) in
  let rl := u64 (rl + t) in
  let rl := u64 (rl + Z.land (0 - b2z (rl <? t)) 257) in
  let rl := u64 (rl + Z.land (0 - b2z (rl >? p64 - 1)) 257) in
  rl.

(** ** Buffers and word loads *)

Definition byte_val (b : byte) : Z := Z.of_N (Byte.to_N b).

(** The little-endian value of the first [n] bytes at [p].  A byte past the
    end of the list reads as zero; the statements below say which bytes of a
    buffer an operation reads. *)
Fixpoint load_le (n : nat) (p : list byte) : Z :=
  match n with
  | O => 0
  | S n' => byte_val (hd x00 p) + 2 ^ 8 * load_le n' (tl p)
  end.

(** The big-endian value of the first [n] bytes at [p]. *)
Fixpoint load_be (n : nat) (p : list byte) : Z :=
  match n with
  | O => 0
  | S n' => byte_val (hd x00 p) * 2 ^ (8 * Z.of_nat n') + load_be n' (tl p)
  end.

(** [(uint64_t * )p + i]. *)
Definition advance (p : list byte) (i : nat) : list byte := skipn (8 * i) p.

(** [get64LE(ptr)] on a little-endian host: the native load. *)
Definition get64LE (p : list byte) : Z := load_le 8 p.

(** [bswap32] and [bswap64], default implementations. *)
Definition bswap32 (x : Z) : Z :=
  let bsx := u32 x in
  Z.lor (Z.lor (Z.lor (Z.shiftr (Z.land bsx 0xff000000) 24)
                      (Z.shiftr (Z.land bsx 0x00ff0000) 8))
               (u32 (Z.shiftl (Z.land bsx 0x0000ff00) 8)))
        (u32 (Z.shiftl (Z.land bsx 0x000000ff) 24)).

Definition bswap64 (x : Z) : Z :=
  let w0 := u32 x in            (* w.l[0] *)
  let w1 := Z.shiftr x 32 in    (* w.l[1] *)
  let r0 := bswap32 w1 in       (* r.l[0] *)
  let r1 := bswap32 w0 in       (* r.l[1] *)
  r1 * 2 ^ 32 + r0.

(** [get64BE(ptr)] on a little-endian host: [GET_REVERSED_64]. *)
Definition get64BE (p : list byte) : Z := bswap64 (get64LE p).

(** [UVMAC_PREFER_BIG_ENDIAN] is 0. *)
Definition get64PE := get64LE.

(** ** Layer 1: NH *)

(** [kp[i]]. *)
Definition key_at (kp : list Z) (i : nat) : Z := nth i kp 0.

(** One term of NH: [MUL64(th,tl, get64PE(mp+i)+kp[i], get64PE(mp+i+1)+kp[i+1])]
    followed by [ADD128(rh,rl,th,tl)]. *)
Definition nh_term (mp : list byte) (kp : list Z) (i : nat) (rh rl : Z) : Z * Z :=
  let '(th, tl) := MUL64 (u64 (get64PE (advance mp i) + key_at kp i))
                         (u64 (get64PE (advance mp (i + 1)) + key_at kp (i + 1))) in
  ADD128 rh rl th tl.

(** The body of [nh_16], run [n] times from index [i]. *)
Fixpoint nh_16_iter (n i : nat) (mp : list byte) (kp : list Z) (rh rl : Z) : Z * Z :=
  match n with
  | O => (rh, rl)
  | S n' =>
      let '(rh, rl) := nh_term mp kp i rh rl in
      nh_16_iter n' (i + 2) mp kp rh rl
  end.

(** [nh_16(mp,kp,nw,rh,rl)]: [for (i = 0; i < nw; i += 2)] runs
    ceil(nw/2) times. *)
Definition nh_16 (mp : list byte) (kp : list Z) (nw : nat) : Z * Z :=
  nh_16_iter ((nw + 1) / 2) 0 mp kp 0 0.

(** The body of the 64-bytes-at-a-time [nh_vhash_nhbytes], run [n] times. *)
Fixpoint nh_64_iter (n i : nat) (mp : list byte) (kp : list Z) (rh rl : Z) : Z * Z :=
  match n with
  | O => (rh, rl)
  | S n' =>
      let '(rh, rl) := nh_term mp kp i rh rl in
      let '(rh, rl) := nh_term mp kp (i + 2) rh rl in
      let '(rh, rl) := nh_term mp kp (i + 4) rh rl in
      let '(rh, rl) := nh_term mp kp (i + 6) rh rl in
      nh_64_iter n' (i + 8) mp kp rh rl
  end.

(** ** The context *)

(** [uvmax_ctx_t] for [UVMAC_TAG_LEN == 64]; the two-word arrays are pairs
    ([polykey[0]], [polykey[1]]) and so on. *)
Record uvmax_ctx_t : Type := mk_ctx {
  nhkey : list Z;
  polykey : Z * Z;
  l3key : Z * Z;
  polytmp : Z * Z;
  first_block_processed : bool
}.

Definition vhash_abort (ctx : uvmax_ctx_t) : uvmax_ctx_t :=
  {| nhkey := nhkey ctx;
     polykey := polykey ctx;
     l3key := l3key ctx;
     polytmp := polykey ctx;
     first_block_processed := false |}.

(** ** The consumable key *)

(** What a call can do: return, stop the process in [assert(0)], or (for the
    fuelled loop of the key schedule only) run out of fuel. *)
Inductive outcome (A : Type) : Type :=
| Returned (a : A)
| AssertionFailed
| OutOfFuel.
Arguments Returned {A} a.
Arguments AssertionFailed {A}.
Arguments OutOfFuel {A}.

Definition bind {A B : Type} (o : outcome A) (f : A -> outcome B) : outcome B :=
  match o with
  | Returned a => f a
  | AssertionFailed => AssertionFailed
  | OutOfFuel => OutOfFuel
  end.

Notation "' pat <- c ;; k" := (bind c (fun x => let 'pat := x in k))
  (at level 61, pat pattern, c at next level, right associativity).

(** [get64bitsOfKey]: the pointer to the next word and the new position, or
    the failed assertion. *)
Definition get64bitsOfKey (consumable_key : list byte) (key_length key_position : Z)
  : outcome (list byte * Z) :=
  if u64 (key_position + 1) >? key_length then AssertionFailed
  else Returned (advance consumable_key (Z.to_nat key_position),
                 u64 (key_position + 1)).

(** The two statements every caller writes:
    [out = get64bitsOfKey(key, length, &position); get64BE(out)]. *)
Definition consume_word (stream : list byte) (length_in_words cursor : Z)
  : outcome (Z * Z) :=
  '(out, cursor) <- get64bitsOfKey stream length_in_words cursor ;;
  Returned (get64BE out, cursor).

(** ** The key schedule *)

(** [for (i = 0; i < sizeof(ctx->nhkey)/8; i++) ctx->nhkey[i] = ...]. *)
Fixpoint fill_nhkey (n : nat) (user_key : list byte) (key_length key_position : Z)
  : outcome (list Z * Z) :=
  match n with
  | O => Returned ([], key_position)
  | S n' =>
      '(w, key_position) <- consume_word user_key key_length key_position ;;
      '(ws, key_position) <- fill_nhkey n' user_key key_length key_position ;;
      Returned (w :: ws, key_position)
  end.

(** [ctx->polytmp[i] = ctx->polykey[i] = get64BE(out) & mpoly]. *)
Definition fill_polykey (user_key : list byte) (key_length key_position : Z)
  : outcome (Z * Z) :=
  '(w, key_position) <- consume_word user_key key_length key_position ;;
  Returned (Z.land w mpoly, key_position).

(** [do { ctx->l3key[i] = ...; } while (ctx->l3key[i] >= p64)]. *)
Fixpoint fill_l3key (fuel : nat) (user_key : list byte) (key_length key_position : Z)
  : outcome (Z * Z) :=
  match fuel with
  | O => OutOfFuel
  | S fuel' =>
      '(w, key_position) <- consume_word user_key key_length key_position ;;
      if w >=? p64 then fill_l3key fuel' user_key key_length key_position
      else Returned (w, key_position)
  end.

(** ** Concrete data: the key and messages of the shipped self-test *)

Fixpoint rep {A : Type} (n : nat) (l : list A) : list A :=
  match n with
  | O => []
  | S n' => l ++ rep n' l
  end.

Definition abcdefgh : list byte := [x61; x62; x63; x64; x65; x66; x67; x68].

(** The 160-byte user key and pad key of the self-test. *)
Definition test_key : list byte := rep 20 abcdefgh.

(** "abc" repeated [n] times in a zeroed buffer. *)
Definition test_msg (n : nat) : list byte := rep n [x61; x62; x63] ++ repeat x00 16.

Definition blank_ctx : uvmax_ctx_t := mk_ctx [] (0, 0) (0, 0) (0, 0) false.

(** The context the self-test key gives for [UVMAC_NHBYTES = 128]. *)
Definition test_ctx : uvmax_ctx_t :=
  {| nhkey := repeat 0x6162636465666768 16;
     polykey := (0x0162636405666768, 0x0162636405666768);
     l3key := (0x6162636465666768, 0x6162636465666768);
     polytmp := (0x0162636405666768, 0x0162636405666768);
     first_block_processed := false |}.

(** The 300-byte self-test message split after its two full 128-byte blocks. *)
Definition test_prefix : list byte := firstn 256 (test_msg 100).
Definition test_suffix : list byte := skipn 256 (test_msg 100).

(** ** Vocabulary of the statements *)

(** What the key schedule writes and hashing only reads. *)
Definition key_material (ctx : uvmax_ctx_t) : list Z * (Z * Z) * (Z * Z) :=
  (nhkey ctx, polykey ctx, l3key ctx).

(** The call stopped the process. *)
Definition stops_process {A : Type} (o : outcome A) : Prop := o = AssertionFailed.

(** Word [i] of a key stream, read big-endian. *)
Definition be_word_at (stream : list byte) (i : nat) : Z :=
  load_be 8 (skipn (8 * i) stream).

(** [w & ~mpoly == 0] on a 64-bit word. *)
Definition masked (w : Z) : Prop :=
  word64 w /\ Z.land w (u64 (Z.lnot mpoly)) = 0.

(** The domain of the stored keys. *)
Definition key_domain (ctx : uvmax_ctx_t) : Prop :=
  masked (fst (polykey ctx)) /\ masked (snd (polykey ctx))
  /\ 0 <= fst (l3key ctx) < p64 /\ 0 <= snd (l3key ctx) < p64.

(** The state [Fresh] of the orchestrator. *)
Definition fresh (ctx : uvmax_ctx_t) : Prop :=
  polytmp ctx = polykey ctx /\ first_block_processed ctx = false.

(** Word [i] of a message buffer, read little-endian: [m[i]]. *)
Definition le_word_at (p : list byte) (i : nat) : Z :=
  load_le 8 (skipn (8 * i) p).

(** [(m[i] + k[i] mod 2^64) * (m[i+1] + k[i+1] mod 2^64)]. *)
Definition NH_pair (m k : nat -> Z) (i : nat) : Z :=
  ((m i + k i) mod 2 ^ 64) * ((m (i + 1)%nat + k (i + 1)%nat) mod 2 ^ 64).

(** The sum of [NH_pair] over i = 0, 2, ..., 2h - 2. *)
Fixpoint NH_sum (h : nat) (m k : nat -> Z) : Z :=
  match h with
  | O => 0
  | S h' => NH_sum h' m k + NH_pair m k (2 * h')%nat
  end.

(** A 128-bit value as a (high, low) register pair. *)
Definition split128 (s : Z) : Z * Z := (s / 2 ^ 64, s mod 2 ^ 64).

(** The NH value of a block of [2h] words under a key window. *)
Definition NH (h : nat) (block : list byte) (kwin : list Z) : Z * Z :=
  split128 (NH_sum h (le_word_at block) (key_at kwin) mod 2 ^ 128).

(** The polynomial with coefficients [cs], highest degree first, at [k]:
    for cs = [c1; ...; cn] it is c1*k^(n-1) + ... + cn. *)
Fixpoint poly_high_first (k : Z) (cs : list Z) : Z :=
  match cs with
  | [] => 0
  | c :: cs' => c * k ^ Z.of_nat (length cs') + poly_high_first k cs'
  end.

(** The polynomial with coefficients [cs], constant term first, at [k]:
    for cs = [c1; ...; cn] it is c1 + c2*k + ... + cn*k^(n-1). *)
Fixpoint poly_constant_first (k : Z) (cs : list Z) : Z :=
  match cs with
  | [] => 0
  | c :: cs' => c + k * poly_constant_first k cs'
  end.

(** A context the library can be in: the flag is clear only with
    [polytmp = polykey]. *)
Definition consistent (ctx : uvmax_ctx_t) : Prop :=
  first_block_processed ctx = false -> polytmp ctx = polykey ctx.

(** ** Layer 3 in stages *)

(** The four stages of [l3hash], cut at its comments. *)

(** "fully reduce (p1,p2)+(len,0) mod p127". *)
Definition l3_reduce (p1 p2 len : Z) : Z * Z :=
  let z := 0 in
  let t := Z.shiftr p1 63 in
  let p1 := Z.land p1 m63 in
  let '(p1, p2) := ADD128 p1 p2 len t in
  let t := b2z (p1 >? m63) + b2z ((p1 =? m63) && (p2 =? m64)) in
  let '(p1, p2) := ADD128 p1 p2 z t in
  (Z.land p1 m63, p2).

(** "compute (p1,p2)/(2^64-2^32) and (p1,p2)%(2^64-2^32)". *)
Definition l3_divide (p1 p2 : Z) : Z * Z :=
  let t := u64 (p1 + Z.shiftr p2 32) in
  let t := u64 (t + Z.shiftr t 32) in
  let t := u64 (t + b2z (u32 t >? 0xfffffffe)) in
  let p1 := u64 (p1 + Z.shiftr t 32) in
  let p2 := u64 (p2 + u64 (Z.shiftl p1 32)) in
  (p1, p2).

(** "compute (p1+k1)%p64": [p += k; p += (0 - (p < k)) & 257]. *)
Definition l3_addkey (p k : Z) : Z :=
  let p := u64 (p + k) in
  u64 (p + Z.land (0 - b2z (p <? k)) 257).

(** "compute (p1+k1)*(p2+k2)%p64". *)
Definition l3_mulmod (p1 p2 : Z) : Z :=
  let z := 0 in
  let '(rh, rl) := MUL64 p1 p2 in
  let t := Z.shiftr rh 56 in
  let '(t, rl) := ADD128 t rl z rh in
  let rh := u64 (Z.shiftl rh 8) in
  let '(t, rl) := ADD128 t rl z rh in
  let t := u64 (t + u64 (Z.shiftl t 8)) in
  let rl := u64 (rl + t) in
  let rl := u64 (rl + Z.land (0 - b2z (rl <? t)) 257) in
  let rl := u64 (rl + Z.land (0 - b2z (rl >? p64 - 1)) 257) in
  rl.

(** The divisor of the second stage. *)
Definition d64 : Z := 2 ^ 64 - 2 ^ 32.

(** The number [l3hash] returns for a poly state of value [a]: reduce
    [a + len * 2^64] modulo p127, split it by [d64], add the keys and
    multiply modulo p64. *)
Definition l3_value (a k1 k2 len : Z) : Z :=
  let v := (a + len * 2 ^ 64) mod p127 in
  ((v / d64 + k1) * (v mod d64 + k2)) mod p64.

(** ** The doubled NH of the 128-bit tag ([nh_16_2], 64-bit path) *)

(** One term with message index [i] and key index [j]:
    [MUL64(th,tl, get64PE(mp+i)+kp[j], get64PE(mp+i+1)+kp[j+1])] then
    [ADD128(rh,rl,th,tl)]. *)
Definition nh_term_at (mp : list byte) (kp : list Z) (i j : nat) (r : Z * Z)
  : Z * Z :=
  let '(th, tl) := MUL64 (u64 (get64PE (advance mp i) + key_at kp j))
                         (u64 (get64PE (advance mp (i + 1)) + key_at kp (j + 1))) in
  ADD128 (fst r) (snd r) th tl.

(** The body of [nh_16_2], run [n] times: [(rh, rl)] under [kp[i..]] and
    [(rh1, rl1)] under [kp[i+2..]]. *)
Fixpoint nh_16_2_iter (n i : nat) (mp : list byte) (kp : list Z) (r r1 : Z * Z)
  : (Z * Z) * (Z * Z) :=
  match n with
  | O => (r, r1)
  | S n' =>
      let r := nh_term_at mp kp i i r in
      let r1 := nh_term_at mp kp i (i + 2) r1 in
      nh_16_2_iter n' (i + 2) mp kp r r1
  end.

Definition nh_16_2 (mp : list byte) (kp : list Z) (nw : nat) : (Z * Z) * (Z * Z) :=
  nh_16_2_iter ((nw + 1) / 2) 0 mp kp (0, 0) (0, 0).

(** The body of the 64-bytes-at-a-time [nh_vhash_nhbytes_2]. *)
Fixpoint nh_64_2_iter (n i : nat) (mp : list byte) (kp : list Z) (r r1 : Z * Z)
  : (Z * Z) * (Z * Z) :=
  match n with
  | O => (r, r1)
  | S n' =>
      let r  := nh_term_at mp kp i i r in
      let r1 := nh_term_at mp kp i (i + 2) r1 in
      let r  := nh_term_at mp kp (i + 2) (i + 2) r in
      let r1 := nh_term_at mp kp (i + 2) (i + 4) r1 in
      let r  := nh_term_at mp kp (i + 4) (i + 4) r in
      let r1 := nh_term_at mp kp (i + 4) (i + 6) r1 in
      let r  := nh_term_at mp kp (i + 6) (i + 6) r in
      let r1 := nh_term_at mp kp (i + 6) (i + 8) r1 in
      nh_64_2_iter n' (i + 8) mp kp r r1
  end.

(** ** The portable 32-bit path *)

Module Arch32.

(** The body of the portable [nh_16]: the state is [(rh, rl, t)]. *)
Definition nh_16_body (mp : list byte) (kp : list Z) (i : nat) (s : Z * Z * Z)
  : Z * Z * Z :=
  let '(rh, rl, t) := s in
  let t1 := u64 (get64PE (advance mp i) + key_at kp i) in
  let t2 := u64 (get64PE (advance mp (i + 1)) + key_at kp (i + 1)) in
  let m2 := MUL32 (Z.shiftr t1 32) t2 in
  let m1 := MUL32 t1 (Z.shiftr t2 32) in
  let '(rh, rl) := ADD128 rh rl (MUL32 (Z.shiftr t1 32) (Z.shiftr t2 32))
                     (MUL32 t1 t2) in
  let rh := u64 (rh + u64 (u32 (Z.shiftr m1 32) + u32 (Z.shiftr m2 32))) in
  let t := u64 (t + u64 (u32 m1 + u32 m2)) in
  (rh, rl, t).

Fixpoint nh_16_iter (n i : nat) (mp : list byte) (kp : list Z) (s : Z * Z * Z)
  : Z * Z * Z :=
  match n with
  | O => s
  | S n' => nh_16_iter n' (i + 2) mp kp (nh_16_body mp kp i s)
  end.

(** The portable [nh_16(mp,kp,nw,rh,rl)]. *)
Definition nh_16 (mp : list byte) (kp : list Z) (nw : nat) : Z * Z :=
  let '(rh, rl, t) := nh_16_iter ((nw + 1) / 2) 0 mp kp (0, 0, 0) in
  ADD128 rh rl (Z.shiftr t 32) (u64 (Z.shiftl t 32)).

(** The portable [poly_step_func]; [a0..a3] and [k0..k3] are the 32-bit
    halves of the accumulator and key words, low half first. *)
Definition poly_step_func (ahi alo kh kl mh ml : Z) : Z * Z :=
  let a0 := u32 alo in
  let a1 := Z.shiftr alo 32 in
  let a2 := u32 ahi in
  let a3 := Z.shiftr ahi 32 in
  let k0 := u32 kl in
  let k1 := Z.shiftr kl 32 in
  let k2 := u32 kh in
  let k3 := Z.shiftr kh 32 in
  let p := MUL32 a3 k3 in
  let p := u64 (p + p) in
  let p := u64 (p + mh) in
  let p := u64 (p + MUL32 a0 k2) in
  let p := u64 (p + MUL32 a1 k1) in
  let p := u64 (p + MUL32 a2 k0) in
  let t := u32 p in
  let p := Z.shiftr p 32 in
  let p := u64 (p + MUL32 a0 k3) in
  let p := u64 (p + MUL32 a1 k2) in
  let p := u64 (p + MUL32 a2 k1) in
  let p := u64 (p + MUL32 a3 k0) in
  let t := Z.lor t (u64 (Z.shiftl (Z.land (u32 p) 0x7fffffff) 32)) in
  let p := Z.shiftr p 31 in
  let p := u64 (p + u32 ml) in
  let p := u64 (p + MUL32 a0 k0) in
  let q := MUL32 a1 k3 in
  let q := u64 (q + MUL32 a2 k2) in
  let q := u64 (q + MUL32 a3 k1) in
  let q := u64 (q + q) in
  let p := u64 (p + q) in
  let t2 := u32 p in
  let p := Z.shiftr p 32 in
  let p := u64 (p + Z.shiftr ml 32) in
  let p := u64 (p + MUL32 a0 k1) in
  let p := u64 (p + MUL32 a1 k0) in
  let q := MUL32 a2 k3 in
  let q := u64 (q + MUL32 a3 k2) in
  let q := u64 (q + q) in
  let p := u64 (p + q) in
  let alo := Z.lor (u64 (Z.shiftl p 32)) t2 in
  let p := Z.shiftr p 32 in
  let ahi := u64 (p + t) in
  (ahi, alo).

End Arch32.

(** ** The command-line callers: reading a file in chunks *)

(** [istream::read(buf, n)] on what is left of a file: the bytes delivered,
    what is left afterwards, and whether the stream is still good (it fails
    when fewer than [n] bytes were left). *)
Definition stream_read (rest : list byte) (n : nat) : list byte * list byte * bool :=
  if (n <=? length rest)%nat then (firstn n rest, skipn n rest, true)
  else (rest, [], false).

(** The buffer after [chunk] was read into its start. *)
Definition overwrite (chunk buffer : list byte) : list byte :=
  chunk ++ skipn (length chunk) buffer.

(** [buffer[i] = b], for [i] inside the buffer. *)
Definition store (buffer : list byte) (i : nat) (b : byte) : list byte :=
  firstn i buffer ++ b :: skipn (S i) buffer.

(** [for (i = lo; i < hi; ++i) buffer[i] = 0], for [hi] inside the buffer. *)
Definition zero_range (buffer : list byte) (lo hi : nat) : list byte :=
  if (lo <? hi)%nat
  then firstn lo buffer ++ repeat x00 (hi - lo) ++ skipn hi buffer
  else buffer.

(** [const int bufferSize = 1024] of the [authenticate] program. *)
Definition bufferSize : nat := 1024.

(** [const unsigned int buf_len = 3 * (1 << 20)] of the [uvmac] program. *)
Definition buf_len : nat := 3 * 2 ^ 20.

(** How the [uvmac] program ends when the process is not stopped:
    [return 1] after an error message, or [return 0] after the value of
    [res] was written to the tag file. *)
Inductive exit_status : Type :=
| Exit1
| TagWritten (res : Z).

(** Step 4 of the [uvmac] program, loading the interesting part of the pad
    key: [while (co <= messageNumber) { ++co; file2.read(running_key_data, 8);
    if (!file2) return 1; }].  [Some None] is the [return 1]; [None] is
    running out of fuel. *)
Fixpoint pad_key_loop (fuel : nat) (co messageNumber : Z)
  (rest running_key_data : list byte) : option (option (list byte)) :=
  match fuel with
  | O => None
  | S fuel' =>
      if co <=? messageNumber then
        let co := co + 1 in
        let '(chunk, rest, good) := stream_read rest 8 in
        let running_key_data := overwrite chunk running_key_data in
        if good then pad_key_loop fuel' co messageNumber rest running_key_data
        else Some None
      else Some (Some running_key_data)
  end.

(** ** The build for 128-bit tags ([UVMAC_TAG_LEN == 128]) *)

(** [uvmax_ctx_t] when [UVMAC_TAG_LEN] is 128: [polykey], [l3key] and
    [polytmp] have four words and [nhkey] has two more. *)
Record uvmax_ctx_t128 : Type := mk_ctx128 {
  nhkey128 : list Z;
  polykey128 : Z * Z * Z * Z;
  l3key128 : Z * Z * Z * Z;
  polytmp128 : Z * Z * Z * Z;
  first_block_processed128 : bool
}.

(** [vhash_abort] with the two more assignments of the 128-bit build. *)
Definition vhash_abort128 (ctx : uvmax_ctx_t128) : uvmax_ctx_t128 :=
  {| nhkey128 := nhkey128 ctx;
     polykey128 := polykey128 ctx;
     l3key128 := l3key128 ctx;
     polytmp128 := polykey128 ctx;
     first_block_processed128 := false |}.

(** The two halves of a 128-bit context, each seen as a context of the
    64-bit build: words 0 and 1 of every array with the NH key as it is, and
    words 2 and 3 with the NH key two words further. *)
Definition tag_lane1 (ctx : uvmax_ctx_t128) : uvmax_ctx_t :=
  let '(pk0, pk1, _, _) := polykey128 ctx in
  let '(l0, l1, _, _) := l3key128 ctx in
  let '(t0, t1, _, _) := polytmp128 ctx in
  {| nhkey := nhkey128 ctx;
     polykey := (pk0, pk1);
     l3key := (l0, l1);
     polytmp := (t0, t1);
     first_block_processed := first_block_processed128 ctx |}.

Definition tag_lane2 (ctx : uvmax_ctx_t128) : uvmax_ctx_t :=
  let '(_, _, pk2, pk3) := polykey128 ctx in
  let '(_, _, l2, l3) := l3key128 ctx in
  let '(_, _, t2, t3) := polytmp128 ctx in
  {| nhkey := skipn 2 (nhkey128 ctx);
     polykey := (pk2, pk3);
     l3key := (l2, l3);
     polytmp := (t2, t3);
     first_block_processed := first_block_processed128 ctx |}.

(** The key-loading loop of the [authenticate] program:
    [while (file.get(c1) && (nbRead < maxToRead)) { key.push_back(c1);
    ++nbRead; }], giving the key and [nbRead]. *)
Fixpoint load_key (file key : list byte) (nbRead maxToRead : nat)
  : list byte * nat :=
  match file with
  | [] => (key, nbRead)
  | c1 :: file =>
      if (nbRead <? maxToRead)%nat
      then load_key file (key ++ [c1]) (S nbRead) maxToRead
      else (key, nbRead)
  end.

(** ** A big-endian host ([UVMAC_ARCH_BIG_ENDIAN]) *)

Module BigEndianHost.

(** [*(uint64_t * )(ptr)] reads most significant byte first. *)
Definition native_load (p : list byte) : Z := load_be 8 p.

(** [bswap64] through the union: on this host [w.l[0]] is the high half of
    [w.ll] and [r.l[0]] the high half of [r.ll]. *)
Definition bswap64 (x : Z) : Z :=
  let w0 := Z.shiftr x 32 in    (* w.l[0] *)
  let w1 := u32 x in            (* w.l[1] *)
  let r0 := bswap32 w1 in       (* r.l[0] *)
  let r1 := bswap32 w0 in       (* r.l[1] *)
  r0 * 2 ^ 32 + r1.

(** [get64BE(ptr)] is the native load, [get64LE(ptr)] is
    [GET_REVERSED_64(ptr)]. *)
Definition get64BE (p : list byte) : Z := native_load p.
Definition get64LE (p : list byte) : Z := bswap64 (native_load p).

End BigEndianHost.

(** ** Further concrete data *)

(** The 208-byte user key of the self-test for 128-bit tags, and the context
    it gives for [UVMAC_NHBYTES = 128]. *)
Definition test_key128 : list byte := rep 26 abcdefgh.

Definition blank_ctx128 : uvmax_ctx_t128 :=
  mk_ctx128 [] (0, 0, 0, 0) (0, 0, 0, 0) (0, 0, 0, 0) false.

Definition test_ctx128 : uvmax_ctx_t128 :=
  {| nhkey128 := repeat 0x6162636465666768 18;
     polykey128 := (0x0162636405666768, 0x0162636405666768,
                    0x0162636405666768, 0x0162636405666768);
     l3key128 := (0x6162636465666768, 0x6162636465666768,
                  0x6162636465666768, 0x6162636465666768);
     polytmp128 := (0x0162636405666768, 0x0162636405666768,
                    0x0162636405666768, 0x0162636405666768);
     first_block_processed128 := false |}.

(** A 160-byte user key whose last word is 2^64 - 1. *)
Definition large_word_key : list byte := rep 19 abcdefgh ++ repeat xff 8.

(** ** The orchestrator *)

Section UVMAC.

(** The build parameter [UVMAC_NHBYTES] (128 in the header as shipped). *)
Variable UVMAC_NHBYTES : nat.

(** "Must 2^i for any 3 < i < 13": the block size is a power of two, at
    least 16. *)
Hypothesis NHBYTES_pow2 : exists e : nat, (4 <= e)%nat /\ UVMAC_NHBYTES = (2 ^ e)%nat.

(** [nh_vhash_nhbytes]: the unrolled loop [for (i = 0; i < nw; i += 8)] when
    [UVMAC_NHBYTES >= 64], and [nh_16] otherwise. *)
Definition nh_vhash_nhbytes (mp : list byte) (kp : list Z) (nw : nat) : Z * Z :=
  if (64 <=? UVMAC_NHBYTES)%nat
  then nh_64_iter ((nw + 7) / 8) 0 mp kp 0 0
  else nh_16 mp kp nw.

(** One turn of [while (i--)]: NH of the block at [mptr], masked to 62 bits,
    then [poly_step]. *)
Definition block_step (mptr : list byte) (kptr : list Z) (pkh pkl : Z)
  (c : Z * Z) : Z * Z :=
  let '(ch, cl) := c in
  let '(rh, rl) := nh_vhash_nhbytes mptr kptr (UVMAC_NHBYTES / 8) in
  let rh := Z.land rh m62 in
  poly_step ch cl pkh pkl rh rl.

(** [while (i--) { ...; mptr += (UVMAC_NHBYTES/sizeof(uint64_t)); }]: the
    accumulator and the pointer after the loop. *)
Fixpoint poly_blocks (i : nat) (mptr : list byte) (kptr : list Z) (pkh pkl : Z)
  (c : Z * Z) : (Z * Z) * list byte :=
  match i with
  | O => (c, mptr)
  | S i' =>
      let c := block_step mptr kptr pkh pkl c in
      poly_blocks i' (advance mptr (UVMAC_NHBYTES / 8)) kptr pkh pkl c
  end.

(** [vhash_update].  The header requires [mbytes] to be a positive multiple
    of [UVMAC_NHBYTES], so [i] is non-zero when the first branch decrements
    it; a call outside that contract, where the C loop would start from -1,
    is outside this model. *)
Definition vhash_update (m : list byte) (mbytes : nat) (ctx : uvmax_ctx_t)
  : uvmax_ctx_t :=
  let kptr := nhkey ctx in
  let '(pkh, pkl) := polykey ctx in
  let mptr := m in
  let i := (mbytes / UVMAC_NHBYTES)%nat in
  let '(ch, cl) := polytmp ctx in
  let '(c, mptr, i) :=
    if negb (first_block_processed ctx) then
      let '(rh, rl) := nh_vhash_nhbytes mptr kptr (UVMAC_NHBYTES / 8) in
      let rh := Z.land rh m62 in
      (ADD128 ch cl rh rl, advance mptr (UVMAC_NHBYTES / 8), Nat.pred i)
    else ((ch, cl), mptr, i) in
  let '(c, _) := poly_blocks i mptr kptr pkh pkl c in
  {| nhkey := nhkey ctx;
     polykey := polykey ctx;
     l3key := l3key ctx;
     polytmp := c;
     first_block_processed := true |}.

(** The tail of [vhash] from [while (i--)] to the label [do_l3]. *)
Definition vhash_rest (i remaining : nat) (mptr : list byte) (kptr : list Z)
  (pkh pkl : Z) (c : Z * Z) : Z * Z :=
  let '(c, mptr) := poly_blocks i mptr kptr pkh pkl c in
  if negb (remaining =? 0)%nat then
    let '(ch, cl) := c in
    let '(rh, rl) := nh_16 mptr kptr (2 * ((remaining + 15) / 16)) in
    let rh := Z.land rh m62 in
    poly_step ch cl pkh pkl rh rl
  else c.

(** [vhash] up to the label [do_l3]: the pair [(ch, cl)] handed to [l3hash]. *)
Definition vhash_poly (m : list byte) (mbytes : nat) (ctx : uvmax_ctx_t) : Z * Z :=
  let kptr := nhkey ctx in
  let '(pkh, pkl) := polykey ctx in
  let mptr := m in
  let i := (mbytes / UVMAC_NHBYTES)%nat in
  let remaining := (mbytes mod UVMAC_NHBYTES)%nat in
  if first_block_processed ctx then
    vhash_rest i remaining mptr kptr pkh pkl (polytmp ctx)
  else if negb (i =? 0)%nat then
    let '(ch, cl) := nh_vhash_nhbytes mptr kptr (UVMAC_NHBYTES / 8) in
    let ch := Z.land ch m62 in
    let c := ADD128 ch cl pkh pkl in
    vhash_rest (Nat.pred i) remaining (advance mptr (UVMAC_NHBYTES / 8))
      kptr pkh pkl c
  else if negb (remaining =? 0)%nat then
    let '(ch, cl) := nh_16 mptr kptr (2 * ((remaining + 15) / 16)) in
    let ch := Z.land ch m62 in
    ADD128 ch cl pkh pkl
  else (* Empty String *)
    (pkh, pkl).

(** The length handed to [l3hash]: [remaining *= 8]. *)
Definition vhash_len (mbytes : nat) : Z :=
  Z.of_nat ((mbytes mod UVMAC_NHBYTES) * 8).

(** [vhash]: the hash and the context it leaves. *)
Definition vhash (m : list byte) (mbytes : nat) (ctx : uvmax_ctx_t)
  : Z * uvmax_ctx_t :=
  let '(ch, cl) := vhash_poly m mbytes ctx in
  let ctx := vhash_abort ctx in
  (l3hash ch cl (fst (l3key ctx)) (snd (l3key ctx)) (vhash_len mbytes), ctx).

(** [xvhash] up to its [vhash_abort]. *)
Definition xvhash_poly (m : list byte) (mbytes : nat) (ctx : uvmax_ctx_t) : Z * Z :=
  let kptr := nhkey ctx in
  let remaining := (mbytes mod UVMAC_NHBYTES)%nat in
  let i := (mbytes - remaining)%nat in
  let mptr := skipn i m in
  let ctx := if negb (i =? 0)%nat then vhash_update m i ctx else ctx in
  let '(ch, cl) := polytmp ctx in
  if negb (remaining =? 0)%nat then
    let '(rh, rl) := nh_16 mptr kptr (2 * ((remaining + 15) / 16)) in
    let rh := Z.land rh m62 in
    if negb (i =? 0)%nat
    then poly_step ch cl (fst (polykey ctx)) (snd (polykey ctx)) rh rl
    else ADD128 ch cl rh rl
  else (ch, cl).

Definition xvhash (m : list byte) (mbytes : nat) (ctx : uvmax_ctx_t)
  : Z * uvmax_ctx_t :=
  let '(ch, cl) := xvhash_poly m mbytes ctx in
  let ctx := vhash_abort ctx in
  (l3hash ch cl (fst (l3key ctx)) (snd (l3key ctx)) (vhash_len mbytes), ctx).

(** [uvmac] for 64-bit tags: the tag, the context and the new key position. *)
Definition uvmac (m : list byte) (mbytes : nat) (ctx : uvmax_ctx_t)
  (consumable_key : list byte)
  (consumable_key_length consumable_key_position : Z)
  : outcome (Z * uvmax_ctx_t * Z) :=
  '(out_p, consumable_key_position) <-
     get64bitsOfKey consumable_key consumable_key_length consumable_key_position ;;
  let p := get64BE out_p in
  let '(h, ctx) := vhash m mbytes ctx in
  Returned (u64 (p + h), ctx, consumable_key_position).

(** [uvmac_set_key]; [fuel] bounds the turns of each rejection loop. *)
Definition uvmac_set_key_fuel (fuel : nat) (user_key : list byte) (key_length : Z)
  (ctx : uvmax_ctx_t) : outcome uvmax_ctx_t :=
  let key_position := 0 in
  '(nh, key_position) <-
     fill_nhkey (UVMAC_NHBYTES / 8) user_key key_length key_position ;;
  '(pk0, key_position) <- fill_polykey user_key key_length key_position ;;
  '(pk1, key_position) <- fill_polykey user_key key_length key_position ;;
  '(l0, key_position) <- fill_l3key fuel user_key key_length key_position ;;
  '(l1, key_position) <- fill_l3key fuel user_key key_length key_position ;;
  Returned {| nhkey := nh;
              polykey := (pk0, pk1);
              l3key := (l0, l1);
              polytmp := (pk0, pk1);
              first_block_processed := false |}.

(** Each turn of a rejection loop consumes a word, so a loop takes at most
    [key_length] turns before [get64bitsOfKey] stops the process. *)
Definition uvmac_set_key (user_key : list byte) (key_length : Z)
  (ctx : uvmax_ctx_t) : outcome uvmax_ctx_t :=
  uvmac_set_key_fuel (S (Z.to_nat key_length)) user_key key_length ctx.

(** The bytes of the buffer that [vhash] reads for a message of [mbytes]
    bytes: the full blocks, then the tail up to the next 16-byte boundary. *)
Definition padded_len (mbytes : nat) : nat :=
  (mbytes / UVMAC_NHBYTES) * UVMAC_NHBYTES
  + 16 * ((mbytes mod UVMAC_NHBYTES + 15) / 16).

(** The masked NH values of [n] consecutive full blocks at [mptr]. *)
Fixpoint block_hashes (n : nat) (mptr : list byte) (kptr : list Z) : list Z :=
  match n with
  | O => []
  | S n' =>
      let '(rh, rl) := nh_vhash_nhbytes mptr kptr (UVMAC_NHBYTES / 8) in
      val128 (Z.land rh m62, rl)
      :: block_hashes n' (advance mptr (UVMAC_NHBYTES / 8)) kptr
  end.

(** [nh_vhash_nhbytes_2]: the unrolled doubled loop when
    [UVMAC_NHBYTES >= 64]; otherwise [nh_vhash_nhbytes] twice, the second
    time on [kp + 2]. *)
Definition nh_vhash_nhbytes_2 (mp : list byte) (kp : list Z) (nw : nat)
  : (Z * Z) * (Z * Z) :=
  if (64 <=? UVMAC_NHBYTES)%nat
  then nh_64_2_iter ((nw + 7) / 8) 0 mp kp (0, 0) (0, 0)
  else (nh_vhash_nhbytes mp kp nw, nh_vhash_nhbytes mp (skipn 2 kp) nw).

(** The masked NH value of a tail of [r] bytes at [mptr]. *)
Definition tail_hash (r : nat) (mptr : list byte) (kptr : list Z) : Z :=
  let '(rh, rl) := nh_16 mptr kptr (2 * ((r + 15) / 16)) in
  val128 (Z.land rh m62, rl).

(** The masked NH values of a message of [mbytes] bytes: one for each full
    block, then one for the tail if there is one. *)
Definition message_hashes (m : list byte) (mbytes : nat) (kptr : list Z) : list Z :=
  block_hashes (mbytes / UVMAC_NHBYTES) m kptr
  ++ (if (mbytes mod UVMAC_NHBYTES =? 0)%nat then []
      else [tail_hash (mbytes mod UVMAC_NHBYTES)
              (skipn (mbytes / UVMAC_NHBYTES * UVMAC_NHBYTES) m) kptr]).

(** The read-and-hash loop of the [authenticate] program:
    [while (file1) { file1.read(buffer, bufferSize); ... }].  The result is
    the buffer, the count [s] and the context at the loop's exit; [None] is
    running out of fuel. *)
Fixpoint authenticate_loop (fuel : nat) (rest buffer : list byte)
  (ctx : uvmax_ctx_t) : option (list byte * nat * uvmax_ctx_t) :=
  match fuel with
  | O => None
  | S fuel' =>
      let '(chunk, rest, good) := stream_read rest bufferSize in
      let buffer := overwrite chunk buffer in
      let s := if good then bufferSize else length chunk in
      let buffer := store buffer s x00 in
      let '(ctx, s) :=
        if (s =? bufferSize)%nat then (vhash_update buffer s ctx, 0%nat)
        else (ctx, s) in
      if good then authenticate_loop fuel' rest buffer ctx
      else Some (buffer, s, ctx)
  end.

(** [authenticate] from the loop to the call of [uvmac]: the zero padding of
    the remaining part and the tag, with the pad key [key2] read from
    position 0. *)
Definition authenticate (file : list byte) (ctx : uvmax_ctx_t) (key2 : list byte)
  : option (outcome (Z * uvmax_ctx_t * Z)) :=
  match authenticate_loop (S (length file)) file (repeat x00 (bufferSize + 1)) ctx with
  | None => None
  | Some (buffer, s, ctx) =>
      let buffer :=
        if (0 <? s)%nat && negb (s mod 16 =? 0)%nat
        then zero_range buffer s ((s / 16 + 1) * 16)
        else buffer in
      Some (uvmac buffer s ctx key2 (Z.of_nat (length key2 / 8)) 0)
  end.

(** The read-and-hash loop of the [uvmac] program,
    [for (long int pos(0); pos < fileSize; ) { ... }], over what is left of
    the file, with chunk size [len].  [Some AssertionFailed] is the failed
    [assert((lengthToRead % UVMAC_NHBYTES) == 0)]; [None] is running out of
    fuel. *)
Fixpoint uvmac_file_loop (fuel len : nat) (rest m : list byte) (ctx : uvmax_ctx_t)
  (running_key : list byte) (running_key_length running_key_position : Z)
  : option (outcome (Z * uvmax_ctx_t * Z)) :=
  match fuel with
  | O => None
  | S fuel' =>
      let lengthToRead := Nat.min (length rest) len in
      let m := overwrite (firstn lengthToRead rest) m in
      if (lengthToRead <? length rest)%nat then
        if (lengthToRead mod UVMAC_NHBYTES =? 0)%nat then
          uvmac_file_loop fuel' len (skipn lengthToRead rest) m
            (vhash_update m lengthToRead ctx)
            running_key running_key_length running_key_position
        else Some AssertionFailed
      else
        let m := zero_range m (lengthToRead - 1)
                   (Nat.min (lengthToRead + 16) (len + 16)) in
        Some (uvmac m (lengthToRead - 1) ctx
                running_key running_key_length running_key_position)
  end.

(** Step 5 of the [uvmac] program on a non-empty file: the value of [res].
    (On an empty file the loop is not entered and [res] is never
    assigned.) *)
Definition uvmac_file (file : list byte) (ctx : uvmax_ctx_t)
  (running_key : list byte) (running_key_length running_key_position : Z)
  : option (outcome (Z * uvmax_ctx_t * Z)) :=
  match file with
  | [] => None
  | _ => uvmac_file_loop (S (length file)) buf_len file (repeat x00 (buf_len + 16))
           ctx running_key running_key_length running_key_position
  end.

(** The [uvmac] program for 64-bit tags, from the contents of its three
    files (all of which open) and the decoded message number; [ctx0] and
    [running_key_data0] are what the uninitialised context and pad buffer
    hold.  [None] is a run that writes an unassigned [res] (or runs out of
    fuel); [Some AssertionFailed] is a stopped process. *)
Definition uvmac_main (hashKeyFile padKeyFile inputFile : list byte)
  (messageNumber : Z) (ctx0 : uvmax_ctx_t) (running_key_data0 : list byte)
  : option (outcome exit_status) :=
  let key_length := 20 in
  (* 1. Loading the hash key *)
  let '(hash_key_data, _, good) := stream_read hashKeyFile (Z.to_nat key_length * 8) in
  if negb good then Some (Returned Exit1) else
  (* 2. Initializing the hash function *)
  match uvmac_set_key hash_key_data key_length ctx0 with
  | Returned ctx =>
      (* 4. Loading the interesting part of the pad key *)
      let running_key_length := 1 in
      let running_key_position := 0 in
      match pad_key_loop (2 + length padKeyFile) 0 messageNumber padKeyFile
              running_key_data0 with
      | None => None
      | Some None => Some (Returned Exit1)
      | Some (Some running_key) =>
          (* 5. Load the input file and hash it *)
          match uvmac_file inputFile ctx running_key running_key_length
                  running_key_position with
          | None => None
          | Some (Returned (res, _, _)) => Some (Returned (TagWritten res))
          | Some AssertionFailed => Some AssertionFailed
          | Some OutOfFuel => Some OutOfFuel
          end
      end
  | AssertionFailed => Some AssertionFailed
  | OutOfFuel => Some OutOfFuel
  end.

(** *** The orchestrator for 128-bit tags *)

(** One turn of [while (i--)] when [UVMAC_TAG_LEN] is 128. *)
Definition block_step128 (mptr : list byte) (kptr : list Z) (pk c : Z * Z * Z * Z)
  : Z * Z * Z * Z :=
  let '(pkh, pkl, pkh2, pkl2) := pk in
  let '(ch, cl, ch2, cl2) := c in
  let '((rh, rl), (rh2, rl2)) := nh_vhash_nhbytes_2 mptr kptr (UVMAC_NHBYTES / 8) in
  let rh2 := Z.land rh2 m62 in
  let '(ch2, cl2) := poly_step ch2 cl2 pkh2 pkl2 rh2 rl2 in
  let rh := Z.land rh m62 in
  let '(ch, cl) := poly_step ch cl pkh pkl rh rl in
  (ch, cl, ch2, cl2).

Fixpoint poly_blocks128 (i : nat) (mptr : list byte) (kptr : list Z)
  (pk c : Z * Z * Z * Z) : (Z * Z * Z * Z) * list byte :=
  match i with
  | O => (c, mptr)
  | S i' =>
      let c := block_step128 mptr kptr pk c in
      poly_blocks128 i' (advance mptr (UVMAC_NHBYTES / 8)) kptr pk c
  end.

(** [vhash_update] when [UVMAC_TAG_LEN] is 128 (with [mbytes] a positive
    multiple of [UVMAC_NHBYTES], as for the 64-bit build). *)
Definition vhash_update128 (m : list byte) (mbytes : nat) (ctx : uvmax_ctx_t128)
  : uvmax_ctx_t128 :=
  let kptr := nhkey128 ctx in
  let pk := polykey128 ctx in
  let mptr := m in
  let i := (mbytes / UVMAC_NHBYTES)%nat in
  let '(ch, cl, ch2, cl2) := polytmp128 ctx in
  let '(c, mptr, i) :=
    if negb (first_block_processed128 ctx) then
      let '((rh, rl), (rh2, rl2)) :=
        nh_vhash_nhbytes_2 mptr kptr (UVMAC_NHBYTES / 8) in
      let rh2 := Z.land rh2 m62 in
      let '(ch2, cl2) := ADD128 ch2 cl2 rh2 rl2 in
      let rh := Z.land rh m62 in
      let '(ch, cl) := ADD128 ch cl rh rl in
      ((ch, cl, ch2, cl2), advance mptr (UVMAC_NHBYTES / 8), Nat.pred i)
    else ((ch, cl, ch2, cl2), mptr, i) in
  let '(c, _) := poly_blocks128 i mptr kptr pk c in
  {| nhkey128 := nhkey128 ctx;
     polykey128 := polykey128 ctx;
     l3key128 := l3key128 ctx;
     polytmp128 := c;
     first_block_processed128 := true |}.

(** The tail of the 128-bit [vhash] from [while (i--)] to [do_l3]. *)
Definition vhash_rest128 (i remaining : nat) (mptr : list byte) (kptr : list Z)
  (pk c : Z * Z * Z * Z) : Z * Z * Z * Z :=
  let '(c, mptr) := poly_blocks128 i mptr kptr pk c in
  if negb (remaining =? 0)%nat then
    let '(pkh, pkl, pkh2, pkl2) := pk in
    let '(ch, cl, ch2, cl2) := c in
    let '((rh, rl), (rh2, rl2)) :=
      nh_16_2 mptr kptr (2 * ((remaining + 15) / 16)) in
    let rh2 := Z.land rh2 m62 in
    let '(ch2, cl2) := poly_step ch2 cl2 pkh2 pkl2 rh2 rl2 in
    let rh := Z.land rh m62 in
    let '(ch, cl) := poly_step ch cl pkh pkl rh rl in
    (ch, cl, ch2, cl2)
  else c.

(** The 128-bit [vhash] up to [do_l3]: [(ch, cl, ch2, cl2)]. *)
Definition vhash_poly128 (m : list byte) (mbytes : nat) (ctx : uvmax_ctx_t128)
  : Z * Z * Z * Z :=
  let kptr := nhkey128 ctx in
  let '(pkh, pkl, pkh2, pkl2) := polykey128 ctx in
  let mptr := m in
  let i := (mbytes / UVMAC_NHBYTES)%nat in
  let remaining := (mbytes mod UVMAC_NHBYTES)%nat in
  if first_block_processed128 ctx then
    vhash_rest128 i remaining mptr kptr (pkh, pkl, pkh2, pkl2) (polytmp128 ctx)
  else if negb (i =? 0)%nat then
    let '((ch, cl), (ch2, cl2)) :=
      nh_vhash_nhbytes_2 mptr kptr (UVMAC_NHBYTES / 8) in
    let ch2 := Z.land ch2 m62 in
    let '(ch2, cl2) := ADD128 ch2 cl2 pkh2 pkl2 in
    let ch := Z.land ch m62 in
    let '(ch, cl) := ADD128 ch cl pkh pkl in
    vhash_rest128 (Nat.pred i) remaining (advance mptr (UVMAC_NHBYTES / 8))
      kptr (pkh, pkl, pkh2, pkl2) (ch, cl, ch2, cl2)
  else if negb (remaining =? 0)%nat then
    let '((ch, cl), (ch2, cl2)) :=
      nh_16_2 mptr kptr (2 * ((remaining + 15) / 16)) in
    let ch2 := Z.land ch2 m62 in
    let '(ch2, cl2) := ADD128 ch2 cl2 pkh2 pkl2 in
    let ch := Z.land ch m62 in
    let '(ch, cl) := ADD128 ch cl pkh pkl in
    (ch, cl, ch2, cl2)
  else (* Empty String *)
    (pkh, pkl, pkh2, pkl2).

(** The 128-bit [vhash]: the returned word, [*tagl], and the context. *)
Definition vhash128 (m : list byte) (mbytes : nat) (ctx : uvmax_ctx_t128)
  : Z * Z * uvmax_ctx_t128 :=
  let '(ch, cl, ch2, cl2) := vhash_poly128 m mbytes ctx in
  let ctx := vhash_abort128 ctx in
  let '(k0, k1, k2, k3) := l3key128 ctx in
  let tagl := l3hash ch2 cl2 k2 k3 (vhash_len mbytes) in
  (l3hash ch cl k0 k1 (vhash_len mbytes), tagl, ctx).

(** [uvmac] for 128-bit tags: the returned word, [*tagl], the context and
    the new key position. *)
Definition uvmac128 (m : list byte) (mbytes : nat) (ctx : uvmax_ctx_t128)
  (consumable_key : list byte)
  (consumable_key_length consumable_key_position : Z)
  : outcome (Z * Z * uvmax_ctx_t128 * Z) :=
  '(out_p, consumable_key_position) <-
     get64bitsOfKey consumable_key consumable_key_length consumable_key_position ;;
  let '(th, tl, ctx) := vhash128 m mbytes ctx in
  let th := u64 (th + get64BE out_p) in
  '(out_p, consumable_key_position) <-
     get64bitsOfKey consumable_key consumable_key_length consumable_key_position ;;
  let tagl := u64 (tl + get64BE out_p) in
  Returned (th, tagl, ctx, consumable_key_position).

(** [uvmac_set_key] when [UVMAC_TAG_LEN] is 128: [sizeof(ctx->nhkey)/8] is
    [UVMAC_NHBYTES/8 + 2], and the poly and l3 loops run four times. *)
Definition uvmac_set_key128 (user_key : list byte) (key_length : Z)
  (ctx : uvmax_ctx_t128) : outcome uvmax_ctx_t128 :=
  let fuel := S (Z.to_nat key_length) in
  let key_position := 0 in
  '(nh, key_position) <-
     fill_nhkey (UVMAC_NHBYTES / 8 + 2) user_key key_length key_position ;;
  '(pk0, key_position) <- fill_polykey user_key key_length key_position ;;
  '(pk1, key_position) <- fill_polykey user_key key_length key_position ;;
  '(pk2, key_position) <- fill_polykey user_key key_length key_position ;;
  '(pk3, key_position) <- fill_polykey user_key key_length key_position ;;
  '(l0, key_position) <- fill_l3key fuel user_key key_length key_position ;;
  '(l1, key_position) <- fill_l3key fuel user_key key_length key_position ;;
  '(l2, key_position) <- fill_l3key fuel user_key key_length key_position ;;
  '(l3, key_position) <- fill_l3key fuel user_key key_length key_position ;;
  Returned {| nhkey128 := nh;
              polykey128 := (pk0, pk1, pk2, pk3);
              l3key128 := (l0, l1, l2, l3);
              polytmp128 := (pk0, pk1, pk2, pk3);
              first_block_processed128 := false |}.

(** The [authenticate] program, from the contents of its three input files
    (all of which open, as does the tag file); [ctx0] is what the
    uninitialised context holds.  [TagWritten tag] is the [tag] whose eight
    bytes are written to the tag file. *)
Definition authenticate_main (inputFile uHashKeyFile tagKeyFile : list byte)
  (ctx0 : uvmax_ctx_t) : option (outcome exit_status) :=
  (* Load the first key *)
  let '(key1, nbRead) := load_key uHashKeyFile [] 0 340 in
  if (nbRead <? 160)%nat then Some (Returned Exit1) else
  (* Initialize the hashing function with this key *)
  match uvmac_set_key key1 (Z.of_nat (nbRead / 8)) ctx0 with
  | Returned ctx =>
      (* Load the second key *)
      let '(key2, nbRead) := load_key tagKeyFile [] 0 8 in
      if (nbRead <? 8)%nat then Some (Returned Exit1) else
      (* Read and process the data file *)
      match authenticate inputFile ctx key2 with
      | None => None
      | Some (Returned (tag, _, _)) => Some (Returned (TagWritten tag))
      | Some AssertionFailed => Some AssertionFailed
      | Some OutOfFuel => Some OutOfFuel
      end
  | AssertionFailed => Some AssertionFailed
  | OutOfFuel => Some OutOfFuel
  end.
(** ** Arithmetic facts *)

(** Goals about register pairs that are linear once [val128] and [word64]
    are unfolded. *)
Ltac words := unfold val128, word64 in *; cbn [fst snd] in *; lia.

Lemma u64_range x : word64 (u64 x).
Proof. unfold word64, u64. apply Z.mod_pos_bound. lia. Qed.

Lemma u64_small x : word64 x -> u64 x = x.
Proof. unfold word64, u64. intros. apply Z.mod_small. lia. Qed.

Lemma mod_eq a b q r : 0 <= r < b -> a = b * q + r -> a mod b = r.
Proof. intros Hr E. symmetry. apply Z.mod_unique with q; auto. Qed.

Lemma ADD128_spec rh rl ih il :
  word64 rh -> word64 rl -> word64 ih -> word64 il ->
  val128 (ADD128 rh rl ih il) = (val128 (rh, rl) + val128 (ih, il)) mod 2 ^ 128
  /\ word64 (fst (ADD128 rh rl ih il)) /\ word64 (snd (ADD128 rh rl ih il)).
Proof.
  unfold word64, ADD128, val128, u64; cbn [fst snd]. intros Hrh Hrl Hih Hil.
  assert (Hlo : 0 <= (rl + il) mod 2 ^ 64 < 2 ^ 64) by (apply Z.mod_pos_bound; lia).
  split.
  2:{ split; [apply Z.mod_pos_bound; lia | exact Hlo]. }
  destruct (Z.ltb_spec ((rl + il) mod 2 ^ 64) il) as [Hc | Hc].
  - assert (E : (rl + il) mod 2 ^ 64 = rl + il - 2 ^ 64).
    { destruct (Z_lt_le_dec (rl + il) (2 ^ 64)) as [Hs | Hs].
      - rewrite Z.mod_small in Hc by lia. lia.
      - apply mod_eq with 1; lia. }
    rewrite E. rewrite Zplus_mod_idemp_l.
    assert (Hm := Z.mod_pos_bound (rh + 1 + ih) (2 ^ 64) ltac:(lia)).
    symmetry; apply mod_eq with ((rh + 1 + ih) / 2 ^ 64); [lia|].
    pose proof (Z.div_mod (rh + 1 + ih) (2 ^ 64) ltac:(lia)). lia.
  - assert (E : (rl + il) mod 2 ^ 64 = rl + il).
    { destruct (Z_lt_le_dec (rl + il) (2 ^ 64)) as [Hs | Hs].
      - apply Z.mod_small; lia.
      - assert ((rl + il) mod 2 ^ 64 = rl + il - 2 ^ 64)
          by (apply mod_eq with 1; lia). lia. }
    rewrite E.
    assert (Hm := Z.mod_pos_bound (rh + ih) (2 ^ 64) ltac:(lia)).
    symmetry; apply mod_eq with ((rh + ih) / 2 ^ 64); [lia|].
    pose proof (Z.div_mod (rh + ih) (2 ^ 64) ltac:(lia)). lia.
Qed.

Lemma ADD128_exact rh rl ih il :
  word64 rh -> word64 rl -> word64 ih -> word64 il ->
  val128 (rh, rl) + val128 (ih, il) < 2 ^ 128 ->
  val128 (ADD128 rh rl ih il) = val128 (rh, rl) + val128 (ih, il)
  /\ word64 (fst (ADD128 rh rl ih il)) /\ word64 (snd (ADD128 rh rl ih il)).
Proof.
  intros Hrh Hrl Hih Hil Hlt.
  destruct (ADD128_spec rh rl ih il Hrh Hrl Hih Hil) as (E & H1 & H2).
  split; [|split]; auto.
  rewrite E. apply Z.mod_small.
  unfold val128, word64 in *; cbn [fst snd] in *. lia.
Qed.

Lemma mul_lt_bound a b x y :
  0 <= a < x -> 0 <= b < y -> 0 <= a * b < x * y.
Proof.
  intros Ha Hb. split.
  - apply Z.mul_nonneg_nonneg; lia.
  - apply Z.mul_lt_mono_nonneg; lia.
Qed.

Lemma split32 x : word64 x ->
  x = (x / 2 ^ 32) * 2 ^ 32 + x mod 2 ^ 32
  /\ 0 <= x / 2 ^ 32 < 2 ^ 32 /\ 0 <= x mod 2 ^ 32 < 2 ^ 32.
Proof.
  unfold word64. intros Hx.
  pose proof (Z.div_mod x (2 ^ 32) ltac:(lia)).
  pose proof (Z.mod_pos_bound x (2 ^ 32) ltac:(lia)).
  assert (0 <= x / 2 ^ 32) by (apply Z.div_pos; lia).
  assert (x / 2 ^ 32 < 2 ^ 32) by (apply Z.div_lt_upper_bound; lia).
  lia.
Qed.

Lemma MUL32_val x y : MUL32 x y = (x mod 2 ^ 32) * (y mod 2 ^ 32).
Proof.
  unfold MUL32, u64, u32. apply Z.mod_small.
  pose proof (Z.mod_pos_bound x (2 ^ 32) ltac:(lia)).
  pose proof (Z.mod_pos_bound y (2 ^ 32) ltac:(lia)).
  pose proof (mul_lt_bound _ _ _ _ H H0). lia.
Qed.

Lemma shiftr32_small x : word64 x -> Z.shiftr x 32 mod 2 ^ 32 = x / 2 ^ 32.
Proof.
  intros Hx. rewrite Z.shiftr_div_pow2 by lia.
  destruct (split32 x Hx) as (_ & H & _). apply Z.mod_small; lia.
Qed.

Lemma cross_term m : word64 m ->
  val128 (Z.shiftr m 32, u64 (Z.shiftl m 32)) = m * 2 ^ 32
  /\ word64 (Z.shiftr m 32) /\ word64 (u64 (Z.shiftl m 32)).
Proof.
  intros Hm. destruct (split32 m Hm) as (E & Hq & Hr).
  rewrite Z.shiftr_div_pow2, Z.shiftl_mul_pow2 by lia.
  assert (Hl : u64 (m * 2 ^ 32) = (m mod 2 ^ 32) * 2 ^ 32).
  { unfold u64. apply mod_eq with (m / 2 ^ 32); lia. }
  rewrite Hl. unfold val128, word64; cbn [fst snd]. lia.
Qed.

(** The default [PMUL64] is the exact product whenever its middle term does
    not overflow; the x86-64 variant ([mulq]) is the exact product always. *)
Lemma PMUL64_spec i1 i2 :
  word64 i1 -> word64 i2 ->
  (i1 mod 2 ^ 32) * (i2 / 2 ^ 32) + (i1 / 2 ^ 32) * (i2 mod 2 ^ 32) < 2 ^ 64 ->
  val128 (PMUL64 i1 i2) = i1 * i2
  /\ word64 (fst (PMUL64 i1 i2)) /\ word64 (snd (PMUL64 i1 i2)).
Proof.
  intros H1 H2 Hm. unfold PMUL64.
  rewrite !MUL32_val, !shiftr32_small by assumption.
  destruct (split32 i1 H1) as (E1 & Hq1 & Hr1).
  destruct (split32 i2 H2) as (E2 & Hq2 & Hr2).
  set (a1 := i1 / 2 ^ 32) in *. set (b1 := i1 mod 2 ^ 32) in *.
  set (a2 := i2 / 2 ^ 32) in *. set (b2 := i2 mod 2 ^ 32) in *.
  pose proof (mul_lt_bound _ _ _ _ Hq1 Hq2) as Baa.
  pose proof (mul_lt_bound _ _ _ _ Hr1 Hr2) as Bbb.
  pose proof (mul_lt_bound _ _ _ _ Hr1 Hq2) as Bba.
  pose proof (mul_lt_bound _ _ _ _ Hq1 Hr2) as Bab.
  assert (Wm : word64 (b1 * a2 + a1 * b2)) by (unfold word64; lia).
  rewrite (u64_small _ Wm).
  destruct (cross_term _ Wm) as (Ec & Wc1 & Wc2).
  assert (Wh : word64 (a1 * a2)) by (unfold word64; lia).
  assert (Wl : word64 (b1 * b2)) by (unfold word64; lia).
  assert (P : i1 * i2 = a1 * a2 * 2 ^ 64 + b1 * b2 + (b1 * a2 + a1 * b2) * 2 ^ 32).
  { rewrite E1, E2 at 1. ring. }
  assert (Hi : 0 <= i1 * i2 < 2 ^ 64 * 2 ^ 64) by (apply mul_lt_bound; assumption).
  destruct (ADD128_exact _ _ _ _ Wh Wl Wc1 Wc2) as (E & W1 & W2).
  { rewrite Ec. unfold val128; cbn [fst snd]. lia. }
  split; [|split]; auto.
  rewrite E, Ec. unfold val128; cbn [fst snd]. lia.
Qed.

(** The default [MUL64] is the exact 64x64->128 product. *)
Lemma MUL64_spec i1 i2 :
  word64 i1 -> word64 i2 ->
  val128 (MUL64 i1 i2) = i1 * i2
  /\ word64 (fst (MUL64 i1 i2)) /\ word64 (snd (MUL64 i1 i2)).
Proof.
  intros H1 H2. unfold MUL64.
  rewrite !MUL32_val, !shiftr32_small by assumption.
  destruct (split32 i1 H1) as (E1 & Hq1 & Hr1).
  destruct (split32 i2 H2) as (E2 & Hq2 & Hr2).
  set (a1 := i1 / 2 ^ 32) in *. set (b1 := i1 mod 2 ^ 32) in *.
  set (a2 := i2 / 2 ^ 32) in *. set (b2 := i2 mod 2 ^ 32) in *.
  pose proof (mul_lt_bound _ _ _ _ Hq1 Hq2) as Baa.
  pose proof (mul_lt_bound _ _ _ _ Hr1 Hr2) as Bbb.
  pose proof (mul_lt_bound _ _ _ _ Hr1 Hq2) as Bba.
  pose proof (mul_lt_bound _ _ _ _ Hq1 Hr2) as Bab.
  assert (Wm1 : word64 (b1 * a2)) by (unfold word64; lia).
  assert (Wm2 : word64 (a1 * b2)) by (unfold word64; lia).
  destruct (cross_term _ Wm1) as (Ec1 & Wc1 & Wc1').
  destruct (cross_term _ Wm2) as (Ec2 & Wc2 & Wc2').
  assert (Wh : word64 (a1 * a2)) by (unfold word64; lia).
  assert (Wl : word64 (b1 * b2)) by (unfold word64; lia).
  assert (P : i1 * i2 = a1 * a2 * 2 ^ 64 + b1 * b2 + b1 * a2 * 2 ^ 32 + a1 * b2 * 2 ^ 32).
  { rewrite E1, E2 at 1. ring. }
  assert (Hi : 0 <= i1 * i2 < 2 ^ 64 * 2 ^ 64) by (apply mul_lt_bound; assumption).
  destruct (ADD128_exact _ _ _ _ Wh Wl Wc1 Wc1') as (E & W1 & W2).
  { rewrite Ec1. unfold val128; cbn [fst snd]. lia. }
  destruct (ADD128 (a1 * a2) (b1 * b2) (Z.shiftr (b1 * a2) 32)
              (u64 (Z.shiftl (b1 * a2) 32))) as [rh rl].
  cbn [fst snd] in *.
  destruct (ADD128_exact _ _ _ _ W1 W2 Wc2 Wc2') as (E' & W1' & W2').
  { rewrite Ec2, E, Ec1. unfold val128; cbn [fst snd]. lia. }
  split; [|split]; auto.
  rewrite E', Ec2, E, Ec1. unfold val128; cbn [fst snd]. lia.
Qed.

Lemma lanes29_bound w : lanes29 w -> 0 <= w < 2 ^ 61.
Proof.
  intros (Hw & Hl & Hh). destruct (split32 w Hw) as (E & Hq & Hr). lia.
Qed.

Lemma PMUL64_lanes i1 i2 :
  word64 i1 -> word64 i2 -> i2 mod 2 ^ 32 < 2 ^ 30 -> i2 / 2 ^ 32 < 2 ^ 30 ->
  val128 (PMUL64 i1 i2) = i1 * i2
  /\ word64 (fst (PMUL64 i1 i2)) /\ word64 (snd (PMUL64 i1 i2)).
Proof.
  intros H1 H2 Hl Hh. apply PMUL64_spec; auto.
  destruct (split32 i1 H1) as (E1 & Hq1 & Hr1).
  destruct (split32 i2 H2) as (E2 & Hq2 & Hr2).
  assert (0 <= i1 mod 2 ^ 32 * (i2 / 2 ^ 32) < 2 ^ 32 * 2 ^ 30)
    by (apply mul_lt_bound; lia).
  assert (0 <= i1 / 2 ^ 32 * (i2 mod 2 ^ 32) < 2 ^ 32 * 2 ^ 30)
    by (apply mul_lt_bound; lia).
  lia.
Qed.

Lemma double_lanes kh : lanes29 kh ->
  u64 (2 * kh) = 2 * kh /\ word64 (2 * kh)
  /\ (2 * kh) mod 2 ^ 32 < 2 ^ 30 /\ (2 * kh) / 2 ^ 32 < 2 ^ 30.
Proof.
  intros Hk. pose proof (lanes29_bound _ Hk) as Hb.
  destruct Hk as (Hw & Hl & Hh). destruct (split32 kh Hw) as (E & Hq & Hr).
  assert (W : word64 (2 * kh)) by (unfold word64; lia).
  split; [apply u64_small; exact W|]. split; [exact W|].
  assert (Em : (2 * kh) mod 2 ^ 32 = 2 * (kh mod 2 ^ 32))
    by (apply mod_eq with (2 * (kh / 2 ^ 32)); lia).
  pose proof (Z.div_mod (2 * kh) (2 ^ 32) ltac:(lia)). lia.
Qed.

(** [poly_step] on any 64-bit accumulator words, a masked key and a message
    word pair whose high word is below 2^62: the result is congruent to
    [a*k + m] modulo p127 and its high word is at most 2^63 + 2^62. *)
Lemma poly_step_congr ah al kh kl mh ml :
  word64 ah -> word64 al -> lanes29 kh -> lanes29 kl ->
  0 <= mh < 2 ^ 62 -> word64 ml ->
  val128 (poly_step ah al kh kl mh ml) mod p127
    = (val128 (ah, al) * val128 (kh, kl) + val128 (mh, ml)) mod p127
  /\ 0 <= fst (poly_step ah al kh kl mh ml) <= 2 ^ 63 + 2 ^ 62
  /\ word64 (snd (poly_step ah al kh kl mh ml)).
Proof.
  intros Wah Wal Lkh Lkl Hmh Wml.
  pose proof (lanes29_bound _ Lkh) as Bkh.
  pose proof (lanes29_bound _ Lkl) as Bkl.
  destruct (double_lanes _ Lkh) as (E2k & W2k & L2kl & L2kh).
  assert (Wkh : word64 kh) by (destruct Lkh; assumption).
  assert (Wkl : word64 kl) by (destruct Lkl; assumption).
  assert (Lh : forall k, lanes29 k -> k mod 2 ^ 32 < 2 ^ 30 /\ k / 2 ^ 32 < 2 ^ 30)
    by (intros k (_ & ? & ?); lia).
  unfold poly_step. rewrite E2k.
  destruct (PMUL64_lanes al kh Wal Wkh (proj1 (Lh _ Lkh)) (proj2 (Lh _ Lkh)))
    as (E3 & W3h & W3l).
  destruct (PMUL64 al kh) as [t3h t3l].
  destruct (PMUL64_lanes ah kl Wah Wkl (proj1 (Lh _ Lkl)) (proj2 (Lh _ Lkl)))
    as (E2 & W2h & W2l).
  destruct (PMUL64 ah kl) as [t2h t2l].
  destruct (PMUL64_lanes ah (2 * kh) Wah W2k L2kl L2kh) as (E1 & W1h & W1l).
  destruct (PMUL64 ah (2 * kh)) as [t1h t1l].
  destruct (PMUL64_lanes al kl Wal Wkl (proj1 (Lh _ Lkl)) (proj2 (Lh _ Lkl)))
    as (E0 & W0h & W0l).
  destruct (PMUL64 al kl) as [r0h r0l].
  unfold val128 in E3, E2, E1, E0; cbn [fst snd] in *.
  assert (Bac : 0 <= ah * kh < 2 ^ 64 * 2 ^ 61) by (apply mul_lt_bound; auto).
  assert (Bad : 0 <= ah * kl < 2 ^ 64 * 2 ^ 61) by (apply mul_lt_bound; auto).
  assert (Bbc : 0 <= al * kh < 2 ^ 64 * 2 ^ 61) by (apply mul_lt_bound; auto).
  assert (Bbd : 0 <= al * kl < 2 ^ 64 * 2 ^ 61) by (apply mul_lt_bound; auto).
  (* (ah,al) = al*kl + 2*ah*kh *)
  destruct (ADD128_exact _ _ _ _ W0h W0l W1h W1l) as (Es1 & Ws1h & Ws1l).
  { unfold val128; cbn [fst snd]. lia. }
  destruct (ADD128 r0h r0l t1h t1l) as [s1h s1l].
  (* (t2h,t2l) = ah*kl + al*kh *)
  destruct (ADD128_exact _ _ _ _ W2h W2l W3h W3l) as (Es2 & Ws2h & Ws2l).
  { unfold val128; cbn [fst snd]. lia. }
  destruct (ADD128 t2h t2l t3h t3l) as [s2h s2l].
  unfold val128 in Es1, Es2; cbn [fst snd] in *.
  assert (Bs2h : s2h < 2 ^ 62) by (unfold word64 in *; lia).
  (* carry the high words into t2h *)
  assert (W0 : word64 0) by (unfold word64; lia).
  destruct (ADD128_exact _ _ _ _ Ws2h Ws1h W0 Ws2l) as (Es3 & Ws3h & Ws3l).
  { words. }
  destruct (ADD128 s2h s1h 0 s2l) as [c a'].
  unfold val128 in Es3; cbn [fst snd] in *.
  assert (Bc : c <= 2 ^ 62) by (unfold word64 in *; lia).
  rewrite Z.shiftr_div_pow2 by lia.
  change m63 with (Z.ones 63). rewrite Z.land_ones by lia.
  pose proof (Z.div_mod a' (2 ^ 63) ltac:(lia)) as Ea'.
  pose proof (Z.mod_pos_bound a' (2 ^ 63) ltac:(lia)) as Br.
  assert (Bq : 0 <= a' / 2 ^ 63 <= 1).
  { split; [apply Z.div_pos; unfold word64 in *; lia|].
    assert (a' / 2 ^ 63 < 2) by (apply Z.div_lt_upper_bound; unfold word64 in *; lia).
    lia. }
  set (q := a' / 2 ^ 63) in *. set (r := a' mod 2 ^ 63) in *.
  assert (Wt : word64 (2 * c + q)) by (unfold word64 in *; lia).
  rewrite (u64_small _ Wt).
  assert (Wr : word64 r) by (unfold word64; lia).
  assert (Wmh : word64 mh) by (unfold word64; lia).
  destruct (ADD128_exact _ _ _ _ Wr Ws1l Wmh Wml) as (Es4 & Ws4h & Ws4l).
  { words. }
  destruct (ADD128 r s1l mh ml) as [s4h s4l].
  unfold val128 in Es4; cbn [fst snd] in *.
  destruct (ADD128_exact _ _ _ _ Ws4h Ws4l W0 Wt) as (Es5 & Ws5h & Ws5l).
  { words. }
  destruct (ADD128 s4h s4l 0 (2 * c + q)) as [s5h s5l].
  unfold val128 in *; cbn [fst snd] in *.
  split; [|split].
  - unfold p127.
    replace (s5h * 2 ^ 64 + s5l)
      with ((ah * 2 ^ 64 + al) * (kh * 2 ^ 64 + kl) + (mh * 2 ^ 64 + ml)
            + (- (2 * (ah * kh) + 2 * c + q)) * (2 ^ 127 - 1)).
    + apply Z_mod_plus_full.
    + lia.
  - unfold word64 in *. lia.
  - exact Ws5l.
Qed.

(** ** Loads *)

Lemma div_eq a b q r : 0 <= r < b -> a = b * q + r -> a / b = q.
Proof. intros Hr E. symmetry. apply Z.div_unique with r; auto. Qed.

Lemma byte_val_range b : 0 <= byte_val b < 2 ^ 8.
Proof.
  unfold byte_val. pose proof (Byte.to_N_bounded b) as H.
  change (2 ^ 8) with 256. lia.
Qed.

Lemma land_byte_at y k : 0 <= k ->
  Z.land y (Z.shiftl 0xff k) = (y / 2 ^ k) mod 2 ^ 8 * 2 ^ k.
Proof.
  intros Hk.
  rewrite <- Z.shiftl_mul_pow2, <- Z.land_ones, <- Z.shiftr_div_pow2 by lia.
  change 0xff with (Z.ones 8).
  apply Z.bits_inj'. intros i Hi.
  rewrite Z.land_spec, !Z.shiftl_spec by lia.
  destruct (Z_lt_le_dec i k) as [Hlt | Hge].
  - rewrite !(Z.testbit_neg_r _ (i - k)) by lia. apply andb_false_r.
  - rewrite Z.land_spec, Z.shiftr_spec by lia.
    replace (i - k + k) with i by lia. reflexivity.
Qed.

Lemma lor_disjoint a b k :
  0 <= k -> 0 <= a < 2 ^ k -> Z.lor a (b * 2 ^ k) = a + b * 2 ^ k.
Proof.
  intros Hk Ha.
  assert (D : Z.land a (b * 2 ^ k) = 0); [|now rewrite <- Z.lxor_lor, Z.add_nocarry_lxor].
  apply Z.bits_inj'. intros i Hi.
  rewrite Z.land_spec, Z.bits_0.
  destruct (Z_lt_le_dec i k) as [Hlt | Hge].
  - rewrite Z.mul_pow2_bits_low by lia. apply andb_false_r.
  - rewrite <- (Z.mod_small a (2 ^ k)) by lia.
    rewrite Z.mod_pow2_bits_high by lia. reflexivity.
Qed.

Lemma bswap32_bytes c0 c1 c2 c3 :
  0 <= c0 < 2 ^ 8 -> 0 <= c1 < 2 ^ 8 -> 0 <= c2 < 2 ^ 8 -> 0 <= c3 < 2 ^ 8 ->
  bswap32 (c0 + 2 ^ 8 * (c1 + 2 ^ 8 * (c2 + 2 ^ 8 * c3)))
  = c3 + 2 ^ 8 * (c2 + 2 ^ 8 * (c1 + 2 ^ 8 * c0)).
Proof.
  intros H0 H1 H2 H3. unfold bswap32.
  set (y := c0 + 2 ^ 8 * (c1 + 2 ^ 8 * (c2 + 2 ^ 8 * c3))).
  assert (Hy : u32 y = y) by (unfold u32; apply Z.mod_small; subst y; lia).
  rewrite Hy.
  change 0xff000000 with (Z.shiftl 0xff 24).
  change 0x00ff0000 with (Z.shiftl 0xff 16).
  change 0x0000ff00 with (Z.shiftl 0xff 8).
  change 0x000000ff with (Z.shiftl 0xff 0).
  rewrite !land_byte_at by lia.
  assert (E3 : (y / 2 ^ 24) mod 2 ^ 8 = c3).
  { rewrite (div_eq y (2 ^ 24) c3 (c0 + 2 ^ 8 * (c1 + 2 ^ 8 * c2)))
      by (subst y; lia). apply Z.mod_small; lia. }
  assert (E2 : (y / 2 ^ 16) mod 2 ^ 8 = c2).
  { rewrite (div_eq y (2 ^ 16) (c2 + 2 ^ 8 * c3) (c0 + 2 ^ 8 * c1))
      by (subst y; lia). apply mod_eq with c3; lia. }
  assert (E1 : (y / 2 ^ 8) mod 2 ^ 8 = c1).
  { rewrite (div_eq y (2 ^ 8) (c1 + 2 ^ 8 * (c2 + 2 ^ 8 * c3)) c0)
      by (subst y; lia). apply mod_eq with (c2 + 2 ^ 8 * c3); lia. }
  assert (E0 : (y / 2 ^ 0) mod 2 ^ 8 = c0).
  { change (2 ^ 0) with 1. rewrite Z.div_1_r.
    apply mod_eq with (c1 + 2 ^ 8 * (c2 + 2 ^ 8 * c3)); subst y; lia. }
  rewrite E3, E2, E1, E0.
  rewrite !Z.shiftr_div_pow2, !Z.shiftl_mul_pow2 by lia.
  rewrite (div_eq (c3 * 2 ^ 24) (2 ^ 24) c3 0) by lia.
  rewrite (div_eq (c2 * 2 ^ 16) (2 ^ 8) (c2 * 2 ^ 8) 0) by lia.
  assert (Ec : u32 (c1 * 2 ^ 8 * 2 ^ 8) = c1 * 2 ^ 16)
    by (unfold u32; rewrite Z.mod_small; lia).
  assert (Ed : u32 (c0 * 2 ^ 0 * 2 ^ 24) = c0 * 2 ^ 24)
    by (unfold u32; rewrite Z.mod_small; lia).
  rewrite Ec, Ed.
  rewrite (lor_disjoint c3 c2 8) by lia.
  rewrite (lor_disjoint (c3 + c2 * 2 ^ 8) c1 16) by lia.
  rewrite (lor_disjoint (c3 + c2 * 2 ^ 8 + c1 * 2 ^ 16) c0 24) by lia.
  lia.
Qed.

(** [get64BE] reads the eight bytes at [p] as a big-endian number. *)
Lemma get64BE_big_endian p : get64BE p = load_be 8 p.
Proof.
  unfold get64BE, get64LE, bswap64, u32. cbn [load_le load_be].
  set (b0 := byte_val (hd x00 p)).
  set (b1 := byte_val (hd x00 (tl p))).
  set (b2 := byte_val (hd x00 (tl (tl p)))).
  set (b3 := byte_val (hd x00 (tl (tl (tl p))))).
  set (b4 := byte_val (hd x00 (tl (tl (tl (tl p)))))).
  set (b5 := byte_val (hd x00 (tl (tl (tl (tl (tl p))))))).
  set (b6 := byte_val (hd x00 (tl (tl (tl (tl (tl (tl p)))))))).
  set (b7 := byte_val (hd x00 (tl (tl (tl (tl (tl (tl (tl p))))))))).
  assert (R0 : 0 <= b0 < 2 ^ 8) by apply byte_val_range.
  assert (R1 : 0 <= b1 < 2 ^ 8) by apply byte_val_range.
  assert (R2 : 0 <= b2 < 2 ^ 8) by apply byte_val_range.
  assert (R3 : 0 <= b3 < 2 ^ 8) by apply byte_val_range.
  assert (R4 : 0 <= b4 < 2 ^ 8) by apply byte_val_range.
  assert (R5 : 0 <= b5 < 2 ^ 8) by apply byte_val_range.
  assert (R6 : 0 <= b6 < 2 ^ 8) by apply byte_val_range.
  assert (R7 : 0 <= b7 < 2 ^ 8) by apply byte_val_range.
  set (lo := b0 + 2 ^ 8 * (b1 + 2 ^ 8 * (b2 + 2 ^ 8 * b3))).
  set (hi := b4 + 2 ^ 8 * (b5 + 2 ^ 8 * (b6 + 2 ^ 8 * b7))).
  set (x := b0 + 2 ^ 8 * (b1 + 2 ^ 8 * (b2 + 2 ^ 8 * (b3 + 2 ^ 8 *
             (b4 + 2 ^ 8 * (b5 + 2 ^ 8 * (b6 + 2 ^ 8 * (b7 + 2 ^ 8 * 0)))))))).
  assert (Elo : x mod 2 ^ 32 = lo) by (apply mod_eq with hi; subst x lo hi; lia).
  assert (Ehi : Z.shiftr x 32 = hi).
  { rewrite Z.shiftr_div_pow2 by lia. apply div_eq with lo; subst x lo hi; lia. }
  rewrite Elo, Ehi. subst lo hi.
  rewrite !bswap32_bytes by assumption.
  change (Z.of_nat 7) with 7. change (Z.of_nat 6) with 6.
  change (Z.of_nat 5) with 5. change (Z.of_nat 4) with 4.
  change (Z.of_nat 3) with 3. change (Z.of_nat 2) with 2.
  change (Z.of_nat 1) with 1. change (Z.of_nat 0) with 0.
  lia.
Qed.

(** ** Layer 2: the polynomial step *)

(** C4, as the code has it: under the stated preconditions (a_hi < 2^63, both
    key words with 29-bit lanes, m_hi < 2^62) the pair returned by
    [poly_step] has a 128-bit value congruent to a*k + m modulo
    p127 = 2^127 - 1, its low word is a 64-bit word and its high word is at
    most 2^63 + 2^62: the sum does not wrap, but bit 63 of the high word can
    be set. *)
Theorem poly_step_spec ah al kh kl mh ml :
  0 <= ah < 2 ^ 63 -> word64 al -> lanes29 kh -> lanes29 kl ->
  0 <= mh < 2 ^ 62 -> word64 ml ->
  val128 (poly_step ah al kh kl mh ml) mod p127
    = (val128 (ah, al) * val128 (kh, kl) + val128 (mh, ml)) mod p127
  /\ 0 <= fst (poly_step ah al kh kl mh ml) <= 2 ^ 63 + 2 ^ 62
  /\ word64 (snd (poly_step ah al kh kl mh ml)).
Proof.
  intros Hah. apply poly_step_congr. unfold word64. lia.
Qed.

(** ** Frame: hashing never writes key material *)

Lemma vhash_update_key_material m mbytes ctx :
  key_material (vhash_update m mbytes ctx) = key_material ctx.
Proof.
  unfold vhash_update, key_material.
  destruct (polykey ctx) as [pkh pkl] eqn:Epk, (polytmp ctx) as [ch cl].
  destruct (negb (first_block_processed ctx)).
  - destruct (nh_vhash_nhbytes m (nhkey ctx) (UVMAC_NHBYTES / 8)) as [rh rl].
    destruct (poly_blocks _ _ _ _ _ _) as [c p]. reflexivity.
  - destruct (poly_blocks _ _ _ _ _ _) as [c p]. reflexivity.
Qed.

Lemma vhash_ctx m mbytes ctx : snd (vhash m mbytes ctx) = vhash_abort ctx.
Proof. unfold vhash. now destruct (vhash_poly m mbytes ctx). Qed.

Lemma vhash_fst m mbytes ctx :
  fst (vhash m mbytes ctx)
  = l3hash (fst (vhash_poly m mbytes ctx)) (snd (vhash_poly m mbytes ctx))
      (fst (l3key ctx)) (snd (l3key ctx)) (vhash_len mbytes).
Proof. unfold vhash. now destruct (vhash_poly m mbytes ctx). Qed.

Lemma uvmac_unfold m mbytes ctx key klen pos :
  uvmac m mbytes ctx key klen pos
  = if u64 (pos + 1) >? klen then AssertionFailed
    else Returned (u64 (get64BE (advance key (Z.to_nat pos))
                        + fst (vhash m mbytes ctx)),
                   vhash_abort ctx, u64 (pos + 1)).
Proof.
  unfold uvmac, get64bitsOfKey. destruct (u64 (pos + 1) >? klen); cbn; auto.
  rewrite <- (vhash_ctx m mbytes ctx). now destruct (vhash m mbytes ctx).
Qed.

(** C10: [vhash_abort], [vhash_update], [vhash] and [uvmac] leave [nhkey],
    [polykey] and [l3key] as they found them; of the five fields of the
    context only [polytmp] and [first_block_processed] can differ
    afterwards. *)
Theorem hashing_preserves_key_material m mbytes ctx key klen pos :
  key_material (vhash_abort ctx) = key_material ctx
  /\ key_material (vhash_update m mbytes ctx) = key_material ctx
  /\ key_material (snd (vhash m mbytes ctx)) = key_material ctx
  /\ match uvmac m mbytes ctx key klen pos with
     | Returned (_, ctx', _) => key_material ctx' = key_material ctx
     | _ => True
     end.
Proof.
  split; [reflexivity|]. split; [apply vhash_update_key_material|].
  split; [now rewrite (vhash_ctx m mbytes ctx)|].
  rewrite uvmac_unfold. now destruct (u64 (pos + 1) >? klen).
Qed.

(** ** Finalisation *)

(** C5: for a message of F*B + r bytes with r < B, [vhash] and [xvhash] hand
    [l3hash] the length 8*r, the remainder in bits, whatever F is; so two
    lengths that differ by a multiple of B get the same length argument. *)
Theorem finalization_length_is_remainder_bits m F r j ctx :
  (r < UVMAC_NHBYTES)%nat ->
  let mbytes := (F * UVMAC_NHBYTES + r)%nat in
  fst (vhash m mbytes ctx)
    = l3hash (fst (vhash_poly m mbytes ctx)) (snd (vhash_poly m mbytes ctx))
        (fst (l3key ctx)) (snd (l3key ctx)) (8 * Z.of_nat r)
  /\ fst (xvhash m mbytes ctx)
    = l3hash (fst (xvhash_poly m mbytes ctx)) (snd (xvhash_poly m mbytes ctx))
        (fst (l3key ctx)) (snd (l3key ctx)) (8 * Z.of_nat r)
  /\ vhash_len (mbytes + j * UVMAC_NHBYTES) = vhash_len mbytes.
Proof.
  intros Hr mbytes.
  assert (El : forall F', vhash_len (F' * UVMAC_NHBYTES + r) = 8 * Z.of_nat r).
  { intros F'. unfold vhash_len.
    rewrite Nat.add_comm, Nat.Div0.mod_add, Nat.mod_small by lia. lia. }
  split; [|split].
  - rewrite vhash_fst. subst mbytes. now rewrite El.
  - unfold xvhash. destruct (xvhash_poly m mbytes ctx). cbn [fst snd].
    subst mbytes. now rewrite El.
  - subst mbytes.
    replace (F * UVMAC_NHBYTES + r + j * UVMAC_NHBYTES)%nat
      with ((F + j) * UVMAC_NHBYTES + r)%nat by lia.
    now rewrite !El.
Qed.

(** C6: on a context whose first-block flag is clear, [vhash] of the empty
    message is [l3hash] of the poly key itself with length 0, and the context
    is reset. *)
Theorem vhash_empty_message m ctx :
  first_block_processed ctx = false ->
  vhash m 0 ctx
  = (l3hash (fst (polykey ctx)) (snd (polykey ctx))
       (fst (l3key ctx)) (snd (l3key ctx)) 0,
     vhash_abort ctx).
Proof.
  intros Hf. unfold vhash, vhash_poly, vhash_len.
  rewrite Hf, Nat.Div0.div_0_l, Nat.Div0.mod_0_l.
  destruct (polykey ctx) as [pkh pkl]. reflexivity.
Qed.

(** ** The consumable key *)

Lemma consume_word_unfold stream len cur :
  consume_word stream len cur
  = if u64 (cur + 1) >? len then AssertionFailed
    else Returned (be_word_at stream (Z.to_nat cur), u64 (cur + 1)).
Proof.
  unfold consume_word, get64bitsOfKey, be_word_at, advance.
  destruct (u64 (cur + 1) >? len); cbn [bind]; auto.
  now rewrite get64BE_big_endian.
Qed.

Lemma consume_word_cases stream len cur :
  0 <= cur < 2 ^ 64 - 1 ->
  (len <= cur /\ consume_word stream len cur = AssertionFailed)
  \/ (cur < len /\ consume_word stream len cur
                   = Returned (be_word_at stream (Z.to_nat cur), cur + 1)).
Proof.
  intros Hc. rewrite consume_word_unfold.
  rewrite u64_small by (unfold word64; lia).
  destruct (Z.gtb_spec (cur + 1) len); [left | right]; split; auto; lia.
Qed.

(** C9, as the code has it: for a cursor below 2^64 - 1 the call fails exactly
    when cursor >= length, and the failure is [assert(0)], which stops the
    process ([uvmac] fails with it before hashing); when cursor < length the
    call returns word [cursor] of the stream read big-endian and a cursor
    advanced by exactly one, and [uvmac] adds that word to the hash modulo
    2^64. *)
Theorem consume_word_spec stream len cur m mbytes ctx :
  0 <= cur < 2 ^ 64 - 1 ->
  (len <= cur <-> stops_process (consume_word stream len cur))
  /\ (len <= cur -> stops_process (uvmac m mbytes ctx stream len cur))
  /\ (cur < len ->
      consume_word stream len cur
      = Returned (be_word_at stream (Z.to_nat cur), cur + 1)
      /\ uvmac m mbytes ctx stream len cur
         = Returned (u64 (be_word_at stream (Z.to_nat cur)
                          + fst (vhash m mbytes ctx)),
                     vhash_abort ctx, cur + 1)).
Proof.
  intros Hc. unfold stops_process.
  assert (Eu : uvmac m mbytes ctx stream len cur
               = '(w, cur') <- consume_word stream len cur ;;
                 Returned (u64 (w + fst (vhash m mbytes ctx)), vhash_abort ctx, cur')).
  { rewrite uvmac_unfold, consume_word_unfold.
    destruct (u64 (cur + 1) >? len); cbn [bind]; auto.
    unfold be_word_at, advance. now rewrite get64BE_big_endian. }
  rewrite Eu.
  destruct (consume_word_cases stream len cur Hc) as [[Hle E] | [Hlt E]];
    rewrite E; cbn [bind].
  - split; [|split].
    + split; auto.
    + auto.
    + intros; lia.
  - split; [|split].
    + split; [intros; lia | discriminate].
    + intros; lia.
    + auto.
Qed.

(** ** The key schedule *)

Lemma load_be_range n p : 0 <= load_be n p < 2 ^ (8 * Z.of_nat n).
Proof.
  revert p. induction n as [|n IH]; intros p.
  - cbn. lia.
  - cbn [load_be]. pose proof (byte_val_range (hd x00 p)) as Hb.
    specialize (IH (tl p)).
    replace (8 * Z.of_nat (S n)) with (8 + 8 * Z.of_nat n) by lia.
    rewrite Z.pow_add_r by lia.
    set (P := 2 ^ (8 * Z.of_nat n)) in *.
    assert (byte_val (hd x00 p) * P <= (2 ^ 8 - 1) * P)
      by (apply Z.mul_le_mono_nonneg_r; lia).
    assert (0 <= byte_val (hd x00 p) * P) by (apply Z.mul_nonneg_nonneg; lia).
    lia.
Qed.

Lemma be_word_at_range stream i : word64 (be_word_at stream i).
Proof. apply (load_be_range 8). Qed.

Lemma land_mpoly_masked w : word64 w -> masked (Z.land w mpoly).
Proof.
  intros Hw. unfold masked, word64 in *. split.
  - assert (0 <= Z.land w mpoly) by (apply Z.land_nonneg; lia).
    assert (0 <= Z.land w (Z.lnot mpoly)) by (apply Z.land_nonneg; lia).
    pose proof (Z.sub_land_same_l w mpoly). lia.
  - rewrite <- Z.land_assoc.
    replace (Z.land mpoly (u64 (Z.lnot mpoly))) with 0 by (vm_compute; reflexivity).
    apply Z.land_0_r.
Qed.

Lemma masked_land_mpoly w : masked w -> Z.land w mpoly = w.
Proof.
  intros (Hw & Hm).
  assert (E : w = Z.land w (Z.ones 64)).
  { rewrite Z.land_ones by lia. symmetry. apply Z.mod_small. exact Hw. }
  rewrite E at 2.
  replace (Z.ones 64) with (Z.lor mpoly (u64 (Z.lnot mpoly)))
    by (vm_compute; reflexivity).
  rewrite Z.land_lor_distr_r, Hm. now rewrite Z.lor_0_r.
Qed.

Lemma masked_lanes29 w : masked w -> lanes29 w.
Proof.
  intros Hm. pose proof (masked_land_mpoly w Hm) as E.
  destruct Hm as (Hw & _). unfold lanes29. split; [exact Hw|]. split.
  - rewrite <- E. rewrite <- (Z.land_ones _ 32) by lia.
    rewrite <- Z.land_assoc.
    replace (Z.land mpoly (Z.ones 32)) with (Z.ones 29) by (vm_compute; reflexivity).
    rewrite Z.land_ones by lia. apply Z.mod_pos_bound. lia.
  - rewrite <- E. rewrite <- Z.shiftr_div_pow2 by lia.
    rewrite Z.shiftr_land.
    replace (Z.shiftr mpoly 32) with (Z.ones 29) by (vm_compute; reflexivity).
    rewrite Z.land_ones by lia. apply Z.mod_pos_bound. lia.
Qed.

Lemma consume_word_inv stream len cur w cur' :
  consume_word stream len cur = Returned (w, cur') ->
  word64 w /\ cur' = u64 (cur + 1) /\ cur' <= len.
Proof.
  rewrite consume_word_unfold.
  destruct (Z.gtb_spec (u64 (cur + 1)) len); [discriminate|].
  intros E. injection E as <- <-.
  split; [apply be_word_at_range|]. split; [reflexivity | lia].
Qed.

Lemma consume_word_fuel stream len cur : consume_word stream len cur <> OutOfFuel.
Proof.
  rewrite consume_word_unfold. destruct (u64 (cur + 1) >? len); discriminate.
Qed.

Lemma fill_polykey_inv user_key len pos w pos' :
  fill_polykey user_key len pos = Returned (w, pos') ->
  masked w /\ pos' = u64 (pos + 1) /\ pos' <= len.
Proof.
  unfold fill_polykey.
  destruct (consume_word user_key len pos) as [[w0 p0]| |] eqn:E;
    cbn [bind]; try discriminate.
  intros H. injection H as <- <-.
  destruct (consume_word_inv _ _ _ _ _ E) as (Hw & Hp & Hl).
  split; [apply land_mpoly_masked; exact Hw | auto].
Qed.

Lemma fill_polykey_fuel user_key len pos :
  fill_polykey user_key len pos <> OutOfFuel.
Proof.
  unfold fill_polykey.
  destruct (consume_word user_key len pos) as [[w0 p0]| |] eqn:E;
    cbn [bind]; try discriminate.
  exfalso. exact (consume_word_fuel _ _ _ E).
Qed.

Lemma fill_l3key_inv fuel user_key len pos w pos' :
  fill_l3key fuel user_key len pos = Returned (w, pos') ->
  0 <= w < p64.
Proof.
  revert pos. induction fuel as [|fuel IH]; intros pos; cbn [fill_l3key];
    [discriminate|].
  destruct (consume_word user_key len pos) as [[w0 p0]| |] eqn:E;
    cbn [bind]; try discriminate.
  destruct (Z.geb_spec w0 p64) as [Hge | Hlt].
  - apply IH.
  - intros H. injection H as <- <-.
    destruct (consume_word_inv _ _ _ _ _ E) as (Hw & _). unfold word64 in Hw. lia.
Qed.

Lemma uvmac_set_key_fuel_inv fuel user_key len ctx0 ctx :
  uvmac_set_key_fuel fuel user_key len ctx0 = Returned ctx ->
  key_domain ctx /\ fresh ctx.
Proof.
  unfold uvmac_set_key_fuel.
  destruct (fill_nhkey _ _ _ _) as [[nh p0]| |]; cbn [bind]; try discriminate.
  destruct (fill_polykey user_key len p0) as [[pk0 p1]| |] eqn:E0;
    cbn [bind]; try discriminate.
  destruct (fill_polykey user_key len p1) as [[pk1 p2]| |] eqn:E1;
    cbn [bind]; try discriminate.
  destruct (fill_l3key fuel user_key len p2) as [[l0 p3]| |] eqn:E2;
    cbn [bind]; try discriminate.
  destruct (fill_l3key fuel user_key len p3) as [[l1 p4]| |] eqn:E3;
    cbn [bind]; try discriminate.
  intros H. injection H as <-.
  unfold key_domain, fresh;
    cbn [polykey l3key polytmp first_block_processed fst snd].
  pose proof (fill_polykey_inv _ _ _ _ _ E0) as (? & _).
  pose proof (fill_polykey_inv _ _ _ _ _ E1) as (? & _).
  pose proof (fill_l3key_inv _ _ _ _ _ _ E2).
  pose proof (fill_l3key_inv _ _ _ _ _ _ E3).
  tauto.
Qed.

(** The fuel given by [uvmac_set_key] is never used up: every turn of a
    rejection loop advances the position, and the position cannot pass
    [key_length]. *)
Lemma fill_l3key_pos fuel user_key len pos :
  0 <= pos <= len -> len < 2 ^ 64 - 1 ->
  (Z.to_nat (len - pos) < fuel)%nat ->
  fill_l3key fuel user_key len pos <> OutOfFuel
  /\ forall w pos', fill_l3key fuel user_key len pos = Returned (w, pos') ->
                    0 <= pos' <= len.
Proof.
  intros Hp Hl. revert pos Hp.
  induction fuel as [|fuel IH]; intros pos Hp Hf; [lia|].
  cbn [fill_l3key].
  destruct (consume_word user_key len pos) as [[w0 p0]| |] eqn:E; cbn [bind].
  - destruct (consume_word_inv _ _ _ _ _ E) as (_ & Ep & Hle).
    rewrite u64_small in Ep by (unfold word64; lia).
    destruct (w0 >=? p64).
    + apply IH; lia.
    + split; [discriminate|]. intros w pos' H. injection H as <- <-. lia.
  - split; [discriminate|]. intros; discriminate.
  - exfalso. now apply (consume_word_fuel user_key len pos).
Qed.

Lemma fill_nhkey_pos n user_key len pos :
  0 <= pos <= len -> len < 2 ^ 64 - 1 ->
  fill_nhkey n user_key len pos <> OutOfFuel
  /\ forall ws pos', fill_nhkey n user_key len pos = Returned (ws, pos') ->
                     0 <= pos' <= len.
Proof.
  intros Hp Hl. revert pos Hp.
  induction n as [|n IH]; intros pos Hp; cbn [fill_nhkey].
  - split; [discriminate|]. intros ws pos' H. injection H as <- <-. lia.
  - destruct (consume_word user_key len pos) as [[w0 p0]| |] eqn:E; cbn [bind].
    + destruct (consume_word_inv _ _ _ _ _ E) as (_ & Ep & Hle).
      rewrite u64_small in Ep by (unfold word64; lia).
      destruct (IH p0 ltac:(lia)) as (Hn & Hr).
      destruct (fill_nhkey n user_key len p0) as [[ws p1]| |]; cbn [bind].
      * split; [discriminate|]. intros ws' pos' H. injection H as <- <-.
        now apply (Hr ws).
      * split; [discriminate|]. intros; discriminate.
      * now contradiction Hn.
    + split; [discriminate|]. intros; discriminate.
    + exfalso. now apply (consume_word_fuel user_key len pos).
Qed.

Lemma uvmac_set_key_total user_key len ctx0 :
  0 <= len < 2 ^ 32 -> uvmac_set_key user_key len ctx0 <> OutOfFuel.
Proof.
  intros Hl. unfold uvmac_set_key, uvmac_set_key_fuel.
  assert (Hl' : len < 2 ^ 64 - 1) by lia.
  destruct (fill_nhkey_pos (UVMAC_NHBYTES / 8) user_key len 0 ltac:(lia) Hl')
    as (Hn & Hr).
  destruct (fill_nhkey _ _ _ _) as [[nh p0]| |]; cbn [bind];
    [|discriminate|now contradiction Hn].
  specialize (Hr _ _ eq_refl).
  destruct (fill_polykey user_key len p0) as [[pk0 p1]| |] eqn:E0; cbn [bind];
    [|discriminate|].
  2:{ exfalso. exact (fill_polykey_fuel _ _ _ E0). }
  destruct (fill_polykey_inv _ _ _ _ _ E0) as (_ & Ep1 & Hle1).
  rewrite u64_small in Ep1 by (unfold word64; lia).
  destruct (fill_polykey user_key len p1) as [[pk1 p2]| |] eqn:E1; cbn [bind];
    [|discriminate|].
  2:{ exfalso. exact (fill_polykey_fuel _ _ _ E1). }
  destruct (fill_polykey_inv _ _ _ _ _ E1) as (_ & Ep2 & Hle2).
  rewrite u64_small in Ep2 by (unfold word64; lia).
  destruct (fill_l3key_pos (S (Z.to_nat len)) user_key len p2 ltac:(lia) Hl'
              ltac:(lia)) as (Hn2 & Hr2).
  destruct (fill_l3key _ user_key len p2) as [[l0 p3]| |]; cbn [bind];
    [|discriminate|now contradiction Hn2].
  specialize (Hr2 _ _ eq_refl).
  destruct (fill_l3key_pos (S (Z.to_nat len)) user_key len p3 ltac:(lia) Hl'
              ltac:(lia)) as (Hn3 & Hr3).
  destruct (fill_l3key _ user_key len p3) as [[l1 p4]| |]; cbn [bind];
    [discriminate|discriminate|now contradiction Hn3].
Qed.

Lemma key_domain_key_material c c' :
  key_material c' = key_material c -> key_domain c -> key_domain c'.
Proof.
  unfold key_material, key_domain. intros E. injection E as _ -> ->. auto.
Qed.

(** C7, as the code has it: a successful [uvmac_set_key] leaves every l3 key
    word below p64, every poly key word with no bit outside the mask, and
    [polytmp] equal to [polykey] with the first-block flag clear.  The key
    domain holds after every later operation; [polytmp = polykey] holds
    again after [vhash_abort], [vhash] and [uvmac]. *)
Theorem set_key_invariant user_key len ctx0 ctx :
  uvmac_set_key user_key len ctx0 = Returned ctx ->
  (key_domain ctx /\ polytmp ctx = polykey ctx
   /\ first_block_processed ctx = false)
  /\ forall c m mbytes key klen pos,
       key_domain c ->
       key_domain (vhash_update m mbytes c)
       /\ (key_domain (vhash_abort c) /\ fresh (vhash_abort c))
       /\ (key_domain (snd (vhash m mbytes c)) /\ fresh (snd (vhash m mbytes c)))
       /\ match uvmac m mbytes c key klen pos with
          | Returned (_, c', _) => key_domain c' /\ fresh c'
          | _ => True
          end.
Proof.
  intros H. apply (uvmac_set_key_fuel_inv _ _ _ ctx0) in H.
  destruct H as (Hk & Hf & Hb).
  split; [tauto|].
  intros c m mbytes key klen pos Hc.
  assert (Ha : key_domain (vhash_abort c) /\ fresh (vhash_abort c)).
  { split; [exact Hc | split; reflexivity]. }
  split; [|split; [|split]].
  - apply (key_domain_key_material c); [apply vhash_update_key_material | exact Hc].
  - exact Ha.
  - rewrite vhash_ctx. exact Ha.
  - rewrite uvmac_unfold. destruct (u64 (pos + 1) >? klen); [exact I | exact Ha].
Qed.

(** ** Layer 1: NH *)

Lemma val128_inj a b : word64 (fst a) -> word64 (snd a) ->
  word64 (fst b) -> word64 (snd b) -> val128 a = val128 b -> a = b.
Proof.
  destruct a as [ah al], b as [bh bl]. unfold val128, word64; cbn [fst snd].
  intros. assert (ah = bh) by lia. f_equal; lia.
Qed.

Lemma val128_split128 r s :
  word64 (fst r) -> word64 (snd r) -> val128 r = s -> r = split128 s.
Proof.
  destruct r as [h l]. unfold val128, split128, word64; cbn [fst snd].
  intros Hh Hl <-. f_equal.
  - symmetry. apply div_eq with l; lia.
  - symmetry. apply mod_eq with h; lia.
Qed.

Lemma nh_term_spec mp kp i rh rl :
  word64 rh -> word64 rl ->
  val128 (nh_term mp kp i rh rl)
    = (val128 (rh, rl) + NH_pair (le_word_at mp) (key_at kp) i) mod 2 ^ 128
  /\ word64 (fst (nh_term mp kp i rh rl)) /\ word64 (snd (nh_term mp kp i rh rl)).
Proof.
  intros Hh Hl. unfold nh_term, get64PE, get64LE, advance.
  fold (le_word_at mp i). fold (le_word_at mp (i + 1)).
  destruct (MUL64_spec (u64 (le_word_at mp i + key_at kp i))
              (u64 (le_word_at mp (i + 1) + key_at kp (i + 1)))
              (u64_range _) (u64_range _)) as (E & Wh & Wl).
  destruct (MUL64 _ _) as [th tl]. cbn [fst snd] in *.
  destruct (ADD128_spec rh rl th tl Hh Hl Wh Wl) as (E' & W1 & W2).
  split; [|split]; auto.
  rewrite E', E. reflexivity.
Qed.

Lemma nh_16_iter_spec n a mp kp rh rl :
  word64 rh -> word64 rl ->
  val128 (rh, rl) = NH_sum a (le_word_at mp) (key_at kp) mod 2 ^ 128 ->
  val128 (nh_16_iter n (2 * a) mp kp rh rl)
    = NH_sum (a + n) (le_word_at mp) (key_at kp) mod 2 ^ 128
  /\ word64 (fst (nh_16_iter n (2 * a) mp kp rh rl))
  /\ word64 (snd (nh_16_iter n (2 * a) mp kp rh rl)).
Proof.
  revert a rh rl. induction n as [|n IH]; intros a rh rl Hh Hl E.
  - cbn [nh_16_iter fst snd]. rewrite Nat.add_0_r. auto.
  - cbn [nh_16_iter].
    destruct (nh_term_spec mp kp (2 * a) rh rl Hh Hl) as (Et & W1 & W2).
    destruct (nh_term mp kp (2 * a) rh rl) as [rh' rl']. cbn [fst snd] in *.
    replace (2 * a + 2)%nat with (2 * S a)%nat by lia.
    replace (a + S n)%nat with (S a + n)%nat by lia.
    apply IH; auto.
    rewrite Et, E. cbn [NH_sum]. now rewrite Zplus_mod_idemp_l.
Qed.

(** [nh_16] on an even word count is the NH value. *)
Lemma nh_16_NH mp kp h : nh_16 mp kp (2 * h) = NH h mp kp.
Proof.
  unfold nh_16, NH.
  replace ((2 * h + 1) / 2)%nat with h
    by (apply Nat.div_unique with 1%nat; lia).
  assert (W0 : word64 0) by (unfold word64; lia).
  destruct (nh_16_iter_spec h 0 mp kp 0 0 W0 W0 eq_refl) as (E & W1 & W2).
  apply val128_split128; auto.
Qed.

Lemma nh_64_iter_16 n i mp kp rh rl :
  nh_64_iter n i mp kp rh rl = nh_16_iter (4 * n) i mp kp rh rl.
Proof.
  revert i rh rl. induction n as [|n IH]; intros i rh rl; [reflexivity|].
  replace (4 * S n)%nat with (S (S (S (S (4 * n))))) by lia.
  cbn [nh_64_iter nh_16_iter].
  destruct (nh_term mp kp i rh rl) as [r1h r1l].
  replace (i + 2 + 2)%nat with (i + 4)%nat by lia.
  destruct (nh_term mp kp (i + 2) r1h r1l) as [r2h r2l].
  replace (i + 4 + 2)%nat with (i + 6)%nat by lia.
  destruct (nh_term mp kp (i + 4) r2h r2l) as [r3h r3l].
  destruct (nh_term mp kp (i + 6) r3h r3l) as [r4h r4l].
  replace (i + 6 + 2)%nat with (i + 8)%nat by lia.
  apply IH.
Qed.

Lemma NHBYTES_16 : exists q, (0 < q)%nat /\ UVMAC_NHBYTES = (16 * q)%nat.
Proof.
  destruct NHBYTES_pow2 as (e & He & ->).
  exists (2 ^ (e - 4))%nat. split.
  - apply Nat.neq_0_lt_0, Nat.pow_nonzero. lia.
  - replace e with (4 + (e - 4))%nat at 1 by lia. now rewrite Nat.pow_add_r.
Qed.

Lemma NHBYTES_64 : (64 <= UVMAC_NHBYTES)%nat ->
  exists q, UVMAC_NHBYTES = (64 * q)%nat.
Proof.
  destruct NHBYTES_pow2 as (e & He & ->). intros H64.
  assert (6 <= e)%nat.
  { destruct (Nat.le_gt_cases 6 e) as [?|Hlt]; auto. exfalso.
    assert (Hp : (2 ^ e <= 2 ^ 5)%nat) by (apply Nat.pow_le_mono_r; lia).
    change (2 ^ 5)%nat with 32%nat in Hp. lia. }
  exists (2 ^ (e - 6))%nat.
  replace e with (6 + (e - 6))%nat at 1 by lia. now rewrite Nat.pow_add_r.
Qed.

Lemma NHBYTES_pos : (0 < UVMAC_NHBYTES)%nat.
Proof. destruct NHBYTES_16 as (q & Hq & ->). lia. Qed.

Lemma NHBYTES_words : (8 * (UVMAC_NHBYTES / 8) = UVMAC_NHBYTES)%nat.
Proof.
  destruct NHBYTES_16 as (q & Hq & ->).
  replace (16 * q / 8)%nat with (2 * q)%nat
    by (apply Nat.div_unique with 0%nat; lia).
  lia.
Qed.

(** On a block of [UVMAC_NHBYTES] bytes both loops compute the same. *)
Lemma nh_vhash_nhbytes_nh_16 mp kp :
  nh_vhash_nhbytes mp kp (UVMAC_NHBYTES / 8) = nh_16 mp kp (UVMAC_NHBYTES / 8).
Proof.
  unfold nh_vhash_nhbytes.
  destruct (Nat.leb_spec 64 UVMAC_NHBYTES) as [H64 | H64]; [|reflexivity].
  destruct (NHBYTES_64 H64) as (q & ->).
  replace (64 * q / 8)%nat with (8 * q)%nat
    by (apply Nat.div_unique with 0%nat; lia).
  unfold nh_16. rewrite nh_64_iter_16. f_equal.
  replace ((8 * q + 7) / 8)%nat with q
    by (apply Nat.div_unique with 7%nat; lia).
  apply Nat.div_unique with 1%nat; lia.
Qed.

(** C3: for a block read as little-endian 64-bit words m[i] and a key window
    k, [nh_16] over an even number 2h of words, and [nh_vhash_nhbytes] over
    the [UVMAC_NHBYTES / 8] words of a full block, return the 128-bit sum
    over even i of (m[i] + k[i] mod 2^64) * (m[i+1] + k[i+1] mod 2^64),
    reduced modulo 2^128, as its high and low words. *)
Theorem nh_is_the_pairwise_sum block kwin :
  (forall h, nh_16 block kwin (2 * h) = NH h block kwin)
  /\ nh_vhash_nhbytes block kwin (UVMAC_NHBYTES / 8)
     = NH (UVMAC_NHBYTES / 16) block kwin.
Proof.
  split; [intros h; apply nh_16_NH|].
  rewrite nh_vhash_nhbytes_nh_16.
  destruct NHBYTES_16 as (q & Hq & E). rewrite E.
  replace (16 * q / 8)%nat with (2 * q)%nat
    by (apply Nat.div_unique with 0%nat; lia).
  replace (16 * q / 16)%nat with q
    by (apply Nat.div_unique with 0%nat; lia).
  apply nh_16_NH.
Qed.

(** ** Which bytes are read *)

Lemma load_le_firstn n k p : (n <= k)%nat -> load_le n (firstn k p) = load_le n p.
Proof.
  revert k p. induction n as [|n IH]; intros k p Hk; [reflexivity|].
  destruct k as [|k]; [lia|]. destruct p as [|b p]; [reflexivity|].
  cbn [firstn load_le hd tl]. rewrite IH by lia. reflexivity.
Qed.

Lemma le_word_at_firstn N p i :
  (8 * (i + 1) <= N)%nat -> le_word_at (firstn N p) i = le_word_at p i.
Proof.
  intros H. unfold le_word_at. rewrite skipn_firstn_comm.
  apply load_le_firstn. lia.
Qed.

Lemma le_word_at_agree N p p' i :
  firstn N p = firstn N p' -> (8 * (i + 1) <= N)%nat ->
  le_word_at p i = le_word_at p' i.
Proof.
  intros E H. rewrite <- (le_word_at_firstn N p i H), E.
  now apply le_word_at_firstn.
Qed.

Lemma nh_term_agree mp mp' kp i rh rl :
  le_word_at mp i = le_word_at mp' i ->
  le_word_at mp (i + 1) = le_word_at mp' (i + 1) ->
  nh_term mp kp i rh rl = nh_term mp' kp i rh rl.
Proof.
  unfold nh_term, get64PE, get64LE, advance, le_word_at. intros -> ->. reflexivity.
Qed.

Lemma nh_16_iter_agree n i mp mp' kp rh rl :
  (forall j, (j < i + 2 * n)%nat -> le_word_at mp j = le_word_at mp' j) ->
  nh_16_iter n i mp kp rh rl = nh_16_iter n i mp' kp rh rl.
Proof.
  revert i rh rl. induction n as [|n IH]; intros i rh rl H; [reflexivity|].
  cbn [nh_16_iter].
  rewrite (nh_term_agree mp mp') by (apply H; lia).
  destruct (nh_term mp' kp i rh rl) as [rh' rl'].
  apply IH. intros j Hj. apply H. lia.
Qed.

(** [nh_16] over [nw] words reads the first 16 * ceil(nw/2) bytes only. *)
Lemma nh_16_agree N mp mp' kp nw :
  firstn N mp = firstn N mp' -> (16 * ((nw + 1) / 2) <= N)%nat ->
  nh_16 mp kp nw = nh_16 mp' kp nw.
Proof.
  intros E H. unfold nh_16. apply nh_16_iter_agree.
  intros j Hj. apply (le_word_at_agree N); auto. lia.
Qed.

Lemma skipn_agree N k (p p' : list byte) :
  firstn N p = firstn N p' ->
  firstn (N - k) (skipn k p) = firstn (N - k) (skipn k p').
Proof. intros E. rewrite <- !skipn_firstn_comm, E. reflexivity. Qed.

Lemma tail_words r : ((2 * ((r + 15) / 16) + 1) / 2 = (r + 15) / 16)%nat.
Proof. symmetry. apply Nat.div_unique with 1%nat; lia. Qed.

Lemma block_words : ((UVMAC_NHBYTES / 8 + 1) / 2 * 16 = UVMAC_NHBYTES)%nat.
Proof.
  destruct NHBYTES_16 as (q & Hq & ->).
  replace (16 * q / 8)%nat with (2 * q)%nat
    by (apply Nat.div_unique with 0%nat; lia).
  replace ((2 * q + 1) / 2)%nat with q
    by (apply Nat.div_unique with 1%nat; lia).
  lia.
Qed.

Lemma advance_block mptr : advance mptr (UVMAC_NHBYTES / 8) = skipn UVMAC_NHBYTES mptr.
Proof. unfold advance. now rewrite NHBYTES_words. Qed.

Lemma block_step_agree N mp mp' kp pkh pkl c :
  firstn N mp = firstn N mp' -> (UVMAC_NHBYTES <= N)%nat ->
  block_step mp kp pkh pkl c = block_step mp' kp pkh pkl c.
Proof.
  intros E H. unfold block_step. destruct c as [ch cl].
  rewrite !nh_vhash_nhbytes_nh_16.
  rewrite (nh_16_agree N mp mp') by (auto; pose proof block_words; lia).
  reflexivity.
Qed.

Lemma poly_blocks_ptr i mptr kptr pkh pkl c :
  snd (poly_blocks i mptr kptr pkh pkl c) = skipn (i * UVMAC_NHBYTES) mptr.
Proof.
  revert mptr c. induction i as [|i IH]; intros mptr c; [reflexivity|].
  cbn [poly_blocks]. rewrite IH, advance_block, skipn_skipn.
  f_equal. lia.
Qed.

Lemma poly_blocks_agree i N mp mp' kp pkh pkl c :
  firstn N mp = firstn N mp' -> (i * UVMAC_NHBYTES <= N)%nat ->
  fst (poly_blocks i mp kp pkh pkl c) = fst (poly_blocks i mp' kp pkh pkl c).
Proof.
  revert N mp mp' c. induction i as [|i IH]; intros N mp mp' c E H;
    [reflexivity|].
  cbn [poly_blocks].
  rewrite (block_step_agree N mp mp') by (auto; lia).
  rewrite !advance_block.
  apply (IH (N - UVMAC_NHBYTES)%nat); [now apply skipn_agree | lia].
Qed.

Lemma vhash_rest_agree i r N mp mp' kp pkh pkl c :
  firstn N mp = firstn N mp' ->
  (i * UVMAC_NHBYTES + 16 * ((r + 15) / 16) <= N)%nat ->
  vhash_rest i r mp kp pkh pkl c = vhash_rest i r mp' kp pkh pkl c.
Proof.
  intros E H. unfold vhash_rest.
  pose proof (poly_blocks_agree i N mp mp' kp pkh pkl c E ltac:(lia)) as Ef.
  pose proof (poly_blocks_ptr i mp kp pkh pkl c) as Ep.
  pose proof (poly_blocks_ptr i mp' kp pkh pkl c) as Ep'.
  destruct (poly_blocks i mp kp pkh pkl c) as [c1 p1].
  destruct (poly_blocks i mp' kp pkh pkl c) as [c2 p2].
  cbn [fst snd] in *. subst c2 p1 p2.
  destruct (negb (r =? 0)%nat); [|reflexivity].
  destruct c1 as [ch cl].
  rewrite (nh_16_agree (N - i * UVMAC_NHBYTES)
             (skipn (i * UVMAC_NHBYTES) mp) (skipn (i * UVMAC_NHBYTES) mp'));
    [reflexivity | now apply skipn_agree | rewrite tail_words; lia].
Qed.

Lemma vhash_poly_agree m1 m2 mbytes ctx :
  firstn (padded_len mbytes) m1 = firstn (padded_len mbytes) m2 ->
  vhash_poly m1 mbytes ctx = vhash_poly m2 mbytes ctx.
Proof.
  unfold padded_len. intros E. unfold vhash_poly.
  set (i := (mbytes / UVMAC_NHBYTES)%nat) in *.
  set (r := (mbytes mod UVMAC_NHBYTES)%nat) in *.
  set (N := (i * UVMAC_NHBYTES + 16 * ((r + 15) / 16))%nat) in *.
  destruct (polykey ctx) as [pkh pkl].
  destruct (first_block_processed ctx).
  - apply (vhash_rest_agree i r N); auto.
  - destruct (Nat.eqb_spec i 0) as [Hi | Hi]; cbn [negb].
    + destruct (negb (r =? 0)%nat); [|reflexivity].
      rewrite (nh_16_agree N m1 m2); [reflexivity | exact E |].
      rewrite tail_words. subst N. lia.
    + rewrite !nh_vhash_nhbytes_nh_16.
      assert (HN : (UVMAC_NHBYTES + Nat.pred i * UVMAC_NHBYTES
                    + 16 * ((r + 15) / 16) = N)%nat).
      { subst N. destruct i; [lia|]. cbn [Nat.pred]. lia. }
      rewrite (nh_16_agree N m1 m2) by (auto; pose proof block_words; lia).
      destruct (nh_16 m2 (nhkey ctx) (UVMAC_NHBYTES / 8)) as [ch cl].
      rewrite !advance_block.
      apply (vhash_rest_agree _ _ (N - UVMAC_NHBYTES)%nat);
        [now apply skipn_agree | lia].
Qed.

(** C8, as the code has it: the hash and the tag are functions of the first
    [padded_len mbytes] bytes of the buffer, the padding region
    [tail_len, ceil(tail_len/16)*16) included: two buffers that agree on
    these bytes give the same result, whatever follows them. *)
Theorem vhash_reads_padded_prefix m1 m2 mbytes ctx key klen pos :
  firstn (padded_len mbytes) m1 = firstn (padded_len mbytes) m2 ->
  vhash m1 mbytes ctx = vhash m2 mbytes ctx
  /\ uvmac m1 mbytes ctx key klen pos = uvmac m2 mbytes ctx key klen pos.
Proof.
  intros E.
  assert (Ev : vhash m1 mbytes ctx = vhash m2 mbytes ctx).
  { unfold vhash. now rewrite (vhash_poly_agree m1 m2 mbytes ctx E). }
  split; [exact Ev|]. rewrite !uvmac_unfold, Ev. reflexivity.
Qed.

(** ** Streaming *)

Lemma ADD128_comm a b c d :
  word64 a -> word64 b -> word64 c -> word64 d ->
  ADD128 a b c d = ADD128 c d a b.
Proof.
  intros Ha Hb Hc Hd.
  destruct (ADD128_spec a b c d Ha Hb Hc Hd) as (E1 & W1 & W2).
  destruct (ADD128_spec c d a b Hc Hd Ha Hb) as (E2 & W3 & W4).
  apply val128_inj; auto. rewrite E1, E2. f_equal. lia.
Qed.

Lemma nh_16_words mp kp nw :
  word64 (fst (nh_16 mp kp nw)) /\ word64 (snd (nh_16 mp kp nw)).
Proof.
  unfold nh_16.
  assert (W0 : word64 0) by (unfold word64; lia).
  destruct (nh_16_iter_spec ((nw + 1) / 2) 0 mp kp 0 0 W0 W0 eq_refl)
    as (_ & W1 & W2).
  auto.
Qed.

Lemma mask62_range x : 0 <= Z.land x m62 < 2 ^ 62.
Proof.
  change m62 with (Z.ones 62). rewrite Z.land_ones by lia.
  apply Z.mod_pos_bound. lia.
Qed.

Lemma masked_word64 w : masked w -> word64 w.
Proof. now intros (H & _). Qed.

Lemma poly_blocks_add a b mp kp pkh pkl c :
  poly_blocks (a + b) mp kp pkh pkl c
  = poly_blocks b (snd (poly_blocks a mp kp pkh pkl c)) kp pkh pkl
      (fst (poly_blocks a mp kp pkh pkl c)).
Proof.
  revert mp c. induction a as [|a IH]; intros mp c; [reflexivity|].
  cbn [Nat.add poly_blocks]. apply IH.
Qed.

Lemma firstn_app_exact (P Q : list byte) : firstn (length P) (P ++ Q) = firstn (length P) P.
Proof.
  rewrite firstn_app, Nat.sub_diag. cbn [firstn]. now rewrite app_nil_r.
Qed.

Lemma skipn_app_exact (P Q : list byte) : skipn (length P) (P ++ Q) = Q.
Proof.
  rewrite skipn_app, Nat.sub_diag, skipn_all2 by lia. reflexivity.
Qed.

Lemma vhash_rest_app a b r P Q kp pkh pkl c :
  length P = (a * UVMAC_NHBYTES)%nat ->
  vhash_rest (a + b) r (P ++ Q) kp pkh pkl c
  = vhash_rest b r Q kp pkh pkl (fst (poly_blocks a P kp pkh pkl c)).
Proof.
  intros HP. unfold vhash_rest. rewrite poly_blocks_add.
  rewrite poly_blocks_ptr, <- HP, skipn_app_exact.
  rewrite (poly_blocks_agree a (length P) (P ++ Q) P)
    by (try apply firstn_app_exact; lia).
  reflexivity.
Qed.

Lemma div_blocks j q : ((j * UVMAC_NHBYTES + q) / UVMAC_NHBYTES
                        = j + q / UVMAC_NHBYTES)%nat.
Proof. apply Nat.div_add_l. pose proof NHBYTES_pos. lia. Qed.

Lemma mod_blocks j q : ((j * UVMAC_NHBYTES + q) mod UVMAC_NHBYTES
                        = q mod UVMAC_NHBYTES)%nat.
Proof. now rewrite Nat.add_comm, Nat.Div0.mod_add. Qed.

Lemma vhash_update_fields m mbytes ctx :
  nhkey (vhash_update m mbytes ctx) = nhkey ctx
  /\ polykey (vhash_update m mbytes ctx) = polykey ctx
  /\ l3key (vhash_update m mbytes ctx) = l3key ctx
  /\ first_block_processed (vhash_update m mbytes ctx) = true.
Proof.
  pose proof (vhash_update_key_material m mbytes ctx) as E.
  unfold key_material in E. injection E as E1 E2 E3.
  repeat split; auto.
  unfold vhash_update.
  destruct (polykey ctx), (polytmp ctx), (negb (first_block_processed ctx)).
  - destruct (nh_vhash_nhbytes _ _ _), (poly_blocks _ _ _ _ _ _). reflexivity.
  - destruct (poly_blocks _ _ _ _ _ _). reflexivity.
Qed.

(** What [vhash_update] leaves in [polytmp] after [j] full blocks. *)
Lemma vhash_update_polytmp P j ctx :
  polytmp (vhash_update P (j * UVMAC_NHBYTES) ctx)
  = if first_block_processed ctx
    then fst (poly_blocks j P (nhkey ctx) (fst (polykey ctx)) (snd (polykey ctx))
                (polytmp ctx))
    else
      let '(rh, rl) := nh_vhash_nhbytes P (nhkey ctx) (UVMAC_NHBYTES / 8) in
      fst (poly_blocks (Nat.pred j) (advance P (UVMAC_NHBYTES / 8)) (nhkey ctx)
             (fst (polykey ctx)) (snd (polykey ctx))
             (ADD128 (fst (polytmp ctx)) (snd (polytmp ctx)) (Z.land rh m62) rl)).
Proof.
  unfold vhash_update.
  rewrite Nat.div_mul by (pose proof NHBYTES_pos; lia).
  destruct (polykey ctx) as [pkh pkl], (polytmp ctx) as [ch cl].
  cbn [fst snd].
  destruct (first_block_processed ctx); cbn [negb].
  - destruct (poly_blocks _ _ _ _ _ _). reflexivity.
  - destruct (nh_vhash_nhbytes _ _ _) as [rh rl].
    destruct (poly_blocks _ _ _ _ _ _). reflexivity.
Qed.

Lemma vhash_poly_split P Q qbytes j ctx :
  (0 < j)%nat -> length P = (j * UVMAC_NHBYTES)%nat ->
  key_domain ctx -> consistent ctx ->
  vhash_poly (P ++ Q) (j * UVMAC_NHBYTES + qbytes) ctx
  = vhash_poly Q qbytes (vhash_update P (j * UVMAC_NHBYTES) ctx).
Proof.
  intros Hj HP Hk Hc.
  destruct (vhash_update_fields P (j * UVMAC_NHBYTES) ctx) as (En & Ep & El & Ef).
  unfold vhash_poly at 2. rewrite En, Ep, Ef.
  rewrite vhash_update_polytmp.
  unfold vhash_poly. rewrite div_blocks, mod_blocks.
  destruct Hk as (Mh & Ml & _).
  apply masked_word64 in Mh, Ml.
  unfold consistent in Hc.
  destruct (polykey ctx) as [pkh pkl]. cbn [fst snd] in *.
  destruct (first_block_processed ctx).
  - now apply vhash_rest_app.
  - rewrite Hc by reflexivity. cbn [fst snd].
    destruct (Nat.eqb_spec (j + qbytes / UVMAC_NHBYTES) 0) as [H0 | H0]; [lia|].
    cbn [negb].
    assert (HB : (UVMAC_NHBYTES <= length P)%nat)
      by (rewrite HP; destruct j; [lia | cbn [Nat.mul]; lia]).
    rewrite !nh_vhash_nhbytes_nh_16.
    rewrite (nh_16_agree (length P) (P ++ Q) P)
      by (try apply firstn_app_exact; pose proof block_words; lia).
    pose proof (nh_16_words P (nhkey ctx) (UVMAC_NHBYTES / 8)) as (Wh & Wl).
    destruct (nh_16 P (nhkey ctx) (UVMAC_NHBYTES / 8)) as [rh rl].
    cbn [fst snd] in *.
    assert (Wm : word64 (Z.land rh m62))
      by (pose proof (mask62_range rh); unfold word64; lia).
    rewrite (ADD128_comm _ _ pkh pkl) by assumption.
    rewrite !advance_block.
    rewrite skipn_app.
    replace (UVMAC_NHBYTES - length P)%nat with 0%nat by lia.
    cbn [skipn].
    replace (Nat.pred (j + qbytes / UVMAC_NHBYTES))
      with (Nat.pred j + qbytes / UVMAC_NHBYTES)%nat by lia.
    apply vhash_rest_app.
    rewrite length_skipn, HP. destruct j; [lia|]. cbn [Nat.pred]. lia.
Qed.

(** Every context the library produces is [consistent]: the key schedule and
    the finalising calls leave it [fresh], and [vhash_update] sets the flag. *)
Lemma contexts_are_consistent :
  (forall user_key len ctx0 ctx,
      uvmac_set_key user_key len ctx0 = Returned ctx ->
      key_domain ctx /\ consistent ctx)
  /\ (forall m mbytes c, consistent (vhash_update m mbytes c))
  /\ (forall c, consistent (vhash_abort c))
  /\ (forall m mbytes c, consistent (snd (vhash m mbytes c))).
Proof.
  split; [|split; [|split]].
  - intros user_key len ctx0 ctx H.
    apply (uvmac_set_key_fuel_inv _ _ _ ctx0) in H.
    destruct H as (Hk & Hf & _). split; [exact Hk | intros _; exact Hf].
  - intros m mbytes c Hf.
    destruct (vhash_update_fields m mbytes c) as (_ & _ & _ & E).
    rewrite E in Hf. discriminate.
  - intros c _. reflexivity.
  - intros m mbytes c _. rewrite vhash_ctx. reflexivity.
Qed.

(** C2: for a message M = P . Q whose prefix P is a positive number of full
    blocks, [uvmac] (and [vhash]) on M gives what [vhash_update] on P followed
    by [uvmac] (or [vhash]) on Q gives with the same context and the same
    pad-key position: the same tag, the same context afterwards and the same
    new position. *)
Theorem streaming_equivalence P Q qbytes j ctx key klen pos :
  (0 < j)%nat -> length P = (j * UVMAC_NHBYTES)%nat ->
  key_domain ctx -> consistent ctx ->
  uvmac (P ++ Q) (length P + qbytes) ctx key klen pos
  = uvmac Q qbytes (vhash_update P (length P) ctx) key klen pos
  /\ vhash (P ++ Q) (length P + qbytes) ctx
     = vhash Q qbytes (vhash_update P (length P) ctx).
Proof.
  intros Hj HP Hk Hc.
  pose proof (vhash_poly_split P Q qbytes j ctx Hj HP Hk Hc) as E.
  rewrite HP.
  destruct (vhash_update_fields P (j * UVMAC_NHBYTES) ctx) as (En & Ep & El & Ef).
  assert (Ea : vhash_abort (vhash_update P (j * UVMAC_NHBYTES) ctx)
               = vhash_abort ctx).
  { unfold vhash_abort. now rewrite En, Ep, El. }
  assert (Ev : vhash (P ++ Q) (j * UVMAC_NHBYTES + qbytes) ctx
               = vhash Q qbytes (vhash_update P (j * UVMAC_NHBYTES) ctx)).
  { unfold vhash. rewrite E, Ea.
    unfold vhash_len. now rewrite mod_blocks. }
  split; [|exact Ev].
  rewrite !uvmac_unfold, Ev, Ea. reflexivity.
Qed.

(** ** Layer 2 over the blocks of a message *)

Lemma mod_congr_affine a b x y p :
  a mod p = b mod p -> (a * x + y) mod p = (b * x + y) mod p.
Proof.
  intros E.
  rewrite (Zplus_mod (a * x)), (Zplus_mod (b * x)).
  rewrite (Zmult_mod a), (Zmult_mod b), E. reflexivity.
Qed.

Lemma nh_block_words mp kp :
  word64 (fst (nh_vhash_nhbytes mp kp (UVMAC_NHBYTES / 8)))
  /\ word64 (snd (nh_vhash_nhbytes mp kp (UVMAC_NHBYTES / 8))).
Proof. rewrite nh_vhash_nhbytes_nh_16. apply nh_16_words. Qed.

Lemma block_hashes_length n mptr kptr : length (block_hashes n mptr kptr) = n.
Proof.
  revert mptr. induction n as [|n IH]; intros mptr; [reflexivity|].
  cbn [block_hashes]. destruct (nh_vhash_nhbytes _ _ _). cbn [length].
  now rewrite IH.
Qed.

Lemma block_step_congr mptr kptr pkh pkl c :
  lanes29 pkh -> lanes29 pkl -> word64 (fst c) -> word64 (snd c) ->
  val128 (block_step mptr kptr pkh pkl c) mod p127
    = (val128 c * val128 (pkh, pkl) + hd 0 (block_hashes 1 mptr kptr)) mod p127
  /\ word64 (fst (block_step mptr kptr pkh pkl c))
  /\ word64 (snd (block_step mptr kptr pkh pkl c)).
Proof.
  intros Lh Ll Wh Wl. unfold block_step. cbn [block_hashes].
  destruct c as [ch cl]. cbn [fst snd] in *.
  destruct (nh_block_words mptr kptr) as (Nh & Nl).
  destruct (nh_vhash_nhbytes mptr kptr (UVMAC_NHBYTES / 8)) as [rh rl].
  cbn [fst snd hd] in *.
  destruct (poly_step_congr ch cl pkh pkl (Z.land rh m62) rl Wh Wl Lh Ll
              (mask62_range rh) Nl) as (E & B & W).
  split; [exact E|]. split; [unfold word64; lia | exact W].
Qed.

Lemma poly_blocks_congr n mptr kptr pkh pkl c :
  lanes29 pkh -> lanes29 pkl -> word64 (fst c) -> word64 (snd c) ->
  val128 (fst (poly_blocks n mptr kptr pkh pkl c)) mod p127
    = (val128 c * val128 (pkh, pkl) ^ Z.of_nat n
       + poly_high_first (val128 (pkh, pkl)) (block_hashes n mptr kptr)) mod p127
  /\ word64 (fst (fst (poly_blocks n mptr kptr pkh pkl c)))
  /\ word64 (snd (fst (poly_blocks n mptr kptr pkh pkl c))).
Proof.
  intros Lh Ll. revert mptr c.
  induction n as [|n IH]; intros mptr c Wh Wl.
  - cbn [poly_blocks block_hashes poly_high_first fst Z.of_nat].
    rewrite Z.pow_0_r, Z.mul_1_r, Z.add_0_r. auto.
  - cbn [poly_blocks].
    destruct (block_step_congr mptr kptr pkh pkl c Lh Ll Wh Wl) as (E1 & W1 & W2).
    destruct (IH (advance mptr (UVMAC_NHBYTES / 8))
                (block_step mptr kptr pkh pkl c) W1 W2) as (E & W3 & W4).
    split; [|auto].
    rewrite E.
    rewrite (mod_congr_affine _ _ _ _ _ E1).
    f_equal. cbn [block_hashes].
    destruct (nh_vhash_nhbytes mptr kptr (UVMAC_NHBYTES / 8)) as [rh rl].
    cbn [hd poly_high_first]. rewrite block_hashes_length.
    rewrite Nat2Z.inj_succ, Z.pow_succ_r by lia. ring.
Qed.

(** C1, as the code has it: from a fresh context with keys in their domain,
    the first full block is added to the poly key as a 128-bit number, every
    further full block is a [poly_step] with the poly key, and [vhash] in one
    call reaches the same state.  After n+1 blocks with masked NH values
    h1, ..., h(n+1) the state is congruent modulo p127 to the monic
    polynomial k^(n+1) + h1*k^n + ... + h(n+1) in the poly key k: degree
    n+1, the first NH value the coefficient of k^n and the last one the
    constant term. *)
Theorem first_block_add_then_poly_steps m n ctx :
  key_domain ctx -> fresh ctx ->
  let k := val128 (polykey ctx) in
  let hs := block_hashes (S n) m (nhkey ctx) in
  let first := polytmp (vhash_update m (1 * UVMAC_NHBYTES) ctx) in
  let ctx' := vhash_update m (S n * UVMAC_NHBYTES) ctx in
  val128 first = (k + hd 0 hs) mod 2 ^ 128
  /\ polytmp ctx'
     = fst (poly_blocks n (advance m (UVMAC_NHBYTES / 8)) (nhkey ctx)
              (fst (polykey ctx)) (snd (polykey ctx)) first)
  /\ val128 (polytmp ctx') mod p127 = poly_high_first k (1 :: hs) mod p127
  /\ vhash_poly m (S n * UVMAC_NHBYTES) ctx = polytmp ctx'.
Proof.
  intros Hk (Hf & Hb) k hs first ctx'.
  destruct Hk as (Mh & Ml & _).
  pose proof (masked_lanes29 _ Mh) as Lh. pose proof (masked_lanes29 _ Ml) as Ll.
  pose proof (lanes29_bound _ Lh) as Bh. pose proof (lanes29_bound _ Ll) as Bl.
  apply masked_word64 in Mh, Ml.
  subst first ctx' hs k. rewrite !vhash_update_polytmp.
  unfold vhash_poly.
  rewrite Nat.div_mul, Nat.Div0.mod_mul by (pose proof NHBYTES_pos; lia).
  rewrite Hb, Hf. cbn [block_hashes Nat.pred poly_blocks negb Nat.eqb].
  destruct (nh_block_words m (nhkey ctx)) as (Nh & Nl).
  destruct (polykey ctx) as [pkh pkl]. cbn [fst snd] in *.
  destruct (nh_vhash_nhbytes m (nhkey ctx) (UVMAC_NHBYTES / 8)) as [rh rl].
  cbn [fst snd hd] in *.
  pose proof (mask62_range rh) as Br.
  assert (Wm : word64 (Z.land rh m62)) by (unfold word64; lia).
  destruct (ADD128_exact pkh pkl (Z.land rh m62) rl Mh Ml Wm Nl) as (Ea & Wa & Wb).
  { words. }
  split; [|split; [|split]].
  - rewrite Ea. symmetry. apply Z.mod_small. words.
  - reflexivity.
  - destruct (poly_blocks_congr n (advance m (UVMAC_NHBYTES / 8)) (nhkey ctx)
                pkh pkl (ADD128 pkh pkl (Z.land rh m62) rl) Lh Ll Wa Wb)
      as (E & _).
    rewrite E, Ea. f_equal.
    cbn [poly_high_first length]. rewrite block_hashes_length.
    rewrite Nat2Z.inj_succ, Z.pow_succ_r by lia. ring.
  - rewrite (ADD128_comm _ _ pkh pkl) by assumption.
    unfold vhash_rest.
    destruct (poly_blocks n _ _ _ _ _) as [c p]. reflexivity.
Qed.

(** ** Layer 3: what [l3hash] computes *)

Lemma l3hash_stages p1 p2 k1 k2 len :
  l3hash p1 p2 k1 k2 len
  = let '(a, b) := l3_reduce p1 p2 len in
    let '(q, r) := l3_divide a b in
    l3_mulmod (l3_addkey q k1) (l3_addkey r k2).
Proof.
  unfold l3hash, l3_reduce, l3_divide, l3_addkey, l3_mulmod.
  destruct (ADD128 (Z.land p1 m63) p2 len (Z.shiftr p1 63)) as [a b].
  destruct (ADD128 a b 0 _) as [c d].
  reflexivity.
Qed.

Lemma land_m63 x : Z.land x m63 = x mod 2 ^ 63.
Proof. change m63 with (Z.ones 63). apply Z.land_ones. lia. Qed.

Lemma l3_reduce_spec p1 p2 len :
  word64 p1 -> word64 p2 -> 0 <= len < 2 ^ 63 ->
  val128 (l3_reduce p1 p2 len) = (val128 (p1, p2) + len * 2 ^ 64) mod p127
  /\ 0 <= fst (l3_reduce p1 p2 len) < 2 ^ 63
  /\ word64 (snd (l3_reduce p1 p2 len)).
Proof.
  intros W1 W2 Hl. unfold l3_reduce.
  rewrite Z.shiftr_div_pow2, !land_m63 by lia.
  pose proof (Z.div_mod p1 (2 ^ 63) ltac:(lia)) as Ed.
  pose proof (Z.mod_pos_bound p1 (2 ^ 63) ltac:(lia)) as Br.
  assert (Bq : 0 <= p1 / 2 ^ 63 <= 1).
  { split; [apply Z.div_pos; words|].
    assert (p1 / 2 ^ 63 < 2) by (apply Z.div_lt_upper_bound; words). lia. }
  set (t := p1 / 2 ^ 63) in *. set (r := p1 mod 2 ^ 63) in *.
  assert (Wr : word64 r) by words. assert (Wl : word64 len) by words.
  assert (Wt : word64 t) by words.
  destruct (ADD128_exact r p2 len t Wr W2 Wl Wt) as (E1 & Wa & Wb); [words|].
  destruct (ADD128 r p2 len t) as [a b]. cbn [fst snd] in *.
  unfold val128 in E1; cbn [fst snd] in E1.
  set (t' := b2z (a >? m63) + b2z ((a =? m63) && (b =? m64))).
  assert (W0 : word64 0) by words.
  assert (Ht' : (t' = 1 /\ p127 <= a * 2 ^ 64 + b) \/ (t' = 0 /\ a * 2 ^ 64 + b < p127)).
  { subst t'. unfold m63, m64, p127.
    destruct (Z.gtb_spec a 0x7fffffffffffffff) as [Hgt | Hle]; cbn [b2z].
    - left. destruct (Z.eqb_spec a 0x7fffffffffffffff); [lia|]. cbn. words.
    - destruct (Z.eqb_spec a 0x7fffffffffffffff) as [Ha | Ha]; cbn [andb].
      + destruct (Z.eqb_spec b 0xffffffffffffffff); cbn [b2z]; [left | right]; words.
      + right. cbn. words. }
  clearbody t'.
  assert (Wt' : word64 t') by (destruct Ht' as [[-> _] | [-> _]]; words).
  destruct (ADD128_exact a b 0 t' Wa Wb W0 Wt') as (E2 & Wc & Wd).
  { destruct Ht' as [[-> _] | [-> _]]; words. }
  destruct (ADD128 a b 0 t') as [c d]. cbn [fst snd] in *.
  rewrite land_m63.
  unfold val128 in E2 |- *; cbn [fst snd] in E2 |- *.
  pose proof (Z.mod_pos_bound c (2 ^ 63) ltac:(lia)) as Bc.
  split; [|split; [lia | exact Wd]].
  unfold p127 in *.
  destruct Ht' as [[-> Hge] | [-> Hlt]].
  - assert (Ec : c mod 2 ^ 63 = c - 2 ^ 63) by (apply mod_eq with 1; words).
    rewrite Ec. symmetry. apply mod_eq with (t + 1); words.
  - assert (Ec : c mod 2 ^ 63 = c) by (apply Z.mod_small; words).
    rewrite Ec. symmetry. apply mod_eq with t; words.
Qed.

Lemma l3_divide_spec p1 p2 :
  0 <= p1 < 2 ^ 63 -> word64 p2 ->
  l3_divide p1 p2 = (val128 (p1, p2) / d64, val128 (p1, p2) mod d64).
Proof.
  intros H1 W2. unfold l3_divide, d64, val128; cbn [fst snd].
  rewrite (Z.shiftr_div_pow2 p2) by lia.
  destruct (split32 p2 W2) as (E2 & Bh & Bl).
  set (p2h := p2 / 2 ^ 32) in *. set (p2l := p2 mod 2 ^ 32) in *.
  rewrite (u64_small (p1 + p2h)) by words.
  set (t0 := p1 + p2h).
  assert (W0 : word64 t0) by (subst t0; words).
  rewrite (Z.shiftr_div_pow2 t0) by lia.
  destruct (split32 t0 W0) as (E0 & Bh0 & Bl0).
  set (h := t0 / 2 ^ 32) in *. set (l := t0 mod 2 ^ 32) in *.
  assert (Hh : h <= 2 ^ 31) by (subst t0; lia).
  rewrite (u64_small (t0 + h)) by words.
  assert (Eu : u32 (t0 + h) = (l + h) mod 2 ^ 32).
  { unfold u32. rewrite E0.
    replace (h * 2 ^ 32 + l + h) with (l + h + h * 2 ^ 32) by lia.
    apply Z_mod_plus_full. }
  rewrite Eu.
  assert (Ee : exists c, (c = 0 \/ c = 1)
     /\ Z.shiftr (u64 (t0 + h + b2z ((l + h) mod 2 ^ 32 >? 0xfffffffe))) 32 = h + c
     /\ (c = 0 -> l + h <= 2 ^ 32 - 2) /\ (c = 1 -> 2 ^ 32 - 1 <= l + h)).
  { destruct (Z_lt_le_dec (l + h) (2 ^ 32 - 1)) as [Hs | Hs].
    - exists 0. rewrite (Z.mod_small (l + h)) by lia.
      destruct (Z.gtb_spec (l + h) 0xfffffffe); [lia|]. cbn [b2z].
      rewrite u64_small, Z.shiftr_div_pow2 by words.
      repeat split; try lia. apply div_eq with (l + h); lia.
    - exists 1.
      destruct (Z_lt_le_dec (l + h) (2 ^ 32)) as [He | He].
      + rewrite (Z.mod_small (l + h)) by lia.
        destruct (Z.gtb_spec (l + h) 0xfffffffe); [|lia]. cbn [b2z].
        rewrite u64_small, Z.shiftr_div_pow2 by words.
        repeat split; try lia. apply div_eq with 0; lia.
      + assert (Em : (l + h) mod 2 ^ 32 = l + h - 2 ^ 32)
          by (apply mod_eq with 1; lia).
        rewrite Em.
        destruct (Z.gtb_spec (l + h - 2 ^ 32) 0xfffffffe); [lia|]. cbn [b2z].
        rewrite u64_small, Z.shiftr_div_pow2 by words.
        repeat split; try lia. apply div_eq with (l + h - 2 ^ 32); lia. }
  destruct Ee as (c & Hc & -> & Hc0 & Hc1).
  rewrite (u64_small (p1 + (h + c))) by words.
  set (q := p1 + (h + c)).
  set (V := p1 * 2 ^ 64 + p2).
  assert (Br : 0 <= V - q * (2 ^ 64 - 2 ^ 32) < 2 ^ 64 - 2 ^ 32).
  { subst V q t0. destruct Hc as [-> | ->]; [specialize (Hc0 eq_refl) | specialize (Hc1 eq_refl)]; lia. }
  assert (Eq : V / (2 ^ 64 - 2 ^ 32) = q)
    by (apply div_eq with (V - q * (2 ^ 64 - 2 ^ 32)); lia).
  assert (Er : V mod (2 ^ 64 - 2 ^ 32) = V - q * (2 ^ 64 - 2 ^ 32))
    by (apply mod_eq with q; lia).
  rewrite Eq, Er. f_equal.
  rewrite Z.shiftl_mul_pow2 by lia. unfold u64.
  rewrite Zplus_mod_idemp_r.
  apply mod_eq with (q - p1); subst V; lia.
Qed.

Lemma land_borrow (b : bool) : Z.land (0 - b2z b) 257 = if b then 257 else 0.
Proof. destruct b; reflexivity. Qed.

Lemma l3_addkey_spec p k :
  0 <= p <= 2 ^ 64 - 258 -> word64 k ->
  l3_addkey p k mod p64 = (p + k) mod p64 /\ word64 (l3_addkey p k).
Proof.
  intros Hp Wk. unfold l3_addkey. rewrite land_borrow.
  split; [|apply u64_range].
  destruct (Z_lt_le_dec (p + k) (2 ^ 64)) as [Hs | Hs].
  - rewrite (u64_small (p + k)) by words.
    destruct (Z.ltb_spec (p + k) k); [lia|]. rewrite Z.add_0_r.
    now rewrite u64_small by words.
  - assert (E : u64 (p + k) = p + k - 2 ^ 64)
      by (unfold u64; apply mod_eq with 1; words).
    rewrite E. destruct (Z.ltb_spec (p + k - 2 ^ 64) k); [|words].
    rewrite u64_small by words. unfold p64.
    replace (p + k - 2 ^ 64 + 257) with (p + k + (-1) * 0xfffffffffffffeff) by lia.
    apply Z_mod_plus_full.
Qed.

Lemma l3_final_range x :
  word64 x -> 0 <= u64 (x + Z.land (0 - b2z (x >? p64 - 1)) 257) < p64
  /\ u64 (x + Z.land (0 - b2z (x >? p64 - 1)) 257) mod p64 = x mod p64.
Proof.
  intros Wx. rewrite land_borrow. unfold p64 in *.
  destruct (Z.gtb_spec x (0xfffffffffffffeff - 1)) as [Hgt | Hle].
  - assert (E : u64 (x + 257) = x - 0xfffffffffffffeff)
      by (unfold u64; apply mod_eq with 1; words).
    rewrite E. split; [words|].
    replace (x - 0xfffffffffffffeff) with (x + (-1) * 0xfffffffffffffeff) by lia.
    apply Z_mod_plus_full.
  - rewrite Z.add_0_r, u64_small by words. split; [words | reflexivity].
Qed.

Lemma l3_mulmod_spec p1 p2 :
  word64 p1 -> word64 p2 -> l3_mulmod p1 p2 = (p1 * p2) mod p64.
Proof.
  intros W1 W2. unfold l3_mulmod.
  destruct (MUL64_spec p1 p2 W1 W2) as (Em & Wh & Wl).
  destruct (MUL64 p1 p2) as [rh rl]. cbn [fst snd] in *.
  unfold val128 in Em; cbn [fst snd] in Em.
  rewrite Z.shiftr_div_pow2, !Z.shiftl_mul_pow2 by lia.
  pose proof (Z.div_mod rh (2 ^ 56) ltac:(lia)) as Ed.
  pose proof (Z.mod_pos_bound rh (2 ^ 56) ltac:(lia)) as Br.
  assert (Bt : 0 <= rh / 2 ^ 56 < 2 ^ 8).
  { split; [apply Z.div_pos; words | apply Z.div_lt_upper_bound; words]. }
  set (t := rh / 2 ^ 56) in *.
  assert (Es : u64 (rh * 2 ^ 8) = (rh mod 2 ^ 56) * 2 ^ 8)
    by (unfold u64; apply mod_eq with t; lia).
  rewrite Es.
  assert (W0 : word64 0) by words. assert (Wt : word64 t) by words.
  destruct (ADD128_exact t rl 0 rh Wt Wl W0 Wh) as (E1 & Wa & Wb); [words|].
  destruct (ADD128 t rl 0 rh) as [t1 rl1]. cbn [fst snd] in *.
  unfold val128 in E1; cbn [fst snd] in E1.
  assert (Ws : word64 (rh mod 2 ^ 56 * 2 ^ 8)) by words.
  destruct (ADD128_exact t1 rl1 0 _ Wa Wb W0 Ws) as (E2 & Wc & Wd); [words|].
  destruct (ADD128 t1 rl1 0 _) as [t2 rl2]. cbn [fst snd] in *.
  unfold val128 in E2; cbn [fst snd] in E2.
  assert (Bt2 : 0 <= t2 <= 257) by words.
  assert (Et : u64 (t2 + u64 (t2 * 2 ^ 8)) = 257 * t2).
  { rewrite (u64_small (t2 * 2 ^ 8)) by words. rewrite u64_small by words. lia. }
  rewrite Z.shiftl_mul_pow2 by lia. rewrite Et.
  set (rl3 := u64 (rl2 + 257 * t2)). rewrite !land_borrow.
  set (rl4 := u64 (rl3 + (if rl3 <? 257 * t2 then 257 else 0))).
  assert (H4 : word64 rl4 /\ rl4 mod p64 = (p1 * p2) mod p64).
  { split; [apply u64_range|]. subst rl4 rl3. unfold p64.
    destruct (Z_lt_le_dec (rl2 + 257 * t2) (2 ^ 64)) as [Hs | Hs].
    - rewrite (u64_small (rl2 + 257 * t2)) by words.
      destruct (Z.ltb_spec (rl2 + 257 * t2) (257 * t2)); [words|].
      rewrite Z.add_0_r, u64_small by words.
      replace (rl2 + 257 * t2)
        with (p1 * p2 + (- (rh + t2)) * 0xfffffffffffffeff) by lia.
      apply Z_mod_plus_full.
    - assert (E : u64 (rl2 + 257 * t2) = rl2 + 257 * t2 - 2 ^ 64)
        by (unfold u64; apply mod_eq with 1; words).
      rewrite E.
      destruct (Z.ltb_spec (rl2 + 257 * t2 - 2 ^ 64) (257 * t2)); [|words].
      rewrite u64_small by words.
      replace (rl2 + 257 * t2 - 2 ^ 64 + 257)
        with (p1 * p2 + (- (rh + t2 + 1)) * 0xfffffffffffffeff) by lia.
      apply Z_mod_plus_full. }
  clearbody rl4. destruct H4 as (W4 & E4).
  destruct (l3_final_range rl4 W4) as (Bf & Ef). rewrite land_borrow in Bf, Ef.
  rewrite <- E4, <- Ef. symmetry. apply Z.mod_small. exact Bf.
Qed.

Lemma l3hash_l3_value p1 p2 k1 k2 len :
  word64 p1 -> word64 p2 -> word64 k1 -> word64 k2 -> 0 <= len < 2 ^ 63 ->
  l3hash p1 p2 k1 k2 len = l3_value (val128 (p1, p2)) k1 k2 len.
Proof.
  intros W1 W2 Wk1 Wk2 Hl. rewrite l3hash_stages.
  destruct (l3_reduce_spec p1 p2 len W1 W2 Hl) as (Er & Ba & Wb).
  destruct (l3_reduce p1 p2 len) as [a b]. cbn [fst snd] in *.
  rewrite (l3_divide_spec a b Ba Wb). unfold l3_value. rewrite <- Er.
  set (v := val128 (a, b)).
  assert (Bv : 0 <= v < 2 ^ 127) by (subst v; words).
  assert (Bq : 0 <= v / d64 <= 2 ^ 64 - 258).
  { unfold d64. split; [apply Z.div_pos; lia|].
    assert (v / (2 ^ 64 - 2 ^ 32) < 2 ^ 63 + 2 ^ 32)
      by (apply Z.div_lt_upper_bound; lia). lia. }
  assert (Bm : 0 <= v mod d64 <= 2 ^ 64 - 258).
  { pose proof (Z.mod_pos_bound v d64 ltac:(unfold d64; lia)). unfold d64 in *. lia. }
  destruct (l3_addkey_spec _ k1 Bq Wk1) as (E1 & Wa1).
  destruct (l3_addkey_spec _ k2 Bm Wk2) as (E2 & Wa2).
  rewrite l3_mulmod_spec by assumption.
  rewrite Zmult_mod, E1, E2, <- Zmult_mod. reflexivity.
Qed.

Lemma l3hash_range p1 p2 k1 k2 len :
  0 <= l3hash p1 p2 k1 k2 len < p64.
Proof.
  rewrite l3hash_stages.
  destruct (l3_reduce p1 p2 len) as [a b]. destruct (l3_divide a b) as [q r].
  unfold l3_mulmod.
  destruct (MUL64 _ _) as [rh rl]. destruct (ADD128 _ _ _ _) as [t1 rl1].
  destruct (ADD128 t1 _ _ _) as [t2 rl2].
  apply l3_final_range. apply u64_range.
Qed.

(** X1: For a poly state of two 64-bit words and a length below 2^63, [l3hash]
    returns [l3_value] of the state's 128-bit value: the sum with len*2^64 is
    reduced modulo p127, split into quotient and remainder by 2^64 - 2^32,
    each part has its key added, and the product is reduced modulo
    p64 = 2^64 - 257.  The keys can be any 64-bit words. *)
Theorem l3hash_value p1 p2 k1 k2 len :
  word64 p1 -> word64 p2 -> word64 k1 -> word64 k2 -> 0 <= len < 2 ^ 63 ->
  l3hash p1 p2 k1 k2 len = l3_value (val128 (p1, p2)) k1 k2 len.
Proof. exact (l3hash_l3_value p1 p2 k1 k2 len). Qed.

(** X2: Whatever its arguments, [l3hash] returns a number in [0, p64). *)
Theorem l3hash_below_p64 p1 p2 k1 k2 len :
  0 <= l3hash p1 p2 k1 k2 len < p64.
Proof. exact (l3hash_range p1 p2 k1 k2 len). Qed.

(** [l3hash] sees a poly state only through its residue modulo p127: two
    states congruent modulo p127 hash alike. *)
Lemma l3_value_congr a a' k1 k2 len :
  a mod p127 = a' mod p127 -> l3_value a k1 k2 len = l3_value a' k1 k2 len.
Proof.
  intros E. unfold l3_value.
  rewrite (Zplus_mod a), (Zplus_mod a'), E. reflexivity.
Qed.

(** ** VHASH as a polynomial followed by layer 3 *)

Lemma poly_high_first_app k l1 l2 :
  poly_high_first k (l1 ++ l2)
  = poly_high_first k l1 * k ^ Z.of_nat (length l2) + poly_high_first k l2.
Proof.
  induction l1 as [|c l1 IH]; cbn [app poly_high_first]; [lia|].
  rewrite IH, length_app, Nat2Z.inj_add, Z.pow_add_r by lia. ring.
Qed.

Lemma tail_step_congr r mptr kptr pkh pkl c :
  lanes29 pkh -> lanes29 pkl -> word64 (fst c) -> word64 (snd c) ->
  let '(rh, rl) := nh_16 mptr kptr (2 * ((r + 15) / 16)) in
  val128 (poly_step (fst c) (snd c) pkh pkl (Z.land rh m62) rl) mod p127
    = (val128 c * val128 (pkh, pkl) + tail_hash r mptr kptr) mod p127
  /\ word64 (fst (poly_step (fst c) (snd c) pkh pkl (Z.land rh m62) rl))
  /\ word64 (snd (poly_step (fst c) (snd c) pkh pkl (Z.land rh m62) rl)).
Proof.
  intros Lh Ll Wh Wl. unfold tail_hash.
  destruct (nh_16_words mptr kptr (2 * ((r + 15) / 16))) as (Nh & Nl).
  destruct (nh_16 mptr kptr (2 * ((r + 15) / 16))) as [rh rl].
  cbn [fst snd] in *. destruct c as [ch cl]. cbn [fst snd] in *.
  destruct (poly_step_congr ch cl pkh pkl (Z.land rh m62) rl Wh Wl Lh Ll
              (mask62_range rh) Nl) as (E & B & W).
  split; [exact E|]. split; [words | exact W].
Qed.

Lemma vhash_rest_congr n r mptr kptr pkh pkl c :
  lanes29 pkh -> lanes29 pkl -> word64 (fst c) -> word64 (snd c) ->
  let tail := if (r =? 0)%nat then []
              else [tail_hash r (skipn (n * UVMAC_NHBYTES) mptr) kptr] in
  let hs := block_hashes n mptr kptr ++ tail in
  val128 (vhash_rest n r mptr kptr pkh pkl c) mod p127
    = (val128 c * val128 (pkh, pkl) ^ Z.of_nat (length hs)
       + poly_high_first (val128 (pkh, pkl)) hs) mod p127
  /\ word64 (fst (vhash_rest n r mptr kptr pkh pkl c))
  /\ word64 (snd (vhash_rest n r mptr kptr pkh pkl c)).
Proof.
  intros Lh Ll Wh Wl. cbv zeta. unfold vhash_rest.
  destruct (poly_blocks_congr n mptr kptr pkh pkl c Lh Ll Wh Wl) as (E & W1 & W2).
  pose proof (poly_blocks_ptr n mptr kptr pkh pkl c) as Ep.
  destruct (poly_blocks n mptr kptr pkh pkl c) as [c1 p1]. cbn [fst snd] in *.
  subst p1. rewrite length_app, block_hashes_length.
  destruct (Nat.eqb_spec r 0) as [Hr | Hr]; cbn [negb length].
  - rewrite app_nil_r, Nat.add_0_r. auto.
  - pose proof (tail_step_congr r (skipn (n * UVMAC_NHBYTES) mptr) kptr pkh pkl
                  c1 Lh Ll W1 W2) as T.
    destruct c1 as [ch cl]. cbn [fst snd] in *.
    destruct (nh_16 _ kptr (2 * ((r + 15) / 16))) as [rh rl].
    destruct T as (Et & W3 & W4). split; [|auto].
    rewrite Et. rewrite (mod_congr_affine _ _ _ _ _ E). f_equal.
    rewrite poly_high_first_app. cbn [poly_high_first length].
    rewrite Nat2Z.inj_add, Z.pow_add_r by lia.
    change (Z.of_nat 1) with 1. change (Z.of_nat 0) with 0.
    rewrite Z.pow_1_r, Z.pow_0_r. ring.
Qed.

Lemma vhash_poly_congr m mbytes ctx :
  key_domain ctx -> fresh ctx -> (0 < mbytes)%nat ->
  val128 (vhash_poly m mbytes ctx) mod p127
    = poly_high_first (val128 (polykey ctx))
        (1 :: message_hashes m mbytes (nhkey ctx)) mod p127
  /\ word64 (fst (vhash_poly m mbytes ctx))
  /\ word64 (snd (vhash_poly m mbytes ctx)).
Proof.
  intros Hk (Hf & Hb) Hpos.
  destruct Hk as (Mh & Ml & _).
  pose proof (masked_lanes29 _ Mh) as Lh. pose proof (masked_lanes29 _ Ml) as Ll.
  pose proof (lanes29_bound _ Lh) as Bh. pose proof (lanes29_bound _ Ll) as Bl.
  apply masked_word64 in Mh, Ml.
  unfold vhash_poly, message_hashes. rewrite Hb.
  pose proof (Nat.div_mod_eq mbytes UVMAC_NHBYTES) as Edm.
  set (i := (mbytes / UVMAC_NHBYTES)%nat) in *.
  set (r := (mbytes mod UVMAC_NHBYTES)%nat) in *.
  destruct (polykey ctx) as [pkh pkl]. cbn [fst snd] in *.
  destruct (Nat.eqb_spec i 0) as [Hi | Hi]; cbn [negb].
  - rewrite Hi in *. change (0 * UVMAC_NHBYTES)%nat with 0%nat.
    cbn [block_hashes app skipn].
    destruct (Nat.eqb_spec r 0) as [Hr | Hr]; cbn [negb]; [lia|].
    unfold tail_hash.
    destruct (nh_16_words m (nhkey ctx) (2 * ((r + 15) / 16))) as (Nh & Nl).
    destruct (nh_16 m (nhkey ctx) (2 * ((r + 15) / 16))) as [rh rl].
    cbn [fst snd] in *. pose proof (mask62_range rh) as Br.
    assert (Wm : word64 (Z.land rh m62)) by words.
    destruct (ADD128_exact (Z.land rh m62) rl pkh pkl Wm Nl Mh Ml) as (Ea & Wa & Wb);
      [words|].
    split; [|auto]. rewrite Ea. f_equal. cbn [poly_high_first length].
    change (Z.of_nat 1) with 1. change (Z.of_nat 0) with 0.
    rewrite Z.pow_1_r, Z.pow_0_r. unfold val128; cbn [fst snd]. ring.
  - destruct i as [|i']; [lia|]. cbn [block_hashes Nat.pred].
    destruct (nh_block_words m (nhkey ctx)) as (Nh & Nl).
    destruct (nh_vhash_nhbytes m (nhkey ctx) (UVMAC_NHBYTES / 8)) as [rh rl].
    cbn [fst snd] in *. pose proof (mask62_range rh) as Br.
    assert (Wm : word64 (Z.land rh m62)) by words.
    destruct (ADD128_exact (Z.land rh m62) rl pkh pkl Wm Nl Mh Ml) as (Ea & Wa & Wb);
      [words|].
    pose proof (vhash_rest_congr i' r (advance m (UVMAC_NHBYTES / 8)) (nhkey ctx)
                  pkh pkl (ADD128 (Z.land rh m62) rl pkh pkl) Lh Ll Wa Wb) as R.
    cbv zeta in R. destruct R as (E & W3 & W4). split; [|auto].
    rewrite E, Ea. f_equal.
    rewrite advance_block, skipn_skipn.
    replace (i' * UVMAC_NHBYTES + UVMAC_NHBYTES)%nat
      with (S i' * UVMAC_NHBYTES)%nat by lia.
    cbn [app poly_high_first]. rewrite <- advance_block.
    set (hs := block_hashes i' _ _ ++ _).
    cbn [length]. rewrite Nat2Z.inj_succ, Z.pow_succ_r by lia.
    unfold val128; cbn [fst snd]. ring.
Qed.

(** X3: VHASH in closed form: on a fresh context with keys in their domain, the
    hash of a non-empty message whose length fits an [unsigned int] is
    [l3_value] of the monic polynomial k^n + h1*k^(n-1) + ... + hn in the
    poly key k, where h1..hn are the masked NH values of the full blocks and
    of the tail, with the two l3 keys and the length 8 * (mbytes mod B). *)
Theorem vhash_value m mbytes ctx :
  key_domain ctx -> fresh ctx -> (0 < mbytes)%nat -> Z.of_nat mbytes < 2 ^ 32 ->
  fst (vhash m mbytes ctx)
  = l3_value (poly_high_first (val128 (polykey ctx))
                (1 :: message_hashes m mbytes (nhkey ctx)))
      (fst (l3key ctx)) (snd (l3key ctx))
      (8 * Z.of_nat (mbytes mod UVMAC_NHBYTES)).
Proof.
  intros Hk Hf Hpos Hlen.
  destruct (vhash_poly_congr m mbytes ctx Hk Hf Hpos) as (E & W1 & W2).
  destruct Hk as (_ & _ & L1 & L2).
  rewrite vhash_fst.
  assert (El : vhash_len mbytes = 8 * Z.of_nat (mbytes mod UVMAC_NHBYTES))
    by (unfold vhash_len; lia).
  rewrite El.
  assert (Hm : (mbytes mod UVMAC_NHBYTES <= mbytes)%nat)
    by (apply Nat.Div0.mod_le).
  rewrite l3hash_l3_value; try assumption; try (unfold p64 in *; words).
  apply l3_value_congr.
  destruct (vhash_poly m mbytes ctx) as [ch cl]. exact E.
Qed.

(** ** How the operations compose *)

Lemma fresh_abort ctx : fresh ctx -> vhash_abort ctx = ctx.
Proof.
  intros (Hf & Hb). destruct ctx as [nh pk l3 pt fb]. cbn in *. subst. reflexivity.
Qed.

Lemma abort_after_update m mbytes ctx :
  vhash_abort (vhash_update m mbytes ctx) = vhash_abort ctx.
Proof.
  destruct (vhash_update_fields m mbytes ctx) as (En & Ep & El & _).
  unfold vhash_abort. now rewrite En, Ep, El.
Qed.



(** X6: On a fresh context [uvmac] with a cursor inside the pad key returns the
    context exactly as it was and the cursor advanced by one: the next
    message is tagged with the same hash function and the next pad word. *)
Theorem uvmac_keeps_fresh_context m mbytes ctx key klen pos :
  fresh ctx -> 0 <= pos < klen -> klen < 2 ^ 64 ->
  uvmac m mbytes ctx key klen pos
  = Returned (u64 (be_word_at key (Z.to_nat pos) + fst (vhash m mbytes ctx)),
              ctx, pos + 1).
Proof.
  intros Hf Hp Hk. rewrite uvmac_unfold, (fresh_abort ctx Hf).
  rewrite u64_small by words.
  destruct (Z.gtb_spec (pos + 1) klen); [lia|].
  unfold be_word_at, advance. now rewrite get64BE_big_endian.
Qed.

Lemma vhash_word m mbytes ctx : 0 <= fst (vhash m mbytes ctx) < p64.
Proof. rewrite vhash_fst. apply l3hash_range. Qed.

(** X7: The tag is the hash encrypted with the pad word by addition modulo 2^64:
    subtracting the pad word from the tag gives back the hash, and the tags
    of one message under two pad words differ by the difference of the pad
    words. *)
Theorem uvmac_is_one_time_pad m mbytes ctx key klen pos key' klen' pos' t c p t' c' p' :
  uvmac m mbytes ctx key klen pos = Returned (t, c, p) ->
  uvmac m mbytes ctx key' klen' pos' = Returned (t', c', p') ->
  u64 (t - get64BE (advance key (Z.to_nat pos))) = fst (vhash m mbytes ctx)
  /\ u64 (t - t') = u64 (get64BE (advance key (Z.to_nat pos))
                         - get64BE (advance key' (Z.to_nat pos'))).
Proof.
  rewrite !uvmac_unfold.
  destruct (u64 (pos + 1) >? klen); [discriminate|].
  destruct (u64 (pos' + 1) >? klen'); [discriminate|].
  intros E E'.
  pose (tag_of := fun o : outcome (Z * uvmax_ctx_t * Z) =>
                    match o with Returned (x, _, _) => x | _ => 0 end).
  apply (f_equal tag_of) in E, E'. cbv beta iota delta [tag_of] in E, E'.
  clear tag_of. subst t t'.
  pose proof (vhash_word m mbytes ctx) as Hh.
  set (h := fst (vhash m mbytes ctx)) in *.
  set (w := get64BE (advance key (Z.to_nat pos))).
  set (w' := get64BE (advance key' (Z.to_nat pos'))).
  unfold u64. split.
  - rewrite Zminus_mod_idemp_l. replace (w + h - w) with h by lia.
    apply Z.mod_small. unfold p64 in Hh. lia.
  - rewrite <- Zminus_mod_idemp_l, <- Zminus_mod_idemp_r.
    rewrite !Z.mod_mod by lia.
    rewrite Zminus_mod_idemp_l, Zminus_mod_idemp_r.
    f_equal. lia.
Qed.

(** ** The doubled NH *)

Lemma key_at_shift kp j : key_at (skipn 2 kp) j = key_at kp (j + 2).
Proof.
  unfold key_at. replace (j + 2)%nat with (S (S j)) by lia.
  destruct kp as [|a [|b kp]]; cbn [skipn nth]; try reflexivity;
    destruct j; reflexivity.
Qed.

Lemma nh_term_at_same mp kp i r :
  nh_term_at mp kp i i r = nh_term mp kp i (fst r) (snd r).
Proof. reflexivity. Qed.

Lemma nh_term_at_shift mp kp i r :
  nh_term_at mp kp i (i + 2) r = nh_term mp (skipn 2 kp) i (fst r) (snd r).
Proof.
  unfold nh_term_at, nh_term. rewrite !key_at_shift.
  replace (i + 1 + 2)%nat with (i + 2 + 1)%nat by lia. reflexivity.
Qed.

Lemma nh_16_iter_pair n i mp kp r :
  nh_16_iter n i mp kp (fst r) (snd r)
  = match n with
    | O => r
    | S n' => nh_16_iter n' (i + 2) mp kp
                (fst (nh_term mp kp i (fst r) (snd r)))
                (snd (nh_term mp kp i (fst r) (snd r)))
    end.
Proof.
  destruct n; cbn [nh_16_iter]; [now destruct r|].
  now destruct (nh_term mp kp i (fst r) (snd r)).
Qed.

Lemma nh_16_2_iter_pair n i mp kp r r1 :
  nh_16_2_iter n i mp kp r r1
  = (nh_16_iter n i mp kp (fst r) (snd r),
     nh_16_iter n i mp (skipn 2 kp) (fst r1) (snd r1)).
Proof.
  revert i r r1. induction n as [|n IH]; intros i r r1.
  - cbn. now destruct r, r1.
  - cbn [nh_16_2_iter]. rewrite IH, nh_term_at_same, nh_term_at_shift.
    rewrite (nh_16_iter_pair (S n) i mp kp r).
    rewrite (nh_16_iter_pair (S n) i mp (skipn 2 kp) r1). reflexivity.
Qed.

Lemma nh_64_2_iter_pair n i mp kp r r1 :
  nh_64_2_iter n i mp kp r r1
  = (nh_64_iter n i mp kp (fst r) (snd r),
     nh_64_iter n i mp (skipn 2 kp) (fst r1) (snd r1)).
Proof.
  revert i r r1. induction n as [|n IH]; intros i r r1.
  - cbn. now destruct r, r1.
  - cbn [nh_64_2_iter nh_64_iter]. rewrite IH.
    rewrite !nh_term_at_same.
    replace (i + 4)%nat with (i + 2 + 2)%nat by lia.
    replace (i + 6)%nat with (i + 2 + 2 + 2)%nat by lia.
    replace (i + 8)%nat with (i + 2 + 2 + 2 + 2)%nat by lia.
    rewrite !nh_term_at_shift.
    replace (i + 2 + 2)%nat with (i + 4)%nat by lia.
    replace (i + 4 + 2)%nat with (i + 6)%nat by lia.
    replace (i + 6 + 2)%nat with (i + 8)%nat by lia.
    destruct (nh_term mp kp i (fst r) (snd r)) as [a b].
    destruct (nh_term mp (skipn 2 kp) i (fst r1) (snd r1)) as [a1 b1].
    cbn [fst snd].
    destruct (nh_term mp kp (i + 2) a b) as [c d].
    destruct (nh_term mp (skipn 2 kp) (i + 2) a1 b1) as [c1 d1].
    cbn [fst snd].
    destruct (nh_term mp kp (i + 4) c d) as [e f].
    destruct (nh_term mp (skipn 2 kp) (i + 4) c1 d1) as [e1 f1].
    cbn [fst snd].
    destruct (nh_term mp kp (i + 6) e f) as [g h].
    destruct (nh_term mp (skipn 2 kp) (i + 6) e1 f1) as [g1 h1].
    reflexivity.
Qed.

Lemma nh_16_2_pair mp kp nw :
  nh_16_2 mp kp nw = (nh_16 mp kp nw, nh_16 mp (skipn 2 kp) nw).
Proof. unfold nh_16_2, nh_16. apply nh_16_2_iter_pair. Qed.

Lemma nh_vhash_nhbytes_2_pair mp kp nw :
  nh_vhash_nhbytes_2 mp kp nw
  = (nh_vhash_nhbytes mp kp nw, nh_vhash_nhbytes mp (skipn 2 kp) nw).
Proof.
  unfold nh_vhash_nhbytes_2, nh_vhash_nhbytes.
  destruct (64 <=? UVMAC_NHBYTES)%nat; [|reflexivity].
  apply nh_64_2_iter_pair.
Qed.

(** X8: The doubled NH of the 128-bit tag is two single NH computations over the
    same message words: one under the key window [kp], one under the window
    two words further, [kp + 2].  This holds for [nh_16_2] and for the
    unrolled [nh_vhash_nhbytes_2], for every word count. *)
Theorem doubled_nh_is_two_nh mp kp nw :
  nh_16_2 mp kp nw = (nh_16 mp kp nw, nh_16 mp (skipn 2 kp) nw)
  /\ nh_vhash_nhbytes_2 mp kp nw
     = (nh_vhash_nhbytes mp kp nw, nh_vhash_nhbytes mp (skipn 2 kp) nw).
Proof. split; [apply nh_16_2_pair | apply nh_vhash_nhbytes_2_pair]. Qed.

(** ** The portable 32-bit path computes the same *)

Ltac dm := Z.div_mod_to_equations; lia.

(** Remove the truncations that do not truncate, innermost first. *)
Ltac strip_u64 :=
  repeat match goal with
         | |- context [u64 ?x] => rewrite (u64_small x) by (unfold word64; lia)
         end.

Lemma mod_same a b k n : a = b + k * n -> a mod n = b mod n.
Proof. intros ->. apply Z_mod_plus_full. Qed.

Lemma nh32_body_spec mp kp i rh rl t :
  word64 rh -> word64 rl -> 0 <= t ->  t + 2 ^ 33 < 2 ^ 64 ->
  let '(rh', rl', t') := Arch32.nh_16_body mp kp i (rh, rl, t) in
  (val128 (rh', rl') + t' * 2 ^ 32) mod 2 ^ 128
    = (val128 (rh, rl) + t * 2 ^ 32
       + NH_pair (le_word_at mp) (key_at kp) i) mod 2 ^ 128
  /\ word64 rh' /\ word64 rl' /\ t <= t' <= t + 2 ^ 33.
Proof.
  intros Wh Wl Ht0 Ht. unfold Arch32.nh_16_body, NH_pair, get64PE, get64LE, advance.
  fold (le_word_at mp i). fold (le_word_at mp (i + 1)). fold (u64 (le_word_at mp i + key_at kp i)).
  fold (u64 (le_word_at mp (i + 1) + key_at kp (i + 1))).
  pose proof (u64_range (le_word_at mp i + key_at kp i)) as W1.
  pose proof (u64_range (le_word_at mp (i + 1) + key_at kp (i + 1))) as W2.
  set (t1 := u64 (le_word_at mp i + key_at kp i)) in *.
  set (t2 := u64 (le_word_at mp (i + 1) + key_at kp (i + 1))) in *.
  rewrite !MUL32_val, !shiftr32_small by assumption.
  destruct (split32 t1 W1) as (E1 & Hq1 & Hr1).
  destruct (split32 t2 W2) as (E2 & Hq2 & Hr2).
  set (h1 := t1 / 2 ^ 32) in *. set (l1 := t1 mod 2 ^ 32) in *.
  set (h2 := t2 / 2 ^ 32) in *. set (l2 := t2 mod 2 ^ 32) in *.
  pose proof (mul_lt_bound _ _ _ _ Hq1 Hq2) as Bhh.
  pose proof (mul_lt_bound _ _ _ _ Hr1 Hr2) as Bll.
  pose proof (mul_lt_bound _ _ _ _ Hr1 Hq2) as Blh.
  pose proof (mul_lt_bound _ _ _ _ Hq1 Hr2) as Bhl.
  assert (P : t1 * t2 = h1 * h2 * 2 ^ 64 + l1 * l2 + (l1 * h2 + h1 * l2) * 2 ^ 32).
  { rewrite E1, E2 at 1. ring. }
  assert (Whh : word64 (h1 * h2)) by words.
  assert (Wll : word64 (l1 * l2)) by words.
  destruct (ADD128_spec rh rl (h1 * h2) (l1 * l2) Wh Wl Whh Wll) as (Ea & Wa & Wb).
  destruct (ADD128 rh rl (h1 * h2) (l1 * l2)) as [rh1 rl1]. cbn [fst snd] in *.
  unfold val128 in *; cbn [fst snd] in *.
  rewrite !Z.shiftr_div_pow2 by lia. unfold u64, u32, word64 in *.
  set (m1 := l1 * h2) in *. set (m2 := h1 * l2) in *.
  split; [|split; [|split]]; dm.
Qed.

Lemma nh32_iter_spec n a mp kp rh rl t :
  word64 rh -> word64 rl -> 0 <= t -> t + Z.of_nat n * 2 ^ 33 < 2 ^ 64 ->
  (val128 (rh, rl) + t * 2 ^ 32) mod 2 ^ 128
    = NH_sum a (le_word_at mp) (key_at kp) mod 2 ^ 128 ->
  let '(rh', rl', t') := Arch32.nh_16_iter n (2 * a) mp kp (rh, rl, t) in
  (val128 (rh', rl') + t' * 2 ^ 32) mod 2 ^ 128
    = NH_sum (a + n) (le_word_at mp) (key_at kp) mod 2 ^ 128
  /\ word64 rh' /\ word64 rl' /\ word64 t'.
Proof.
  revert a rh rl t. induction n as [|n IH]; intros a rh rl t Wh Wl Ht0 Ht E.
  - cbn [Arch32.nh_16_iter]. rewrite Nat.add_0_r. repeat split; auto; words.
  - cbn [Arch32.nh_16_iter].
    pose proof (nh32_body_spec mp kp (2 * a) rh rl t Wh Wl Ht0 ltac:(lia)) as B.
    destruct (Arch32.nh_16_body mp kp (2 * a) (rh, rl, t)) as [[rh1 rl1] t1].
    destruct B as (Eb & W1 & W2 & Bt).
    replace (2 * a + 2)%nat with (2 * S a)%nat by lia.
    replace (a + S n)%nat with (S a + n)%nat by lia.
    apply IH; auto; try lia.
    rewrite Eb. cbn [NH_sum].
    rewrite <- Zplus_mod_idemp_l, E, Zplus_mod_idemp_l. reflexivity.
Qed.

(** X9: The portable 32-bit [nh_16], which sums the cross terms of each product
    in a separate register, returns the same two words as the 64-bit
    [nh_16] for every word count below 2^31. *)
Theorem nh_16_portable_agrees mp kp nw :
  Z.of_nat nw < 2 ^ 31 -> Arch32.nh_16 mp kp nw = nh_16 mp kp nw.
Proof.
  intros Hn. unfold Arch32.nh_16, nh_16.
  assert (Hh : Z.of_nat ((nw + 1) / 2) <= Z.of_nat nw).
  { apply Nat2Z.inj_le. destruct nw; [reflexivity|].
    apply Nat.Div0.div_le_upper_bound. lia. }
  assert (W0 : word64 0) by words.
  pose proof (nh32_iter_spec ((nw + 1) / 2) 0 mp kp 0 0 0 W0 W0 ltac:(lia)
                ltac:(lia) eq_refl) as S32.
  destruct (nh_16_iter_spec ((nw + 1) / 2) 0 mp kp 0 0 W0 W0 eq_refl)
    as (E64 & Wh & Wl).
  destruct (Arch32.nh_16_iter _ _ _ _ _) as [[rh rl] t].
  destruct S32 as (E32 & W1 & W2 & Wt).
  destruct (cross_term t Wt) as (Ec & Wc1 & Wc2).
  destruct (ADD128_spec rh rl _ _ W1 W2 Wc1 Wc2) as (Ea & Wa & Wb).
  apply val128_inj; auto.
  change (2 * 0)%nat with 0%nat in *.
  rewrite Ea, Ec, E64. exact E32.
Qed.

Lemma lanes29_halves k : lanes29 k ->
  0 <= k mod 2 ^ 32 < 2 ^ 29 /\ 0 <= k / 2 ^ 32 < 2 ^ 29
  /\ k = (k / 2 ^ 32) * 2 ^ 32 + k mod 2 ^ 32.
Proof. intros (W & L & H). unfold word64 in W. dm. Qed.

(** X10: The portable 32-bit [poly_step_func], on any 64-bit accumulator words, a
    masked key and a message whose high word is below 2^62: the result is
    congruent to a*k + m modulo p127, as for the 64-bit [poly_step], and its
    high word is below 2^63 + 2^32. *)
Theorem poly_step_portable_congr ah al kh kl mh ml :
  word64 ah -> word64 al -> lanes29 kh -> lanes29 kl ->
  0 <= mh < 2 ^ 62 -> word64 ml ->
  val128 (Arch32.poly_step_func ah al kh kl mh ml) mod p127
    = (val128 (ah, al) * val128 (kh, kl) + val128 (mh, ml)) mod p127
  /\ val128 (Arch32.poly_step_func ah al kh kl mh ml) mod p127
     = val128 (poly_step ah al kh kl mh ml) mod p127
  /\ 0 <= fst (Arch32.poly_step_func ah al kh kl mh ml) < 2 ^ 63 + 2 ^ 32
  /\ word64 (snd (Arch32.poly_step_func ah al kh kl mh ml)).
Proof.
  intros Wah Wal Lkh Lkl Hmh Wml.
  destruct (poly_step_congr ah al kh kl mh ml Wah Wal Lkh Lkl Hmh Wml) as (E64 & _).
  rewrite E64.
  assert (G : val128 (Arch32.poly_step_func ah al kh kl mh ml) mod p127
              = (val128 (ah, al) * val128 (kh, kl) + val128 (mh, ml)) mod p127
              /\ 0 <= fst (Arch32.poly_step_func ah al kh kl mh ml) < 2 ^ 63 + 2 ^ 32
              /\ word64 (snd (Arch32.poly_step_func ah al kh kl mh ml)));
    [|tauto].
  clear E64.
  destruct (lanes29_halves kh Lkh) as (Bk2 & Bk3 & Ekh).
  destruct (lanes29_halves kl Lkl) as (Bk0 & Bk1 & Ekl).
  destruct (split32 ah Wah) as (Eah & Ba3 & Ba2).
  destruct (split32 al Wal) as (Eal & Ba1 & Ba0).
  destruct (split32 ml Wml) as (Eml & Bm1 & Bm0).
  unfold Arch32.poly_step_func. cbv zeta.
  rewrite !MUL32_val. rewrite !Z.shiftr_div_pow2 by lia. unfold u32.
  rewrite !Z.mod_mod by lia.
  rewrite !(Z.mod_small (ah / 2 ^ 32)), !(Z.mod_small (al / 2 ^ 32)),
    !(Z.mod_small (kh / 2 ^ 32)), !(Z.mod_small (kl / 2 ^ 32)) by lia.
  set (a0 := al mod 2 ^ 32) in *. set (a1 := al / 2 ^ 32) in *.
  set (a2 := ah mod 2 ^ 32) in *. set (a3 := ah / 2 ^ 32) in *.
  set (k0 := kl mod 2 ^ 32) in *. set (k1 := kl / 2 ^ 32) in *.
  set (k2 := kh mod 2 ^ 32) in *. set (k3 := kh / 2 ^ 32) in *.
  set (m0 := ml mod 2 ^ 32) in *. set (m1 := ml / 2 ^ 32) in *.
  assert (B : forall a k, 0 <= a < 2 ^ 32 -> 0 <= k < 2 ^ 29 -> 0 <= a * k < 2 ^ 61).
  { intros a k Ha Hk. pose proof (mul_lt_bound a k _ _ Ha Hk). lia. }
  pose proof (B a0 k0 Ba0 Bk0). pose proof (B a0 k1 Ba0 Bk1).
  pose proof (B a0 k2 Ba0 Bk2). pose proof (B a0 k3 Ba0 Bk3).
  pose proof (B a1 k0 Ba1 Bk0). pose proof (B a1 k1 Ba1 Bk1).
  pose proof (B a1 k2 Ba1 Bk2). pose proof (B a1 k3 Ba1 Bk3).
  pose proof (B a2 k0 Ba2 Bk0). pose proof (B a2 k1 Ba2 Bk1).
  pose proof (B a2 k2 Ba2 Bk2). pose proof (B a2 k3 Ba2 Bk3).
  pose proof (B a3 k0 Ba3 Bk0). pose proof (B a3 k1 Ba3 Bk1).
  pose proof (B a3 k2 Ba3 Bk2). pose proof (B a3 k3 Ba3 Bk3).
  clear B.
  set (P00 := a0 * k0) in *. set (P01 := a0 * k1) in *.
  set (P02 := a0 * k2) in *. set (P03 := a0 * k3) in *.
  set (P10 := a1 * k0) in *. set (P11 := a1 * k1) in *.
  set (P12 := a1 * k2) in *. set (P13 := a1 * k3) in *.
  set (P20 := a2 * k0) in *. set (P21 := a2 * k1) in *.
  set (P22 := a2 * k2) in *. set (P23 := a2 * k3) in *.
  set (P30 := a3 * k0) in *. set (P31 := a3 * k1) in *.
  set (P32 := a3 * k2) in *. set (P33 := a3 * k3) in *.
  (* first column: the 2^64 limb *)
  assert (E1 : u64 (u64 (u64 (u64 (u64 (P33 + P33) + mh) + P02) + P11) + P20)
               = P33 + P33 + mh + P02 + P11 + P20)
    by (strip_u64; reflexivity).
  rewrite E1. set (s1 := P33 + P33 + mh + P02 + P11 + P20) in *.
  assert (B1 : 0 <= s1 < 2 ^ 64) by (subst s1; lia).
  (* second column: the 2^96 limb *)
  assert (E2 : u64 (u64 (u64 (u64 (s1 / 2 ^ 32 + P03) + P12) + P21) + P30)
               = s1 / 2 ^ 32 + P03 + P12 + P21 + P30).
  { assert (0 <= s1 / 2 ^ 32 < 2 ^ 32) by dm.
    strip_u64. reflexivity. }
  rewrite E2. set (s2 := s1 / 2 ^ 32 + P03 + P12 + P21 + P30) in *.
  assert (B2 : 0 <= s2 < 2 ^ 64) by (subst s2; dm).
  assert (B2' : s2 / 2 ^ 31 < 2 ^ 33) by (subst s2; dm).
  change 0x7fffffff with (Z.ones 31). rewrite Z.land_ones by lia.
  assert (Em : (s2 mod 2 ^ 32) mod 2 ^ 31 = s2 mod 2 ^ 31) by dm.
  rewrite Em. rewrite !Z.shiftl_mul_pow2 by lia.
  assert (Et : Z.lor (s1 mod 2 ^ 32) (u64 (s2 mod 2 ^ 31 * 2 ^ 32))
               = s1 mod 2 ^ 32 + s2 mod 2 ^ 31 * 2 ^ 32).
  { rewrite u64_small by (unfold word64; dm). apply lor_disjoint; dm. }
  rewrite Et. set (t := s1 mod 2 ^ 32 + s2 mod 2 ^ 31 * 2 ^ 32) in *.
  assert (Bt : 0 <= t < 2 ^ 63) by (subst t; dm).
  (* third column: the low limb, with the fold of 2^127 *)
  assert (E3 : u64 (u64 (u64 (s2 / 2 ^ 31 + m0) + P00)
                    + u64 (u64 (u64 (P13 + P22) + P31) + u64 (u64 (P13 + P22) + P31)))
               = s2 / 2 ^ 31 + m0 + P00 + 2 * (P13 + P22 + P31)).
  { assert (0 <= s2 / 2 ^ 31) by dm.
    strip_u64. lia. }
  rewrite E3. set (s3 := s2 / 2 ^ 31 + m0 + P00 + 2 * (P13 + P22 + P31)) in *.
  assert (B3 : 0 <= s3 < 2 ^ 64) by (subst s3; dm).
  (* fourth column: the 2^32 limb *)
  assert (E4 : u64 (u64 (u64 (u64 (s3 / 2 ^ 32 + m1) + P01) + P10)
                    + u64 (u64 (P23 + P32) + u64 (P23 + P32)))
               = s3 / 2 ^ 32 + m1 + P01 + P10 + 2 * (P23 + P32)).
  { assert (0 <= s3 / 2 ^ 32 < 2 ^ 32) by dm.
    strip_u64. lia. }
  rewrite E4. set (s4 := s3 / 2 ^ 32 + m1 + P01 + P10 + 2 * (P23 + P32)) in *.
  assert (B4 : 0 <= s4 < 2 ^ 64) by (subst s4; dm).
  assert (El : Z.lor (u64 (s4 * 2 ^ 32)) (s3 mod 2 ^ 32)
               = s3 mod 2 ^ 32 + s4 mod 2 ^ 32 * 2 ^ 32).
  { assert (Eu : u64 (s4 * 2 ^ 32) = s4 mod 2 ^ 32 * 2 ^ 32) by (unfold u64; dm).
    rewrite Eu, Z.lor_comm. apply lor_disjoint; dm. }
  rewrite El.
  assert (Eh : u64 (s4 / 2 ^ 32 + t) = s4 / 2 ^ 32 + t)
    by (apply u64_small; unfold word64; dm).
  rewrite Eh. unfold val128, word64; cbn [fst snd].
  split; [|split; dm].
  unfold p127.
  apply mod_same with (- (2 * (P13 + P22 + P31 + (P23 + P32) * 2 ^ 32 + P33 * 2 ^ 64)
                          + s2 / 2 ^ 31)).
  assert (Eak : (ah * 2 ^ 64 + al) * (kh * 2 ^ 64 + kl)
                = P00 + (P01 + P10) * 2 ^ 32 + (P02 + P11 + P20) * 2 ^ 64
                  + (P03 + P12 + P21 + P30) * 2 ^ 96
                  + (P13 + P22 + P31) * 2 ^ 128 + (P23 + P32) * 2 ^ 160
                  + P33 * 2 ^ 192).
  { rewrite Eah, Eal, Ekh, Ekl. subst P00 P01 P02 P03 P10 P11 P12 P13 P20 P21 P22
      P23 P30 P31 P32 P33. ring. }
  rewrite Eak. subst t s4 s3. dm.
Qed.

(** ** The key schedule: layout, rejection and failure *)

Lemma consume_word_at stream len (p : nat) :
  Z.of_nat p < 2 ^ 64 - 1 ->
  consume_word stream len (Z.of_nat p)
  = if Z.of_nat p <? len then Returned (be_word_at stream p, Z.of_nat (S p))
    else AssertionFailed.
Proof.
  intros Hp. rewrite consume_word_unfold, Nat2Z.id.
  rewrite u64_small by (unfold word64; lia).
  replace (Z.of_nat p + 1) with (Z.of_nat (S p)) by lia.
  destruct (Z.gtb_spec (Z.of_nat (S p)) len), (Z.ltb_spec (Z.of_nat p) len);
    try reflexivity; lia.
Qed.

Lemma fill_nhkey_at n user_key len (p : nat) :
  len < 2 ^ 64 - 1 -> Z.of_nat p <= len ->
  fill_nhkey n user_key len (Z.of_nat p)
  = if Z.of_nat (p + n) <=? len
    then Returned (map (be_word_at user_key) (seq p n), Z.of_nat (p + n))
    else AssertionFailed.
Proof.
  intros Hl. revert p. induction n as [|n IH]; intros p Hp.
  - cbn [fill_nhkey seq map]. rewrite Nat.add_0_r.
    destruct (Z.leb_spec (Z.of_nat p) len); [reflexivity | lia].
  - cbn [fill_nhkey]. rewrite consume_word_at by lia.
    destruct (Z.ltb_spec (Z.of_nat p) len) as [Hlt | Hge]; cbn [bind].
    + rewrite IH by lia.
      replace (S p + n)%nat with (p + S n)%nat by lia.
      destruct (Z.of_nat (p + S n) <=? len); reflexivity.
    + destruct (Z.leb_spec (Z.of_nat (p + S n)) len); [lia | reflexivity].
Qed.

Lemma fill_polykey_at user_key len (p : nat) :
  Z.of_nat p < 2 ^ 64 - 1 ->
  fill_polykey user_key len (Z.of_nat p)
  = if Z.of_nat p <? len
    then Returned (Z.land (be_word_at user_key p) mpoly, Z.of_nat (S p))
    else AssertionFailed.
Proof.
  intros Hp. unfold fill_polykey. rewrite consume_word_at by lia.
  destruct (Z.of_nat p <? len); reflexivity.
Qed.

(** The rejection loop returns the first word below p64 at or after its
    starting position. *)
Lemma fill_l3key_accepts fuel user_key len (p j : nat) :
  len < 2 ^ 64 - 1 -> (p <= j)%nat -> Z.of_nat j < len ->
  (j - p < fuel)%nat ->
  be_word_at user_key j < p64 ->
  (forall i, (p <= i < j)%nat -> p64 <= be_word_at user_key i) ->
  fill_l3key fuel user_key len (Z.of_nat p)
  = Returned (be_word_at user_key j, Z.of_nat (S j)).
Proof.
  intros Hl. revert p. induction fuel as [|fuel IH]; intros p Hpj Hj Hf Hw Hrej;
    [lia|].
  cbn [fill_l3key]. rewrite consume_word_at by lia.
  destruct (Z.ltb_spec (Z.of_nat p) len); [|lia]. cbn [bind].
  destruct (Nat.eq_dec p j) as [-> | Hne].
  - destruct (Z.geb_spec (be_word_at user_key j) p64); [lia | reflexivity].
  - destruct (Z.geb_spec (be_word_at user_key p) p64) as [_ | Hlt].
    + apply IH; try lia. intros i Hi. apply Hrej. lia.
    + specialize (Hrej p ltac:(lia)). lia.
Qed.

Lemma fill_l3key_advances fuel user_key len pos w pos' :
  0 <= pos < 2 ^ 64 - 1 -> len < 2 ^ 64 - 1 ->
  fill_l3key fuel user_key len pos = Returned (w, pos') ->
  pos + 1 <= pos' <= len.
Proof.
  intros Hp Hl. revert pos Hp.
  induction fuel as [|fuel IH]; intros pos Hp; cbn [fill_l3key]; [discriminate|].
  destruct (consume_word user_key len pos) as [[w0 p0]| |] eqn:E; cbn [bind];
    try discriminate.
  destruct (consume_word_inv _ _ _ _ _ E) as (_ & Ep & Hle).
  rewrite u64_small in Ep by (unfold word64; lia).
  destruct (w0 >=? p64).
  - intros H. apply IH in H; lia.
  - intros H. injection H as <- <-. lia.
Qed.

Lemma fill_l3key_at_end fuel user_key len pos :
  0 <= pos < 2 ^ 64 - 1 -> len <= pos ->
  fill_l3key (S fuel) user_key len pos = AssertionFailed.
Proof.
  intros Hp Hl. cbn [fill_l3key]. rewrite consume_word_unfold.
  rewrite u64_small by (unfold word64; lia).
  destruct (Z.gtb_spec (pos + 1) len); [reflexivity | lia].
Qed.

(** X11: The layout of the user key, with rejection sampling: for a key of
    [key_length] 64-bit big-endian words w0, w1, ... and n = UVMAC_NHBYTES/8,
    the NH key is w0..w(n-1), the poly key is wn and w(n+1) masked, and the
    l3 key is the first two words below p64 from position n+2 on; every word
    at or above p64 before them is skipped. *)
Theorem set_key_layout user_key len ctx0 (p0 p1 : nat) :
  let n := (UVMAC_NHBYTES / 8)%nat in
  let w := be_word_at user_key in
  0 <= len < 2 ^ 32 ->
  (n + 2 <= p0 < p1)%nat -> Z.of_nat p1 < len ->
  w p0 < p64 -> w p1 < p64 ->
  (forall i, (n + 2 <= i < p1)%nat -> i <> p0 -> p64 <= w i) ->
  uvmac_set_key user_key len ctx0
  = Returned {| nhkey := map w (seq 0 n);
                polykey := (Z.land (w n) mpoly, Z.land (w (n + 1)%nat) mpoly);
                l3key := (w p0, w p1);
                polytmp := (Z.land (w n) mpoly, Z.land (w (n + 1)%nat) mpoly);
                first_block_processed := false |}.
Proof.
  intros n w Hl Hp Hp1 Hw0 Hw1 Hrej.
  unfold uvmac_set_key, uvmac_set_key_fuel. fold n.
  change 0 with (Z.of_nat 0) at 1.
  rewrite fill_nhkey_at by lia. cbn [Nat.add].
  destruct (Z.leb_spec (Z.of_nat n) len); [|lia]. cbn [bind].
  rewrite fill_polykey_at by lia.
  destruct (Z.ltb_spec (Z.of_nat n) len); [|lia]. cbn [bind].
  rewrite fill_polykey_at by lia.
  destruct (Z.ltb_spec (Z.of_nat (S n)) len); [|lia]. cbn [bind].
  assert (R0 : forall i, (S (S n) <= i < p0)%nat -> p64 <= be_word_at user_key i)
    by (intros i Hi; apply Hrej; lia).
  assert (R1 : forall i, (S p0 <= i < p1)%nat -> p64 <= be_word_at user_key i)
    by (intros i Hi; apply Hrej; lia).
  rewrite (fill_l3key_accepts (S (Z.to_nat len)) user_key len (S (S n)) p0
             ltac:(lia) ltac:(lia) ltac:(lia) ltac:(lia) Hw0 R0).
  cbn [bind].
  rewrite (fill_l3key_accepts (S (Z.to_nat len)) user_key len (S p0) p1
             ltac:(lia) ltac:(lia) ltac:(lia) ltac:(lia) Hw1 R1).
  cbn [bind]. subst w. replace (n + 1)%nat with (S n) by lia. reflexivity.
Qed.

(** X12: A user key with fewer than UVMAC_NHBYTES/8 + 4 words never initialises a
    context: [uvmac_set_key] stops the process in [get64bitsOfKey]. *)
Theorem set_key_short_key user_key len ctx0 :
  0 <= len < 2 ^ 32 -> len < Z.of_nat (UVMAC_NHBYTES / 8) + 4 ->
  stops_process (uvmac_set_key user_key len ctx0).
Proof.
  intros Hl Hs. unfold stops_process, uvmac_set_key, uvmac_set_key_fuel.
  set (n := (UVMAC_NHBYTES / 8)%nat) in *.
  change 0 with (Z.of_nat 0) at 1.
  rewrite fill_nhkey_at by lia. cbn [Nat.add].
  destruct (Z.leb_spec (Z.of_nat n) len); [|reflexivity]. cbn [bind].
  rewrite fill_polykey_at by lia.
  destruct (Z.ltb_spec (Z.of_nat n) len); [|reflexivity]. cbn [bind].
  rewrite fill_polykey_at by lia.
  destruct (Z.ltb_spec (Z.of_nat (S n)) len); [|reflexivity]. cbn [bind].
  destruct (fill_l3key_pos (S (Z.to_nat len)) user_key len (Z.of_nat (S (S n)))
              ltac:(lia) ltac:(lia) ltac:(lia)) as (Hn & _).
  destruct (fill_l3key _ user_key len (Z.of_nat (S (S n)))) as [[l0 p3]| |] eqn:E;
    cbn [bind]; [|reflexivity|now contradiction Hn].
  apply fill_l3key_advances in E; [|lia|lia].
  rewrite fill_l3key_at_end by lia. reflexivity.
Qed.

(** A word the rejection loop returns is a word of the key below p64, at or
    after the starting position. *)
Lemma fill_l3key_returns fuel user_key len (p : nat) w pos' :
  len < 2 ^ 64 - 1 -> Z.of_nat p <= len ->
  fill_l3key fuel user_key len (Z.of_nat p) = Returned (w, pos') ->
  exists j, (p <= j)%nat /\ Z.of_nat j < len /\ w = be_word_at user_key j
            /\ w < p64 /\ pos' = Z.of_nat (S j).
Proof.
  intros Hl. revert p. induction fuel as [|fuel IH]; intros p Hp;
    cbn [fill_l3key]; [discriminate|].
  rewrite consume_word_at by lia.
  destruct (Z.ltb_spec (Z.of_nat p) len); cbn [bind]; [|discriminate].
  destruct (Z.geb_spec (be_word_at user_key p) p64) as [_ | Hw].
  - intros E. apply IH in E; [|lia].
    destruct E as (j & Hj & R). exists j. split; [lia | exact R].
  - intros E. injection E as <- <-. exists p. repeat split; auto; lia.
Qed.

(** X13: Without two words below p64 from position UVMAC_NHBYTES/8 + 2 on,
    [uvmac_set_key] never initialises a context: the rejection loop runs off
    the end of the key and [get64bitsOfKey] stops the process. *)
Theorem set_key_runs_out_of_key user_key len ctx0 :
  let n := (UVMAC_NHBYTES / 8)%nat in
  let w := be_word_at user_key in
  0 <= len < 2 ^ 32 ->
  (forall i j, (n + 2 <= i < j)%nat -> Z.of_nat j < len ->
               w i < p64 -> p64 <= w j) ->
  stops_process (uvmac_set_key user_key len ctx0).
Proof.
  intros n w Hl Hno. unfold stops_process, uvmac_set_key, uvmac_set_key_fuel.
  fold n. change 0 with (Z.of_nat 0) at 1.
  rewrite fill_nhkey_at by lia. cbn [Nat.add].
  destruct (Z.leb_spec (Z.of_nat n) len); [|reflexivity]. cbn [bind].
  rewrite fill_polykey_at by lia.
  destruct (Z.ltb_spec (Z.of_nat n) len); [|reflexivity]. cbn [bind].
  rewrite fill_polykey_at by lia.
  destruct (Z.ltb_spec (Z.of_nat (S n)) len); [|reflexivity]. cbn [bind].
  destruct (fill_l3key_pos (S (Z.to_nat len)) user_key len (Z.of_nat (S (S n)))
              ltac:(lia) ltac:(lia) ltac:(lia)) as (Hn & _).
  destruct (fill_l3key _ user_key len (Z.of_nat (S (S n)))) as [[l0 p3]| |] eqn:E;
    cbn [bind]; [|reflexivity|now contradiction Hn].
  apply fill_l3key_returns in E; [|lia|lia].
  destruct E as (i & Hi & Hil & -> & Hwi & ->).
  destruct (fill_l3key_pos (S (Z.to_nat len)) user_key len (Z.of_nat (S i))
              ltac:(lia) ltac:(lia) ltac:(lia)) as (Hn' & _).
  destruct (fill_l3key _ user_key len (Z.of_nat (S i))) as [[l1 p4]| |] eqn:E';
    cbn [bind]; [|reflexivity|now contradiction Hn'].
  apply fill_l3key_returns in E'; [|lia|lia].
  destruct E' as (j & Hj & Hjl & -> & Hwj & _).
  specialize (Hno i j ltac:(lia) Hjl Hwi). subst w. cbv beta in Hno. lia.
Qed.

(** ** Byte swapping *)

Lemma load_le_word n p : 0 <= load_le n p < 2 ^ (8 * Z.of_nat n).
Proof.
  revert p. induction n as [|n IH]; intros p.
  - cbn. lia.
  - cbn [load_le]. pose proof (byte_val_range (hd x00 p)).
    specialize (IH (tl p)).
    replace (8 * Z.of_nat (S n)) with (8 + 8 * Z.of_nat n) by lia.
    rewrite Z.pow_add_r by lia. lia.
Qed.

Lemma bswap64_halves lo hi :
  0 <= lo < 2 ^ 32 -> 0 <= hi < 2 ^ 32 ->
  bswap64 (lo + 2 ^ 32 * hi) = bswap32 lo * 2 ^ 32 + bswap32 hi.
Proof.
  intros Hlo Hhi. unfold bswap64, u32.
  rewrite Z.shiftr_div_pow2 by lia.
  replace ((lo + 2 ^ 32 * hi) mod 2 ^ 32) with lo by dm.
  replace ((lo + 2 ^ 32 * hi) / 2 ^ 32) with hi by dm.
  reflexivity.
Qed.

Lemma bytes_of_word32 x : 0 <= x < 2 ^ 32 ->
  exists c0 c1 c2 c3,
    (0 <= c0 < 2 ^ 8 /\ 0 <= c1 < 2 ^ 8 /\ 0 <= c2 < 2 ^ 8 /\ 0 <= c3 < 2 ^ 8)
    /\ x = c0 + 2 ^ 8 * (c1 + 2 ^ 8 * (c2 + 2 ^ 8 * c3)).
Proof.
  intros Hx.
  exists (x mod 2 ^ 8), (x / 2 ^ 8 mod 2 ^ 8), (x / 2 ^ 16 mod 2 ^ 8), (x / 2 ^ 24).
  split; dm.
Qed.

Lemma bswap64_inv y : word64 y -> bswap64 (bswap64 y) = y.
Proof.
  intros Wy. destruct (split32 y Wy) as (Ey & Bh & Bl).
  destruct (bytes_of_word32 _ Bl) as (c0 & c1 & c2 & c3 & Rc & Ec).
  destruct (bytes_of_word32 _ Bh) as (c4 & c5 & c6 & c7 & Rd & Ed).
  set (lo := y mod 2 ^ 32) in *. set (hi := y / 2 ^ 32) in *.
  replace y with (lo + 2 ^ 32 * hi) by lia.
  rewrite bswap64_halves by lia.
  rewrite Ec, Ed, !bswap32_bytes by tauto.
  set (rhi := c3 + 2 ^ 8 * (c2 + 2 ^ 8 * (c1 + 2 ^ 8 * c0))).
  set (rlo := c7 + 2 ^ 8 * (c6 + 2 ^ 8 * (c5 + 2 ^ 8 * c4))).
  replace (rhi * 2 ^ 32 + rlo) with (rlo + 2 ^ 32 * rhi) by lia.
  rewrite bswap64_halves by (subst rlo rhi; lia).
  subst rlo rhi. rewrite !bswap32_bytes by tauto. lia.
Qed.

Lemma get64LE_reversed p : get64LE p = bswap64 (get64BE p).
Proof. unfold get64BE. symmetry. apply bswap64_inv. apply (load_le_word 8 p). Qed.

(** X14: [bswap64] is its own inverse on 64-bit words, so the two byte orders
    [get64LE] and [get64BE] determine each other. *)
Theorem bswap64_involutive x p :
  word64 x ->
  bswap64 (bswap64 x) = x /\ get64LE p = bswap64 (get64BE p).
Proof.
  intros Wx. split; [apply bswap64_inv; exact Wx | apply get64LE_reversed].
Qed.

(** X15: The two loads do not depend on the host's byte order: on a big-endian
    host, where [get64BE] is the native load and [get64LE] the reversed
    one, both return what they return on a little-endian host. *)
Theorem loads_are_host_independent p :
  BigEndianHost.get64BE p = get64BE p /\ BigEndianHost.get64LE p = get64LE p.
Proof.
  unfold BigEndianHost.get64BE, BigEndianHost.get64LE, BigEndianHost.native_load.
  rewrite get64LE_reversed, get64BE_big_endian. split; reflexivity.
Qed.

(** ** The command-line callers *)

Lemma vhash_update_record m mbytes ctx :
  vhash_update m mbytes ctx
  = {| nhkey := nhkey ctx; polykey := polykey ctx; l3key := l3key ctx;
       polytmp := polytmp (vhash_update m mbytes ctx);
       first_block_processed := true |}.
Proof.
  unfold vhash_update.
  destruct (polykey ctx) as [pkh pkl] eqn:Ep, (polytmp ctx) as [ch cl].
  destruct (negb (first_block_processed ctx)).
  - destruct (nh_vhash_nhbytes _ _ _), (poly_blocks _ _ _ _ _ _). reflexivity.
  - destruct (poly_blocks _ _ _ _ _ _). reflexivity.
Qed.

(** [vhash_update] over [j] blocks reads the first [j] blocks only. *)
Lemma vhash_update_agree m1 m2 j ctx :
  (0 < j)%nat ->
  firstn (j * UVMAC_NHBYTES) m1 = firstn (j * UVMAC_NHBYTES) m2 ->
  vhash_update m1 (j * UVMAC_NHBYTES) ctx = vhash_update m2 (j * UVMAC_NHBYTES) ctx.
Proof.
  intros Hj E.
  rewrite (vhash_update_record m1), (vhash_update_record m2). f_equal.
  rewrite !vhash_update_polytmp.
  assert (HB : (UVMAC_NHBYTES <= j * UVMAC_NHBYTES)%nat)
    by (destruct j; [lia | cbn [Nat.mul]; lia]).
  destruct (first_block_processed ctx).
  - now apply (poly_blocks_agree j (j * UVMAC_NHBYTES)).
  - rewrite !nh_vhash_nhbytes_nh_16.
    rewrite (nh_16_agree (j * UVMAC_NHBYTES) m1 m2)
      by (auto; pose proof block_words; lia).
    destruct (nh_16 m2 (nhkey ctx) (UVMAC_NHBYTES / 8)) as [rh rl].
    rewrite !advance_block.
    apply (poly_blocks_agree _ (j * UVMAC_NHBYTES - UVMAC_NHBYTES)).
    + now apply skipn_agree.
    + destruct j; [lia|]. cbn [Nat.pred Nat.mul]. lia.
Qed.

Lemma uvmac_split P Q qbytes j ctx key klen pos :
  (0 < j)%nat -> length P = (j * UVMAC_NHBYTES)%nat ->
  key_domain ctx -> consistent ctx ->
  uvmac (P ++ Q) (j * UVMAC_NHBYTES + qbytes) ctx key klen pos
  = uvmac Q qbytes (vhash_update P (j * UVMAC_NHBYTES) ctx) key klen pos.
Proof.
  intros Hj HP Hk Hc.
  pose proof (vhash_poly_split P Q qbytes j ctx Hj HP Hk Hc) as E.
  destruct (vhash_update_fields P (j * UVMAC_NHBYTES) ctx) as (En & Ep & El & Ef).
  rewrite !uvmac_unfold, !vhash_fst, E, El, abort_after_update.
  unfold vhash_len. now rewrite mod_blocks.
Qed.

Lemma update_keeps_domain m mbytes ctx :
  key_domain ctx ->
  key_domain (vhash_update m mbytes ctx) /\ consistent (vhash_update m mbytes ctx).
Proof.
  intros Hk. split.
  - apply (key_domain_key_material ctx); [apply vhash_update_key_material | exact Hk].
  - apply contexts_are_consistent.
Qed.

Lemma padded_len_16 s : padded_len s = (16 * ((s + 15) / 16))%nat.
Proof.
  unfold padded_len. destruct NHBYTES_16 as (b & Hb & EB).
  pose proof (Nat.div_mod_eq s UVMAC_NHBYTES) as Es.
  set (q := (s / UVMAC_NHBYTES)%nat) in *. set (r := (s mod UVMAC_NHBYTES)%nat) in *.
  clearbody q r.
  replace (s + 15)%nat with ((b * q) * 16 + (r + 15))%nat by nia.
  rewrite Nat.div_add_l by lia. nia.
Qed.

Lemma uvmac_agree m1 m2 mbytes ctx key klen pos :
  firstn (padded_len mbytes) m1 = firstn (padded_len mbytes) m2 ->
  uvmac m1 mbytes ctx key klen pos = uvmac m2 mbytes ctx key klen pos.
Proof.
  intros E. rewrite !uvmac_unfold, !vhash_fst.
  now rewrite (vhash_poly_agree m1 m2 mbytes ctx E).
Qed.

Lemma firstn_app_le (A B : list byte) n :
  (n <= length A)%nat -> firstn n (A ++ B) = firstn n A.
Proof.
  intros H. rewrite firstn_app.
  replace (n - length A)%nat with 0%nat by lia.
  cbn [firstn]. apply app_nil_r.
Qed.

Lemma firstn_app_ge (A B : list byte) n :
  (length A <= n)%nat -> firstn n (A ++ B) = A ++ firstn (n - length A) B.
Proof. intros H. rewrite firstn_app, firstn_all2 by lia. reflexivity. Qed.

(** A tail followed by zeros, cut at the next 16-byte boundary. *)
Lemma firstn_padded_zeros (tail : list byte) k :
  (16 * ((length tail + 15) / 16) - length tail <= k)%nat ->
  firstn (16 * ((length tail + 15) / 16)) (tail ++ repeat x00 k)
  = tail ++ repeat x00 (16 * ((length tail + 15) / 16) - length tail).
Proof.
  intros Hk.
  assert (Hge : (length tail <= 16 * ((length tail + 15) / 16))%nat).
  { pose proof (Nat.div_mod_eq (length tail + 15) 16).
    pose proof (Nat.mod_upper_bound (length tail + 15) 16). lia. }
  rewrite firstn_app_ge by lia. f_equal.
  set (d := (16 * ((length tail + 15) / 16) - length tail)%nat) in *.
  replace k with (d + (k - d))%nat by lia.
  rewrite repeat_app, firstn_app_le by (rewrite repeat_length; lia).
  apply firstn_all2. rewrite repeat_length. lia.
Qed.

Section Authenticate.

Hypothesis NHBYTES_divides_bufferSize :
  exists j, (0 < j)%nat /\ bufferSize = (j * UVMAC_NHBYTES)%nat.

Lemma authenticate_loop_spec fuel rest buffer ctx key klen pos :
  (length rest < fuel)%nat -> length buffer = (bufferSize + 1)%nat ->
  key_domain ctx -> consistent ctx ->
  exists buffer' s ctx',
    authenticate_loop fuel rest buffer ctx = Some (buffer', s, ctx')
    /\ (s < bufferSize)%nat
    /\ length buffer' = (bufferSize + 1)%nat
    /\ (exists tail, length tail = s
                     /\ firstn (S s) buffer' = tail ++ [x00]
                     /\ uvmac (tail ++ repeat x00 16) s ctx' key klen pos
                        = uvmac (rest ++ repeat x00 16) (length rest) ctx key klen pos).
Proof.
  destruct NHBYTES_divides_bufferSize as (j & Hj & EB).
  revert rest buffer ctx.
  induction fuel as [|fuel IH]; intros rest buffer ctx Hf Hb Hk Hc; [lia|].
  cbn [authenticate_loop]. unfold stream_read.
  destruct (Nat.leb_spec bufferSize (length rest)) as [Hfull | Hshort].
  - (* a full chunk: absorbed, and the loop goes on *)
    rewrite Nat.eqb_refl.
    set (chunk := firstn bufferSize rest).
    assert (Lc : length chunk = bufferSize)
      by (subst chunk; rewrite length_firstn; lia).
    set (buf1 := store (overwrite chunk buffer) bufferSize x00).
    assert (Eb1 : firstn bufferSize buf1 = chunk).
    { subst buf1. unfold store, overwrite.
      rewrite firstn_app_le by (rewrite length_firstn, length_app, length_skipn; lia).
      rewrite firstn_firstn, Nat.min_id, firstn_app_le by lia.
      apply firstn_all2. lia. }
    assert (Lb1 : length buf1 = (bufferSize + 1)%nat).
    { subst buf1. unfold store, overwrite.
      rewrite length_app, length_firstn. cbn [length].
      rewrite length_skipn, !length_app, !length_skipn. lia. }
    assert (Eu : vhash_update buf1 bufferSize ctx = vhash_update chunk bufferSize ctx).
    { rewrite EB. apply vhash_update_agree; [exact Hj|]. rewrite <- EB.
      rewrite Eb1. symmetry. apply firstn_all2. lia. }
    rewrite Eu.
    destruct (update_keeps_domain chunk bufferSize ctx Hk) as (Hk' & Hc').
    destruct (IH (skipn bufferSize rest) buf1 (vhash_update chunk bufferSize ctx))
      as (b' & s & c' & El & Hs & Lb & tail & Lt & Et & Eq); auto.
    { rewrite length_skipn. unfold bufferSize in *. lia. }
    exists b', s, c'. split; [exact El|]. split; [exact Hs|]. split; [exact Lb|].
    exists tail. split; [exact Lt|]. split; [exact Et|].
    rewrite Eq.
    rewrite <- (firstn_skipn bufferSize rest) at 3 4. fold chunk.
    rewrite <- app_assoc, length_app, Lc, length_skipn.
    rewrite EB. symmetry. apply uvmac_split; auto. now rewrite <- EB.
  - (* the last, short read: the loop ends *)
    destruct (Nat.eqb_spec (length rest) bufferSize) as [He | _]; [lia|].
    exists (store (overwrite rest buffer) (length rest) x00), (length rest), ctx.
    split; [reflexivity|]. split; [lia|]. split.
    { unfold store, overwrite.
      rewrite length_app, length_firstn. cbn [length].
      rewrite length_skipn, !length_app, !length_skipn. lia. }
    exists rest. split; [reflexivity|]. split; [|reflexivity].
    unfold store, overwrite.
    rewrite firstn_app_ge
      by (rewrite length_firstn, length_app, length_skipn; lia).
    rewrite length_firstn, length_app, length_skipn.
    replace (Nat.min (length rest) (length rest + (length buffer - length rest)))
      with (length rest) by lia.
    replace (S (length rest) - length rest)%nat with 1%nat by lia.
    cbn [firstn]. f_equal.
    rewrite firstn_app_le by lia. apply firstn_all2. lia.
Qed.

Lemma authenticate_whole file ctx key2 :
  key_domain ctx -> consistent ctx ->
  authenticate file ctx key2
  = Some (uvmac (file ++ repeat x00 16) (length file) ctx key2
            (Z.of_nat (length key2 / 8)) 0).
Proof.
  intros Hk Hc. unfold authenticate.
  destruct (authenticate_loop_spec (S (length file)) file
              (repeat x00 (bufferSize + 1)) ctx key2
              (Z.of_nat (length key2 / 8)) 0)
    as (b' & s & c' & El & Hs & Lb & tail & Lt & Et & Eq);
    auto using repeat_length.
  rewrite El. f_equal. rewrite <- Eq. clear Eq El.
  subst s. set (s := length tail) in *.
  apply uvmac_agree. rewrite padded_len_16.
  assert (Hb' : b' = tail ++ x00 :: skipn (S s) b').
  { rewrite <- (firstn_skipn (S s) b') at 1. rewrite Et, <- app_assoc. reflexivity. }
  pose proof (Nat.div_mod_eq s 16) as Edm.
  pose proof (Nat.mod_upper_bound s 16 ltac:(lia)) as Bm.
  assert (Hpad : firstn (16 * ((s + 15) / 16)) (tail ++ repeat x00 16)
                 = tail ++ repeat x00 (16 * ((s + 15) / 16) - s)).
  { apply firstn_padded_zeros. fold s.
    pose proof (Nat.div_mod_eq (s + 15) 16).
    pose proof (Nat.mod_upper_bound (s + 15) 16). lia. }
  rewrite Hpad. clear Hpad.
  destruct (Nat.ltb_spec 0 s) as [Hpos | Hz]; cbn [andb].
  - destruct (Nat.eqb_spec (s mod 16) 0) as [Hm | Hm]; cbn [negb].
    + (* already on a 16-byte boundary *)
      assert (E16 : (16 * ((s + 15) / 16) = s)%nat).
      { replace (s + 15)%nat with (s / 16 * 16 + 15)%nat by lia.
        rewrite Nat.div_add_l by lia. change (15 / 16)%nat with 0%nat. lia. }
      rewrite E16, Nat.sub_diag. cbn [repeat].
      rewrite app_nil_r, Hb', firstn_app_le by (fold s; lia).
      apply firstn_all2. fold s. lia.
    + (* zeros up to the next boundary *)
      assert (E16 : (16 * ((s + 15) / 16) = (s / 16 + 1) * 16)%nat).
      { replace (s + 15)%nat with ((s / 16 + 1) * 16 + (s mod 16 - 1))%nat by lia.
        rewrite Nat.div_add_l by lia.
        rewrite (Nat.div_small (s mod 16 - 1) 16) by lia. lia. }
      rewrite E16.
      set (h := ((s / 16 + 1) * 16)%nat) in *.
      assert (Hh : (s < h <= bufferSize)%nat).
      { subst h. unfold bufferSize in *. split; [lia|].
        assert (s / 16 < 64)%nat by (apply Nat.Div0.div_lt_upper_bound; lia). lia. }
      unfold zero_range.
      destruct (Nat.ltb_spec s h); [|lia].
      rewrite firstn_app_ge by (rewrite length_firstn; lia).
      rewrite length_firstn.
      replace (Nat.min s (length b')) with s by lia.
      f_equal.
      * rewrite Hb', firstn_app_le by (fold s; lia). apply firstn_all2. fold s. lia.
      * rewrite firstn_app_le by (rewrite repeat_length; lia).
        apply firstn_all2. rewrite repeat_length. lia.
  - (* nothing left: no byte is read *)
    assert (E0 : s = 0%nat) by lia. rewrite E0. cbn.
    destruct tail; [reflexivity | cbn [length] in s; lia].
Qed.

(** X16: The [authenticate] program tags the whole file: whatever the file's
    length, reading it in chunks of [bufferSize] bytes, absorbing each full
    chunk with [vhash_update] and finishing with [uvmac] gives the tag of one
    [uvmac] call on the file followed by zero padding. *)
Theorem authenticate_tags_the_file file ctx key2 :
  key_domain ctx -> consistent ctx ->
  authenticate file ctx key2
  = Some (uvmac (file ++ repeat x00 16) (length file) ctx key2
            (Z.of_nat (length key2 / 8)) 0).
Proof. exact (authenticate_whole file ctx key2). Qed.

End Authenticate.

Lemma firstn_padded_junk (tail junk : list byte) k :
  (16 * ((length tail + 15) / 16) - length tail <= k)%nat ->
  firstn (16 * ((length tail + 15) / 16)) (tail ++ repeat x00 k ++ junk)
  = tail ++ repeat x00 (16 * ((length tail + 15) / 16) - length tail).
Proof.
  intros Hk. rewrite app_assoc.
  assert (Hge : (length tail <= 16 * ((length tail + 15) / 16))%nat).
  { pose proof (Nat.div_mod_eq (length tail + 15) 16).
    pose proof (Nat.mod_upper_bound (length tail + 15) 16). lia. }
  rewrite firstn_app_le by (rewrite length_app, repeat_length; lia).
  now apply firstn_padded_zeros.
Qed.

Section UvmacFile.

Variable len : nat.
Hypothesis NHBYTES_divides_len : exists j, (0 < j)%nat /\ len = (j * UVMAC_NHBYTES)%nat.

Lemma uvmac_file_loop_spec fuel rest m ctx key klen pos :
  (0 < length rest < fuel)%nat -> length m = (len + 16)%nat ->
  key_domain ctx -> consistent ctx ->
  uvmac_file_loop fuel len rest m ctx key klen pos
  = Some (uvmac (removelast rest ++ repeat x00 16) (length rest - 1) ctx
            key klen pos).
Proof.
  destruct NHBYTES_divides_len as (j & Hj & EB).
  assert (Hlen : (0 < len)%nat) by (pose proof NHBYTES_pos; nia).
  revert rest m ctx.
  induction fuel as [|fuel IH]; intros rest m ctx Hf Hm Hk Hc; [lia|].
  cbn [uvmac_file_loop].
  destruct (Nat.le_gt_cases (length rest) len) as [Hlast | Hmore].
  - (* the last chunk: one byte short *)
    replace (Nat.min (length rest) len) with (length rest) by lia.
    destruct (Nat.ltb_spec (length rest) (length rest)); [lia|].
    f_equal. apply uvmac_agree. rewrite padded_len_16.
    rewrite firstn_all. unfold overwrite, zero_range.
    replace (Nat.min (length rest + 16) (len + 16)) with (length rest + 16)%nat by lia.
    destruct (Nat.ltb_spec (length rest - 1) (length rest + 16)); [|lia].
    assert (Er : firstn (length rest - 1) (rest ++ skipn (length rest) m)
                 = removelast rest).
    { rewrite firstn_app_le by lia.
      rewrite Nat.sub_1_r. symmetry. apply removelast_firstn_len. }
    rewrite Er.
    assert (Lr : (length rest - 1)%nat = length (removelast rest)).
    { rewrite removelast_firstn_len, length_firstn. lia. }
    rewrite Lr.
    assert (Hd : (16 * ((length (removelast rest) + 15) / 16)
                  - length (removelast rest) <= 15)%nat).
    { pose proof (Nat.div_mod_eq (length (removelast rest) + 15) 16).
      pose proof (Nat.mod_upper_bound (length (removelast rest) + 15) 16). lia. }
    rewrite firstn_padded_junk, firstn_padded_zeros by lia. reflexivity.
  - (* a full chunk: absorbed, and the loop goes on *)
    replace (Nat.min (length rest) len) with len by lia.
    destruct (Nat.ltb_spec len (length rest)); [|lia].
    replace (len mod UVMAC_NHBYTES)%nat with 0%nat
      by (rewrite EB; symmetry; apply Nat.Div0.mod_mul).
    cbn [Nat.eqb].
    set (chunk := firstn len rest).
    assert (Lc : length chunk = len) by (subst chunk; rewrite length_firstn; lia).
    assert (Eu : vhash_update (overwrite chunk m) len ctx = vhash_update chunk len ctx).
    { rewrite EB. apply vhash_update_agree; [exact Hj|]. rewrite <- EB.
      unfold overwrite. rewrite <- Lc, firstn_app_le by lia. reflexivity. }
    rewrite Eu.
    destruct (update_keeps_domain chunk len ctx Hk) as (Hk' & Hc').
    rewrite IH; auto.
    + f_equal.
      rewrite <- (firstn_skipn len rest) at 3 4. fold chunk.
      assert (Hne : skipn len rest <> []).
      { intros E. apply (f_equal (@length byte)) in E.
        rewrite length_skipn in E. cbn [length] in E. lia. }
      rewrite removelast_app by exact Hne.
      rewrite <- app_assoc, length_app, Lc, length_skipn.
      replace (len + (length rest - len) - 1)%nat
        with (len + (length rest - len - 1))%nat by lia.
      rewrite EB. symmetry. apply uvmac_split; auto. now rewrite <- EB.
    + rewrite length_skipn. lia.
    + unfold overwrite. rewrite length_app, length_skipn. lia.
Qed.

Lemma uvmac_file_loop_whole body l ctx key klen pos :
  key_domain ctx -> consistent ctx ->
  uvmac_file_loop (S (length (body ++ [l]))) len (body ++ [l])
    (repeat x00 (len + 16)) ctx key klen pos
  = Some (uvmac (body ++ repeat x00 16) (length body) ctx key klen pos).
Proof.
  intros Hk Hc.
  rewrite uvmac_file_loop_spec.
  - rewrite removelast_last, length_app. cbn [length].
    replace (length body + 1 - 1)%nat with (length body) by lia. reflexivity.
  - rewrite length_app. cbn [length]. lia.
  - apply repeat_length.
  - exact Hk.
  - exact Hc.
Qed.

End UvmacFile.

(** X17: The [uvmac] program leaves the last byte of the file out of the tag:
    for a file [body] followed by one byte [last], reading it in chunks of
    [buf_len] bytes gives the tag of one [uvmac] call on [body] followed by
    zero padding, so the tag is the same for every [last]. *)
Theorem uvmac_file_drops_last_byte body last last' ctx key klen pos :
  (exists j, (0 < j)%nat /\ buf_len = (j * UVMAC_NHBYTES)%nat) ->
  key_domain ctx -> consistent ctx ->
  uvmac_file (body ++ [last]) ctx key klen pos
  = Some (uvmac (body ++ repeat x00 16) (length body) ctx key klen pos)
  /\ uvmac_file (body ++ [last]) ctx key klen pos
     = uvmac_file (body ++ [last']) ctx key klen pos.
Proof.
  intros Hd Hk Hc.
  assert (G : forall l, uvmac_file (body ++ [l]) ctx key klen pos
                        = Some (uvmac (body ++ repeat x00 16) (length body) ctx
                                  key klen pos)).
  { intros l. unfold uvmac_file.
    destruct (body ++ [l]) as [|b file] eqn:E.
    - now destruct body.
    - rewrite <- E. exact (uvmac_file_loop_whole buf_len Hd body l ctx key klen pos Hk Hc). }
  split; [apply G|]. rewrite (G last), (G last'). reflexivity.
Qed.

(** *** The [uvmac] program as a whole *)

Lemma load_be_firstn n (p : list byte) : load_be n (firstn n p) = load_be n p.
Proof.
  revert p. induction n as [|n IH]; intros p; [reflexivity|].
  destruct p as [|b p]; [reflexivity|].
  cbn [firstn load_be hd tl]. now rewrite IH.
Qed.

Lemma load_be_app n (c t : list byte) :
  (n <= length c)%nat -> load_be n (c ++ t) = load_be n c.
Proof.
  revert c. induction n as [|n IH]; intros c H; [reflexivity|].
  destruct c as [|b c]; [cbn [length] in H; lia|].
  cbn [app load_be hd tl]. rewrite IH by (cbn [length] in H; lia). reflexivity.
Qed.

(** After [k] more turns the pad buffer starts with the 8 bytes of the last
    word read. *)
Lemma pad_key_loop_spec messageNumber k :
  forall fuel co rest data,
    co + Z.of_nat (S k) = messageNumber + 1 ->
    (S k < fuel)%nat -> (8 * S k <= length rest)%nat ->
    exists junk,
      pad_key_loop fuel co messageNumber rest data
      = Some (Some (firstn 8 (skipn (8 * k) rest) ++ junk)).
Proof.
  induction k as [|k IH]; intros fuel co rest data Hco Hf Hl;
    (destruct fuel as [|fuel]; [lia|]); cbn [pad_key_loop];
    (destruct (Z.leb_spec co messageNumber); [|lia]);
    unfold stream_read;
    (destruct (Nat.leb_spec 8 (length rest)); [|lia]).
  - destruct fuel as [|fuel]; [lia|]. cbn [pad_key_loop].
    destruct (Z.leb_spec (co + 1) messageNumber); [lia|].
    unfold overwrite. eexists. reflexivity.
  - destruct (IH fuel (co + 1) (skipn 8 rest) (overwrite (firstn 8 rest) data))
      as (junk & E).
    + lia.
    + lia.
    + rewrite length_skipn. lia.
    + exists junk. rewrite E, skipn_skipn.
      replace (8 * k + 8)%nat with (8 * S k)%nat by lia. reflexivity.
Qed.

(** X18: The [uvmac] program end to end: with a hash key file of at least 160
    bytes on which the key schedule gives [ctx], a message number n >= 0, a
    pad key file of at least 8*(n+1) bytes and an input file [body] followed
    by one byte, the value written to the tag file is word n of the pad key
    file, read big-endian, plus the VHASH of [body], modulo 2^64. *)
Theorem uvmac_main_tag hashKeyFile padKeyFile body last messageNumber ctx0 data0 ctx :
  (exists j, (0 < j)%nat /\ buf_len = (j * UVMAC_NHBYTES)%nat) ->
  (160 <= length hashKeyFile)%nat ->
  uvmac_set_key (firstn 160 hashKeyFile) 20 ctx0 = Returned ctx ->
  0 <= messageNumber ->
  8 * (messageNumber + 1) <= Z.of_nat (length padKeyFile) ->
  uvmac_main hashKeyFile padKeyFile (body ++ [last]) messageNumber ctx0 data0
  = Some (Returned (TagWritten
            (u64 (be_word_at padKeyFile (Z.to_nat messageNumber)
                  + fst (vhash (body ++ repeat x00 16) (length body) ctx))))).
Proof.
  intros Hd Hh Hs Hn Hp. unfold uvmac_main.
  change (Z.to_nat 20 * 8)%nat with 160%nat. unfold stream_read at 1.
  destruct (Nat.leb_spec 160 (length hashKeyFile)); [|lia].
  cbn [negb]. rewrite Hs.
  destruct (uvmac_set_key_fuel_inv _ _ _ ctx0 ctx Hs) as (Hk & Hf).
  assert (Hc : consistent ctx) by (intros _; apply Hf).
  destruct (pad_key_loop_spec messageNumber (Z.to_nat messageNumber)
              (2 + length padKeyFile) 0 padKeyFile data0) as (junk & E);
    [lia | lia | lia |].
  rewrite E.
  assert (G : uvmac_file (body ++ [last]) ctx
                (firstn 8 (skipn (8 * Z.to_nat messageNumber) padKeyFile) ++ junk) 1 0
              = Some (uvmac (body ++ repeat x00 16) (length body) ctx
                        (firstn 8 (skipn (8 * Z.to_nat messageNumber) padKeyFile) ++ junk)
                        1 0)).
  { unfold uvmac_file.
    destruct (body ++ [last]) as [|b file] eqn:Eb.
    - now destruct body.
    - rewrite <- Eb. exact (uvmac_file_loop_whole buf_len Hd body last ctx _ 1 0 Hk Hc). }
  rewrite G, uvmac_unfold.
  change (u64 (0 + 1) >? 1) with false. cbv beta iota.
  rewrite get64BE_big_endian. unfold advance, be_word_at.
  change (8 * Z.to_nat 0)%nat with 0%nat. cbn [skipn].
  rewrite load_be_app, load_be_firstn.
  - reflexivity.
  - rewrite length_firstn, length_skipn. lia.
Qed.

(** *** The [authenticate] program as a whole *)

Lemma load_key_spec file key nbRead maxToRead :
  (nbRead <= maxToRead)%nat ->
  load_key file key nbRead maxToRead
  = (key ++ firstn (maxToRead - nbRead) file,
     (nbRead + Nat.min (maxToRead - nbRead) (length file))%nat).
Proof.
  revert key nbRead. induction file as [|c1 file IH]; intros key nbRead H;
    cbn [load_key].
  - rewrite firstn_nil, app_nil_r. cbn [length]. f_equal. lia.
  - destruct (Nat.ltb_spec nbRead maxToRead).
    + rewrite IH by lia.
      replace (maxToRead - nbRead)%nat with (S (maxToRead - S nbRead)) by lia.
      cbn [firstn length]. rewrite <- app_assoc. cbn [app]. f_equal. lia.
    + replace (maxToRead - nbRead)%nat with 0%nat by lia.
      cbn [firstn]. rewrite app_nil_r. f_equal. lia.
Qed.

(** X19: The [authenticate] program end to end: with a hash key file of at least
    160 bytes, of which the first 340 are used, on which the key schedule
    gives [ctx], and a tag key file of at least 8 bytes, the tag written is
    the first word of the tag key file, read big-endian, plus the VHASH of the
    whole input file, modulo 2^64. *)
Theorem authenticate_main_tag inputFile uHashKeyFile tagKeyFile ctx0 ctx :
  (exists j, (0 < j)%nat /\ bufferSize = (j * UVMAC_NHBYTES)%nat) ->
  (160 <= length uHashKeyFile)%nat ->
  uvmac_set_key (firstn 340 uHashKeyFile)
    (Z.of_nat (Nat.min 340 (length uHashKeyFile) / 8)) ctx0 = Returned ctx ->
  (8 <= length tagKeyFile)%nat ->
  authenticate_main inputFile uHashKeyFile tagKeyFile ctx0
  = Some (Returned (TagWritten
            (u64 (be_word_at tagKeyFile 0
                  + fst (vhash (inputFile ++ repeat x00 16) (length inputFile)
                           ctx))))).
Proof.
  intros Hd Hh Hs Ht. unfold authenticate_main.
  rewrite !load_key_spec by lia. cbn [app Nat.add]. rewrite !Nat.sub_0_r.
  destruct (Nat.ltb_spec (Nat.min 340 (length uHashKeyFile)) 160); [lia|].
  rewrite Hs.
  destruct (Nat.ltb_spec (Nat.min 8 (length tagKeyFile)) 8); [lia|].
  destruct (uvmac_set_key_fuel_inv _ _ _ ctx0 ctx Hs) as (Hk & Hf).
  assert (Hc : consistent ctx) by (intros _; apply Hf).
  rewrite (authenticate_whole Hd inputFile ctx (firstn 8 tagKeyFile) Hk Hc).
  rewrite length_firstn.
  replace (Nat.min 8 (length tagKeyFile)) with 8%nat by lia.
  change (Z.of_nat (8 / 8)) with 1.
  rewrite uvmac_unfold.
  change (u64 (0 + 1) >? 1) with false. cbv beta iota.
  rewrite get64BE_big_endian. unfold advance, be_word_at.
  change (8 * Z.to_nat 0)%nat with 0%nat. change (8 * 0)%nat with 0%nat.
  cbn [skipn]. rewrite load_be_firstn. reflexivity.
Qed.

(** ** The build for 128-bit tags: two 64-bit lanes *)

Lemma block_step128_lanes mptr kptr pkh pkl pkh2 pkl2 (c c2 : Z * Z) :
  block_step128 mptr kptr (pkh, pkl, pkh2, pkl2) (fst c, snd c, fst c2, snd c2)
  = (fst (block_step mptr kptr pkh pkl c),
     snd (block_step mptr kptr pkh pkl c),
     fst (block_step mptr (skipn 2 kptr) pkh2 pkl2 c2),
     snd (block_step mptr (skipn 2 kptr) pkh2 pkl2 c2)).
Proof.
  unfold block_step128, block_step. rewrite nh_vhash_nhbytes_2_pair.
  destruct c as [ch cl], c2 as [ch2 cl2]. cbn [fst snd].
  destruct (nh_vhash_nhbytes mptr kptr _) as [rh rl].
  destruct (nh_vhash_nhbytes mptr (skipn 2 kptr) _) as [rh2 rl2].
  destruct (poly_step ch2 cl2 _ _ _ _). destruct (poly_step ch cl _ _ _ _).
  reflexivity.
Qed.

Lemma poly_blocks128_lanes i mptr kptr pkh pkl pkh2 pkl2 (c c2 : Z * Z) :
  poly_blocks128 i mptr kptr (pkh, pkl, pkh2, pkl2) (fst c, snd c, fst c2, snd c2)
  = ((fst (fst (poly_blocks i mptr kptr pkh pkl c)),
      snd (fst (poly_blocks i mptr kptr pkh pkl c)),
      fst (fst (poly_blocks i mptr (skipn 2 kptr) pkh2 pkl2 c2)),
      snd (fst (poly_blocks i mptr (skipn 2 kptr) pkh2 pkl2 c2))),
     snd (poly_blocks i mptr kptr pkh pkl c)).
Proof.
  revert mptr c c2. induction i as [|i IH]; intros mptr c c2; [reflexivity|].
  cbn [poly_blocks128 poly_blocks]. rewrite block_step128_lanes. apply IH.
Qed.

Lemma poly_blocks_ptr_any i mptr kptr pkh pkl c kptr' pkh' pkl' c' :
  snd (poly_blocks i mptr kptr pkh pkl c)
  = snd (poly_blocks i mptr kptr' pkh' pkl' c').
Proof.
  revert mptr c c'. induction i as [|i IH]; intros mptr c c'; [reflexivity|].
  cbn [poly_blocks]. apply IH.
Qed.

Lemma vhash_rest128_lanes i remaining mptr kptr pkh pkl pkh2 pkl2 (c c2 : Z * Z) :
  vhash_rest128 i remaining mptr kptr (pkh, pkl, pkh2, pkl2)
    (fst c, snd c, fst c2, snd c2)
  = (fst (vhash_rest i remaining mptr kptr pkh pkl c),
     snd (vhash_rest i remaining mptr kptr pkh pkl c),
     fst (vhash_rest i remaining mptr (skipn 2 kptr) pkh2 pkl2 c2),
     snd (vhash_rest i remaining mptr (skipn 2 kptr) pkh2 pkl2 c2)).
Proof.
  unfold vhash_rest128, vhash_rest. rewrite poly_blocks128_lanes.
  pose proof (poly_blocks_ptr_any i mptr kptr pkh pkl c
                (skipn 2 kptr) pkh2 pkl2 c2) as P.
  destruct (poly_blocks i mptr kptr pkh pkl c) as [[ch cl] p1].
  destruct (poly_blocks i mptr (skipn 2 kptr) pkh2 pkl2 c2) as [[ch2 cl2] p2].
  cbn [fst snd] in *. subst p2.
  destruct (negb (remaining =? 0)%nat); [|reflexivity].
  rewrite nh_16_2_pair.
  destruct (nh_16 _ kptr _) as [rh rl].
  destruct (nh_16 _ (skipn 2 kptr) _) as [rh2 rl2].
  destruct (poly_step ch2 cl2 _ _ _ _). destruct (poly_step ch cl _ _ _ _).
  reflexivity.
Qed.

Lemma vhash_poly128_lanes m mbytes ctx :
  vhash_poly128 m mbytes ctx
  = (fst (vhash_poly m mbytes (tag_lane1 ctx)),
     snd (vhash_poly m mbytes (tag_lane1 ctx)),
     fst (vhash_poly m mbytes (tag_lane2 ctx)),
     snd (vhash_poly m mbytes (tag_lane2 ctx))).
Proof.
  destruct ctx as [nh [[[pkh pkl] pkh2] pkl2] [[[l0 l1] l2] l3]
                      [[[t0 t1] t2] t3] fb].
  unfold vhash_poly128, vhash_poly, tag_lane1, tag_lane2.
  cbn [nhkey128 polykey128 l3key128 polytmp128 first_block_processed128
       nhkey polykey l3key polytmp first_block_processed].
  destruct fb.
  - apply (vhash_rest128_lanes _ _ _ _ _ _ _ _ (t0, t1) (t2, t3)).
  - destruct (negb (mbytes / UVMAC_NHBYTES =? 0)%nat).
    + rewrite nh_vhash_nhbytes_2_pair.
      destruct (nh_vhash_nhbytes m nh _) as [ch cl].
      destruct (nh_vhash_nhbytes m (skipn 2 nh) _) as [ch2 cl2].
      destruct (ADD128 (Z.land ch2 m62) cl2 pkh2 pkl2) as [a2 b2] eqn:E2.
      destruct (ADD128 (Z.land ch m62) cl pkh pkl) as [a b] eqn:E1.
      apply (vhash_rest128_lanes _ _ _ _ _ _ _ _ (a, b) (a2, b2)).
    + destruct (negb (mbytes mod UVMAC_NHBYTES =? 0)%nat); [|reflexivity].
      rewrite nh_16_2_pair.
      destruct (nh_16 m nh _) as [ch cl].
      destruct (nh_16 m (skipn 2 nh) _) as [ch2 cl2].
      destruct (ADD128 (Z.land ch2 m62) cl2 pkh2 pkl2).
      destruct (ADD128 (Z.land ch m62) cl pkh pkl). reflexivity.
Qed.

Lemma vhash128_lanes m mbytes ctx :
  vhash128 m mbytes ctx
  = (fst (vhash m mbytes (tag_lane1 ctx)), fst (vhash m mbytes (tag_lane2 ctx)),
     vhash_abort128 ctx).
Proof.
  rewrite !vhash_fst. unfold vhash128. rewrite vhash_poly128_lanes.
  destruct (vhash_poly m mbytes (tag_lane1 ctx)) as [ch cl].
  destruct (vhash_poly m mbytes (tag_lane2 ctx)) as [ch2 cl2].
  destruct ctx as [nh [[[pkh pkl] pkh2] pkl2] [[[l0 l1] l2] l3]
                      [[[t0 t1] t2] t3] fb].
  cbn [tag_lane1 tag_lane2 vhash_abort128 l3key l3key128 polykey128 polytmp128
       nhkey128 first_block_processed128 fst snd].
  reflexivity.
Qed.

Lemma vhash_abort128_lanes ctx :
  tag_lane1 (vhash_abort128 ctx) = vhash_abort (tag_lane1 ctx)
  /\ tag_lane2 (vhash_abort128 ctx) = vhash_abort (tag_lane2 ctx).
Proof.
  destruct ctx as [nh [[[pkh pkl] pkh2] pkl2] [[[l0 l1] l2] l3]
                      [[[t0 t1] t2] t3] fb].
  split; reflexivity.
Qed.

(** X20: With 128-bit tags, [vhash_update] and [vhash_abort] act on the two
    halves of the context as the 64-bit functions do: the first half is
    updated under the NH key as it is, the second under the NH key two words
    further. *)
Theorem tag128_update_is_two_updates m mbytes ctx :
  tag_lane1 (vhash_update128 m mbytes ctx) = vhash_update m mbytes (tag_lane1 ctx)
  /\ tag_lane2 (vhash_update128 m mbytes ctx) = vhash_update m mbytes (tag_lane2 ctx)
  /\ tag_lane1 (vhash_abort128 ctx) = vhash_abort (tag_lane1 ctx)
  /\ tag_lane2 (vhash_abort128 ctx) = vhash_abort (tag_lane2 ctx).
Proof.
  split; [|split; [|apply vhash_abort128_lanes]];
    destruct ctx as [nh [[[pkh pkl] pkh2] pkl2] [[[l0 l1] l2] l3]
                        [[[t0 t1] t2] t3] fb];
    unfold vhash_update128, vhash_update, tag_lane1, tag_lane2;
    cbn [nhkey128 polykey128 l3key128 polytmp128 first_block_processed128
         nhkey polykey l3key polytmp first_block_processed];
    (destruct fb; cbn [negb];
     [ rewrite (poly_blocks128_lanes _ _ _ _ _ _ _ (t0, t1) (t2, t3))
     | rewrite nh_vhash_nhbytes_2_pair;
       destruct (nh_vhash_nhbytes m nh _) as [rh rl];
       destruct (nh_vhash_nhbytes m (skipn 2 nh) _) as [rh2 rl2];
       destruct (ADD128 t2 t3 _ _) as [a2 b2];
       destruct (ADD128 t0 t1 _ _) as [a b];
       rewrite (poly_blocks128_lanes _ _ _ _ _ _ _ (a, b) (a2, b2)) ]);
    cbn [fst snd];
    repeat match goal with
           | |- context [poly_blocks ?i ?p ?k ?x ?y ?c] =>
               destruct (poly_blocks i p k x y c) as [[? ?] ?]
           end;
    reflexivity.
Qed.

(** X21: The 128-bit hash is two 64-bit hashes of the same message: the returned
    word is [vhash] on the first half of the context, [*tagl] is [vhash] on
    the second half, and the context is left as [vhash_abort] leaves it. *)
Theorem tag128_hash_is_two_hashes m mbytes ctx :
  vhash128 m mbytes ctx
  = (fst (vhash m mbytes (tag_lane1 ctx)), fst (vhash m mbytes (tag_lane2 ctx)),
     vhash_abort128 ctx)
  /\ tag_lane1 (vhash_abort128 ctx) = snd (vhash m mbytes (tag_lane1 ctx))
  /\ tag_lane2 (vhash_abort128 ctx) = snd (vhash m mbytes (tag_lane2 ctx)).
Proof.
  split; [apply vhash128_lanes|].
  rewrite !vhash_ctx. apply vhash_abort128_lanes.
Qed.

(** X22: The 128-bit tag is two 64-bit tags: with two pad words left, [uvmac]
    returns the 64-bit tag of the first half of the context under pad word
    [pos], puts in [*tagl] the 64-bit tag of the second half under pad word
    [pos + 1], and advances the position by two. *)
Theorem tag128_is_two_tags m mbytes ctx key klen pos :
  0 <= pos -> pos + 2 <= klen -> klen < 2 ^ 64 ->
  let t1 := u64 (get64BE (advance key (Z.to_nat pos))
                 + fst (vhash m mbytes (tag_lane1 ctx))) in
  let t2 := u64 (get64BE (advance key (Z.to_nat (pos + 1)))
                 + fst (vhash m mbytes (tag_lane2 ctx))) in
  uvmac128 m mbytes ctx key klen pos
    = Returned (t1, t2, vhash_abort128 ctx, pos + 2)
  /\ uvmac m mbytes (tag_lane1 ctx) key klen pos
     = Returned (t1, tag_lane1 (vhash_abort128 ctx), pos + 1)
  /\ uvmac m mbytes (tag_lane2 ctx) key klen (pos + 1)
     = Returned (t2, tag_lane2 (vhash_abort128 ctx), pos + 2).
Proof.
  intros Hp Hk Hl t1 t2. subst t1 t2.
  destruct (vhash_abort128_lanes ctx) as (A1 & A2). rewrite A1, A2.
  rewrite !uvmac_unfold.
  unfold uvmac128, get64bitsOfKey.
  rewrite (u64_small (pos + 1)) by (unfold word64; lia).
  destruct (Z.gtb_spec (pos + 1) klen); [lia|]. cbn [bind].
  rewrite vhash128_lanes.
  replace (pos + 1 + 1) with (pos + 2) by lia.
  rewrite (u64_small (pos + 2)) by (unfold word64; lia).
  destruct (Z.gtb_spec (pos + 2) klen); [lia|]. cbn [bind].
  rewrite (Z.add_comm (fst (vhash m mbytes (tag_lane1 ctx)))).
  rewrite (Z.add_comm (fst (vhash m mbytes (tag_lane2 ctx)))).
  auto.
Qed.

(** X23: With fewer than two pad words left, [uvmac] for 128-bit tags stops the
    process. *)
Theorem tag128_needs_two_pad_words m mbytes ctx key klen pos :
  0 <= pos -> pos + 2 < 2 ^ 64 -> klen < pos + 2 ->
  stops_process (uvmac128 m mbytes ctx key klen pos).
Proof.
  intros Hp Hb Hk. unfold stops_process, uvmac128, get64bitsOfKey.
  rewrite (u64_small (pos + 1)) by (unfold word64; lia).
  destruct (Z.gtb_spec (pos + 1) klen); [reflexivity|]. cbn [bind].
  destruct (vhash128 m mbytes ctx) as [[th tl] c].
  replace (pos + 1 + 1) with (pos + 2) by lia.
  rewrite (u64_small (pos + 2)) by (unfold word64; lia).
  destruct (Z.gtb_spec (pos + 2) klen); [reflexivity | lia].
Qed.

(** X24: A successful [uvmac_set_key] for 128-bit tags leaves both halves of the
    context in the key domain of the 64-bit build and fresh: all four poly
    key words masked, all four l3 key words below p64, [polytmp] equal to
    [polykey] and the first-block flag clear. *)
Theorem set_key128_invariant user_key len ctx0 ctx :
  uvmac_set_key128 user_key len ctx0 = Returned ctx ->
  key_domain (tag_lane1 ctx) /\ fresh (tag_lane1 ctx)
  /\ key_domain (tag_lane2 ctx) /\ fresh (tag_lane2 ctx).
Proof.
  unfold uvmac_set_key128.
  destruct (fill_nhkey _ _ _ _) as [[nh p0]| |]; cbn [bind]; try discriminate.
  destruct (fill_polykey user_key len p0) as [[pk0 p1]| |] eqn:E0;
    cbn [bind]; try discriminate.
  destruct (fill_polykey user_key len p1) as [[pk1 p2]| |] eqn:E1;
    cbn [bind]; try discriminate.
  destruct (fill_polykey user_key len p2) as [[pk2 p3]| |] eqn:E2;
    cbn [bind]; try discriminate.
  destruct (fill_polykey user_key len p3) as [[pk3 p4]| |] eqn:E3;
    cbn [bind]; try discriminate.
  destruct (fill_l3key _ user_key len p4) as [[l0 p5]| |] eqn:E4;
    cbn [bind]; try discriminate.
  destruct (fill_l3key _ user_key len p5) as [[l1 p6]| |] eqn:E5;
    cbn [bind]; try discriminate.
  destruct (fill_l3key _ user_key len p6) as [[l2 p7]| |] eqn:E6;
    cbn [bind]; try discriminate.
  destruct (fill_l3key _ user_key len p7) as [[l3 p8]| |] eqn:E7;
    cbn [bind]; try discriminate.
  intros H. injection H as <-.
  unfold key_domain, fresh, tag_lane1, tag_lane2;
    cbn [polykey128 l3key128 polytmp128 first_block_processed128
         polykey l3key polytmp first_block_processed fst snd].
  pose proof (fill_polykey_inv _ _ _ _ _ E0) as (? & _).
  pose proof (fill_polykey_inv _ _ _ _ _ E1) as (? & _).
  pose proof (fill_polykey_inv _ _ _ _ _ E2) as (? & _).
  pose proof (fill_polykey_inv _ _ _ _ _ E3) as (? & _).
  pose proof (fill_l3key_inv _ _ _ _ _ _ E4).
  pose proof (fill_l3key_inv _ _ _ _ _ _ E5).
  pose proof (fill_l3key_inv _ _ _ _ _ _ E6).
  pose proof (fill_l3key_inv _ _ _ _ _ _ E7).
  tauto.
Qed.

End UVMAC.

(** ** Instances on the self-test data *)

Lemma NHBYTES_128 : exists e : nat, (4 <= e)%nat /\ 128%nat = (2 ^ e)%nat.
Proof. exists 7%nat. split; [lia | reflexivity]. Qed.

Lemma test_ctx_key_domain : key_domain test_ctx.
Proof.
  unfold key_domain, masked, word64. cbn [test_ctx polykey l3key fst snd].
  repeat split; vm_compute; congruence.
Qed.

Lemma test_ctx_fresh : fresh test_ctx.
Proof. split; reflexivity. Qed.

Lemma first_block_add_then_poly_steps_witness :
  (exists e : nat, (4 <= e)%nat /\ 128%nat = (2 ^ e)%nat)
  /\ key_domain test_ctx /\ fresh test_ctx
  /\ val128 (polytmp (vhash_update 128 (test_msg 100) (2 * 128) test_ctx)) mod p127
     = poly_high_first (val128 (polykey test_ctx))
         (1 :: block_hashes 128 2 (test_msg 100) (nhkey test_ctx)) mod p127.
Proof.
  split; [exact NHBYTES_128|]. split; [exact test_ctx_key_domain|].
  split; [exact test_ctx_fresh|].
  exact (proj1 (proj2 (proj2
    (first_block_add_then_poly_steps 128 NHBYTES_128 (test_msg 100) 1 test_ctx
       test_ctx_key_domain test_ctx_fresh)))).
Defined.

(** C1, the stated closed form: after the two full blocks of the self-test
    message, from the fresh self-test context, the state is not congruent to
    the degree-1 polynomial h1 + h2*k whose constant term is the first NH
    value (nor to h1*k + h2). *)
Lemma polytmp_is_not_the_degree_n_minus_1_polynomial :
  let ctx' := vhash_update 128 (test_msg 100) (2 * 128) test_ctx in
  let k := val128 (polykey test_ctx) in
  let hs := block_hashes 128 2 (test_msg 100) (nhkey test_ctx) in
  key_domain test_ctx /\ fresh test_ctx
  /\ val128 (polytmp ctx') mod p127 <> poly_constant_first k hs mod p127
  /\ val128 (polytmp ctx') mod p127 <> poly_high_first k hs mod p127.
Proof.
  cbv zeta. split; [exact test_ctx_key_domain|]. split; [exact test_ctx_fresh|].
  split; vm_compute; intros H; discriminate H.
Qed.

Lemma streaming_equivalence_witness :
  (exists e : nat, (4 <= e)%nat /\ 128%nat = (2 ^ e)%nat)
  /\ (0 < 2)%nat /\ length test_prefix = (2 * 128)%nat
  /\ key_domain test_ctx /\ consistent test_ctx
  /\ uvmac 128 (test_prefix ++ test_suffix) (length test_prefix + 44) test_ctx
       test_key 20 0
     = uvmac 128 test_suffix 44
         (vhash_update 128 test_prefix (length test_prefix) test_ctx)
         test_key 20 0.
Proof.
  assert (Hj : (0 < 2)%nat) by lia.
  assert (Hl : length test_prefix = (2 * 128)%nat) by (vm_compute; reflexivity).
  assert (Hc : consistent test_ctx) by (intros _; reflexivity).
  split; [exact NHBYTES_128|]. split; [exact Hj|]. split; [exact Hl|].
  split; [exact test_ctx_key_domain|]. split; [exact Hc|].
  exact (proj1 (streaming_equivalence 128 NHBYTES_128 test_prefix test_suffix 44 2
                  test_ctx test_key 20 0 Hj Hl test_ctx_key_domain Hc)).
Defined.

Lemma nh_is_the_pairwise_sum_witness :
  (exists e : nat, (4 <= e)%nat /\ 128%nat = (2 ^ e)%nat)
  /\ nh_vhash_nhbytes 128 (test_msg 100) (nhkey test_ctx) (128 / 8)
     = NH (128 / 16) (test_msg 100) (nhkey test_ctx).
Proof.
  pose proof NHBYTES_128 as H.
  split; [exact H|].
  exact (proj2 (nh_is_the_pairwise_sum 128 H (test_msg 100) (nhkey test_ctx))).
Defined.

Lemma poly_step_spec_witness :
  (0 <= 5 < 2 ^ 63 /\ word64 7 /\ lanes29 0x0162636405666768
   /\ lanes29 0x0162636405666768 /\ 0 <= 9 < 2 ^ 62 /\ word64 11)
  /\ val128 (poly_step 5 7 0x0162636405666768 0x0162636405666768 9 11) mod p127
     = (val128 (5, 7) * val128 (0x0162636405666768, 0x0162636405666768)
        + val128 (9, 11)) mod p127.
Proof.
  assert (L : lanes29 0x0162636405666768)
    by (unfold lanes29; repeat split; vm_compute; congruence).
  assert (W : forall x, 0 <= x < 2 ^ 62 -> word64 x) by (unfold word64; lia).
  split.
  - repeat split; try lia; try exact L; apply W; lia.
  - apply (poly_step_spec 5 7 0x0162636405666768 0x0162636405666768 9 11);
      try exact L; try lia; apply W; lia.
Defined.

(** C4, the stated postcondition: with a = 2^127 - 2^64, k = 1 and
    m = 2^126 - 2^64 every precondition holds and the returned high word is
    2^63 + 2^62 - 2. *)
Lemma poly_step_high_bit_set :
  (0 <= 2 ^ 63 - 1 < 2 ^ 63 /\ word64 0 /\ lanes29 0 /\ lanes29 1
   /\ 0 <= 2 ^ 62 - 1 < 2 ^ 62 /\ word64 0)
  /\ ~ fst (poly_step (2 ^ 63 - 1) 0 0 1 (2 ^ 62 - 1) 0) < 2 ^ 63.
Proof.
  split.
  - unfold lanes29, word64. repeat split; vm_compute; congruence.
  - vm_compute. congruence.
Qed.

Lemma finalization_length_is_remainder_bits_witness :
  (3 < 128)%nat
  /\ vhash_len 128 (2 * 128 + 3 + 5 * 128) = vhash_len 128 (2 * 128 + 3).
Proof.
  split; [lia|].
  apply (finalization_length_is_remainder_bits 128 (test_msg 100) 2 3 5 test_ctx).
  lia.
Defined.

Lemma vhash_empty_message_witness :
  first_block_processed test_ctx = false
  /\ vhash 128 (test_msg 0) 0 test_ctx
     = (l3hash (fst (polykey test_ctx)) (snd (polykey test_ctx))
          (fst (l3key test_ctx)) (snd (l3key test_ctx)) 0,
        vhash_abort test_ctx).
Proof.
  split; [reflexivity|].
  exact (vhash_empty_message 128 (test_msg 0) test_ctx eq_refl).
Defined.

(** The key schedule on the self-test key. *)
Lemma set_key_test_ctx : uvmac_set_key 128 test_key 20 blank_ctx = Returned test_ctx.
Proof. vm_compute. reflexivity. Qed.

Lemma set_key_invariant_witness :
  uvmac_set_key 128 test_key 20 blank_ctx = Returned test_ctx
  /\ key_domain test_ctx /\ polytmp test_ctx = polykey test_ctx
  /\ first_block_processed test_ctx = false.
Proof.
  assert (H : uvmac_set_key 128 test_key 20 blank_ctx = Returned test_ctx)
    by (vm_compute; reflexivity).
  split; [exact H|].
  exact (proj1 (set_key_invariant 128 test_key 20 blank_ctx test_ctx H)).
Defined.

(** C7, the stated preservation: after [uvmac_set_key] on the self-test key,
    one [vhash_update] of a full block leaves [polytmp] different from
    [polykey]. *)
Lemma vhash_update_moves_polytmp :
  uvmac_set_key 128 test_key 20 blank_ctx = Returned test_ctx
  /\ polytmp (vhash_update 128 (test_msg 100) 128 test_ctx)
     <> polykey (vhash_update 128 (test_msg 100) 128 test_ctx).
Proof.
  split; [vm_compute; reflexivity|].
  vm_compute. intros H. discriminate H.
Qed.

Lemma vhash_reads_padded_prefix_witness :
  (exists e : nat, (4 <= e)%nat /\ 128%nat = (2 ^ e)%nat)
  /\ firstn (padded_len 128 3) (test_msg 1)
     = firstn (padded_len 128 3) (test_msg 1 ++ [xff; xff])
  /\ vhash 128 (test_msg 1) 3 test_ctx
     = vhash 128 (test_msg 1 ++ [xff; xff]) 3 test_ctx.
Proof.
  pose proof NHBYTES_128 as H.
  assert (E : firstn (padded_len 128 3) (test_msg 1)
              = firstn (padded_len 128 3) (test_msg 1 ++ [xff; xff]))
    by reflexivity.
  split; [exact H|]. split; [exact E|].
  exact (proj1 (vhash_reads_padded_prefix 128 H (test_msg 1)
                  (test_msg 1 ++ [xff; xff]) 3 test_ctx test_key 20 0 E)).
Defined.

(** C8, the stated transparency: the three-byte message "abc" in a buffer
    whose padding byte 3 is 0x00, and in one whose padding byte 3 is 0x01,
    hash to different values and get different tags. *)
Lemma padding_bytes_change_the_tag :
  let zero_filled := [x61; x62; x63] ++ repeat x00 13 in
  let dirty := [x61; x62; x63; x01] ++ repeat x00 12 in
  firstn 3 zero_filled = firstn 3 dirty
  /\ fst (vhash 128 zero_filled 3 test_ctx) <> fst (vhash 128 dirty 3 test_ctx)
  /\ uvmac 128 zero_filled 3 test_ctx test_key 20 0
     <> uvmac 128 dirty 3 test_ctx test_key 20 0.
Proof.
  cbv zeta. split; [reflexivity|].
  split; vm_compute; intros H; discriminate H.
Qed.

Lemma consume_word_spec_witness :
  0 <= 3 < 2 ^ 64 - 1
  /\ consume_word test_key 20 3
     = Returned (be_word_at test_key (Z.to_nat 3), 3 + 1)
  /\ uvmac 128 (test_msg 1) 3 test_ctx test_key 20 3
     = Returned (u64 (be_word_at test_key (Z.to_nat 3)
                      + fst (vhash 128 (test_msg 1) 3 test_ctx)),
                 vhash_abort test_ctx, 3 + 1).
Proof.
  assert (H : 0 <= 3 < 2 ^ 64 - 1) by lia.
  split; [exact H|].
  apply (proj2 (proj2 (consume_word_spec 128 test_key 20 3 (test_msg 1) 3%nat
                         test_ctx H))).
  lia.
Defined.

(** C9, the stated failure mode: with cursor = length = 20 the call does not
    return an error, it stops the process, and so does [uvmac]. *)
Lemma pad_key_exhaustion_stops_process :
  20 >= 20
  /\ stops_process (consume_word test_key 20 20)
  /\ stops_process (uvmac 128 (test_msg 0) 0 test_ctx test_key 20 20).
Proof.
  unfold stops_process. split; [lia|]. split; vm_compute; reflexivity.
Qed.

(** At cursor 2^64 - 1 the test [*key_position + 1 > key_length] wraps to
    [0 > key_length] and the call returns although cursor >= length. *)
Lemma get64bitsOfKey_position_wraps :
  exists out, get64bitsOfKey test_key 20 (2 ^ 64 - 1) = Returned (out, 0).
Proof.
  unfold get64bitsOfKey.
  replace (u64 (2 ^ 64 - 1 + 1)) with 0 by (vm_compute; reflexivity).
  replace (0 >? 20) with false by reflexivity.
  eexists. reflexivity.
Qed.

(** ** The shipped test vectors *)

(** The tags the self-test expects for "abc" repeated 0, 1, 16 and 100
    times, each with pad word 0 of the self-test pad key. *)
Example uvmac_vector_0 :
  uvmac 128 (test_msg 0) 0 test_ctx test_key 20 0
  = Returned (0x8124D03C89C8B774, test_ctx, 1).
Proof. vm_compute. reflexivity. Qed.

Example uvmac_vector_3 :
  uvmac 128 (test_msg 1) 3 test_ctx test_key 20 0
  = Returned (0x1E59621DEA8080AA, test_ctx, 1).
Proof. vm_compute. reflexivity. Qed.

Example uvmac_vector_48 :
  uvmac 128 (test_msg 16) 48 test_ctx test_key 20 0
  = Returned (0xC92F7FC29A334AF6, test_ctx, 1).
Proof. vm_compute. reflexivity. Qed.

Example uvmac_vector_300 :
  uvmac 128 (test_msg 100) 300 test_ctx test_key 20 0
  = Returned (0xFC48C8853C7E9CAB, test_ctx, 1).
Proof. vm_compute. reflexivity. Qed.

(** The same 300-byte message in two parts, as the self-test does it. *)
Example uvmac_vector_300_in_two_parts :
  uvmac 128 test_suffix 44 (vhash_update 128 test_prefix 256 test_ctx)
    test_key 20 0
  = Returned (0xFC48C8853C7E9CAB, test_ctx, 1).
Proof. vm_compute. reflexivity. Qed.

(** ** Instances of the further properties on the self-test data *)

Lemma l3hash_value_witness :
  (word64 1 /\ word64 2 /\ word64 3 /\ word64 4 /\ 0 <= 24 < 2 ^ 63)
  /\ l3hash 1 2 3 4 24 = l3_value (val128 (1, 2)) 3 4 24.
Proof.
  assert (W : forall x, 0 <= x < 2 ^ 62 -> word64 x) by (unfold word64; lia).
  split.
  - repeat split; try lia; apply W; lia.
  - apply (l3hash_value 1 2 3 4 24); try lia; apply W; lia.
Defined.

Lemma vhash_value_witness :
  (exists e : nat, (4 <= e)%nat /\ 128%nat = (2 ^ e)%nat)
  /\ key_domain test_ctx /\ fresh test_ctx /\ (0 < 3)%nat /\ Z.of_nat 3 < 2 ^ 32
  /\ fst (vhash 128 (test_msg 1) 3 test_ctx)
     = l3_value
         (poly_high_first (val128 (polykey test_ctx))
            (1 :: message_hashes 128 (test_msg 1) 3 (nhkey test_ctx)))
         (fst (l3key test_ctx)) (snd (l3key test_ctx))
         (8 * Z.of_nat (3 mod 128)).
Proof.
  assert (H0 : (0 < 3)%nat) by lia.
  assert (H1 : Z.of_nat 3 < 2 ^ 32) by lia.
  split; [exact NHBYTES_128|]. split; [exact test_ctx_key_domain|].
  split; [exact test_ctx_fresh|]. split; [exact H0|]. split; [exact H1|].
  exact (vhash_value 128 NHBYTES_128 (test_msg 1) 3 test_ctx
           test_ctx_key_domain test_ctx_fresh H0 H1).
Defined.



Lemma uvmac_keeps_fresh_context_witness :
  fresh test_ctx /\ 0 <= 5 < 20 /\ 20 < 2 ^ 64
  /\ uvmac 128 (test_msg 1) 3 test_ctx test_key 20 5
     = Returned (u64 (be_word_at test_key (Z.to_nat 5)
                      + fst (vhash 128 (test_msg 1) 3 test_ctx)),
                 test_ctx, 5 + 1).
Proof.
  assert (H0 : 0 <= 5 < 20) by lia.
  assert (H1 : 20 < 2 ^ 64) by lia.
  split; [exact test_ctx_fresh|]. split; [exact H0|]. split; [exact H1|].
  exact (uvmac_keeps_fresh_context 128 (test_msg 1) 3 test_ctx test_key 20 5
           test_ctx_fresh H0 H1).
Defined.

Lemma uvmac_is_one_time_pad_witness :
  uvmac 128 (test_msg 1) 3 test_ctx test_key 20 0
    = Returned (0x1E59621DEA8080AA, test_ctx, 1)
  /\ uvmac 128 (test_msg 1) 3 test_ctx test_key 20 7
     = Returned (0x1E59621DEA8080AA, test_ctx, 8)
  /\ u64 (0x1E59621DEA8080AA - get64BE (advance test_key (Z.to_nat 0)))
     = fst (vhash 128 (test_msg 1) 3 test_ctx)
  /\ u64 (0x1E59621DEA8080AA - 0x1E59621DEA8080AA)
     = u64 (get64BE (advance test_key (Z.to_nat 0))
            - get64BE (advance test_key (Z.to_nat 7))).
Proof.
  assert (H0 : uvmac 128 (test_msg 1) 3 test_ctx test_key 20 0
               = Returned (0x1E59621DEA8080AA, test_ctx, 1))
    by (vm_compute; reflexivity).
  assert (H1 : uvmac 128 (test_msg 1) 3 test_ctx test_key 20 7
               = Returned (0x1E59621DEA8080AA, test_ctx, 8))
    by (vm_compute; reflexivity).
  split; [exact H0|]. split; [exact H1|].
  exact (uvmac_is_one_time_pad 128 (test_msg 1) 3 test_ctx test_key 20 0
           test_key 20 7 _ _ _ _ _ _ H0 H1).
Defined.

Lemma nh_16_portable_agrees_witness :
  Z.of_nat 16 < 2 ^ 31
  /\ Arch32.nh_16 (test_msg 100) (nhkey test_ctx) 16
     = nh_16 (test_msg 100) (nhkey test_ctx) 16.
Proof.
  assert (H : Z.of_nat 16 < 2 ^ 31) by lia.
  split; [exact H|].
  exact (nh_16_portable_agrees (test_msg 100) (nhkey test_ctx) 16 H).
Defined.

Lemma poly_step_portable_congr_witness :
  (word64 5 /\ word64 7 /\ lanes29 0x0162636405666768
   /\ lanes29 0x0162636405666768 /\ 0 <= 9 < 2 ^ 62 /\ word64 11)
  /\ val128 (Arch32.poly_step_func 5 7 0x0162636405666768 0x0162636405666768 9 11)
       mod p127
     = (val128 (5, 7) * val128 (0x0162636405666768, 0x0162636405666768)
        + val128 (9, 11)) mod p127
  /\ val128 (Arch32.poly_step_func 5 7 0x0162636405666768 0x0162636405666768 9 11)
       mod p127
     = val128 (poly_step 5 7 0x0162636405666768 0x0162636405666768 9 11) mod p127
  /\ 0 <= fst (Arch32.poly_step_func 5 7 0x0162636405666768 0x0162636405666768 9 11)
       < 2 ^ 63 + 2 ^ 32
  /\ word64 (snd (Arch32.poly_step_func 5 7 0x0162636405666768 0x0162636405666768
                    9 11)).
Proof.
  assert (L : lanes29 0x0162636405666768)
    by (unfold lanes29; repeat split; vm_compute; congruence).
  assert (W : forall x, 0 <= x < 2 ^ 62 -> word64 x) by (unfold word64; lia).
  split.
  - repeat split; try lia; try exact L; apply W; lia.
  - apply (poly_step_portable_congr 5 7 0x0162636405666768 0x0162636405666768 9 11);
      try exact L; try lia; apply W; lia.
Defined.

Lemma set_key_layout_witness :
  (0 <= 20 < 2 ^ 32 /\ (128 / 8 + 2 <= 18 < 19)%nat /\ Z.of_nat 19 < 20
   /\ be_word_at test_key 18 < p64 /\ be_word_at test_key 19 < p64
   /\ (forall i, (128 / 8 + 2 <= i < 19)%nat -> i <> 18%nat ->
                 p64 <= be_word_at test_key i))
  /\ uvmac_set_key 128 test_key 20 blank_ctx
     = Returned
         {| nhkey := map (be_word_at test_key) (seq 0 (128 / 8));
            polykey := (Z.land (be_word_at test_key (128 / 8)) mpoly,
                        Z.land (be_word_at test_key (128 / 8 + 1)) mpoly);
            l3key := (be_word_at test_key 18, be_word_at test_key 19);
            polytmp := (Z.land (be_word_at test_key (128 / 8)) mpoly,
                        Z.land (be_word_at test_key (128 / 8 + 1)) mpoly);
            first_block_processed := false |}.
Proof.
  assert (H0 : 0 <= 20 < 2 ^ 32) by lia.
  assert (H1 : (128 / 8 + 2 <= 18 < 19)%nat) by (vm_compute; lia).
  assert (H2 : Z.of_nat 19 < 20) by lia.
  assert (H3 : be_word_at test_key 18 < p64) by (vm_compute; reflexivity).
  assert (H4 : be_word_at test_key 19 < p64) by (vm_compute; reflexivity).
  assert (H5 : forall i, (128 / 8 + 2 <= i < 19)%nat -> i <> 18%nat ->
                         p64 <= be_word_at test_key i).
  { intros i Hi Hn. change (128 / 8 + 2)%nat with 18%nat in Hi. lia. }
  split; [repeat split; try exact H3; try exact H4; try exact H5; lia|].
  exact (set_key_layout 128 test_key 20 blank_ctx 18 19 H0 H1 H2 H3 H4 H5).
Defined.

Lemma set_key_short_key_witness :
  (0 <= 19 < 2 ^ 32 /\ 19 < Z.of_nat (128 / 8) + 4)
  /\ stops_process (uvmac_set_key 128 test_key 19 blank_ctx).
Proof.
  assert (H0 : 0 <= 19 < 2 ^ 32) by lia.
  assert (H1 : 19 < Z.of_nat (128 / 8) + 4) by (vm_compute; reflexivity).
  split; [split; [exact H0 | exact H1]|].
  exact (set_key_short_key 128 test_key 19 blank_ctx H0 H1).
Defined.

Lemma bswap64_involutive_witness :
  word64 0x0102030405060708
  /\ bswap64 (bswap64 0x0102030405060708) = 0x0102030405060708
  /\ get64LE test_key = bswap64 (get64BE test_key).
Proof.
  assert (H : word64 0x0102030405060708) by (unfold word64; lia).
  split; [exact H|].
  exact (bswap64_involutive 0x0102030405060708 test_key H).
Defined.

(** [bufferSize] is eight blocks of 128 bytes. *)
Lemma bufferSize_blocks : exists j, (0 < j)%nat /\ bufferSize = (j * 128)%nat.
Proof. exists 8%nat. split; [lia | reflexivity]. Qed.

Lemma authenticate_tags_the_file_witness :
  (exists e : nat, (4 <= e)%nat /\ 128%nat = (2 ^ e)%nat)
  /\ (exists j, (0 < j)%nat /\ bufferSize = (j * 128)%nat)
  /\ key_domain test_ctx /\ consistent test_ctx
  /\ authenticate 128 [x61; x62; x63] test_ctx test_key
     = Some (uvmac 128 ([x61; x62; x63] ++ repeat x00 16) (length [x61; x62; x63])
               test_ctx test_key (Z.of_nat (length test_key / 8)) 0).
Proof.
  assert (Hc : consistent test_ctx) by (intros _; reflexivity).
  split; [exact NHBYTES_128|]. split; [exact bufferSize_blocks|].
  split; [exact test_ctx_key_domain|]. split; [exact Hc|].
  exact (authenticate_tags_the_file 128 NHBYTES_128 bufferSize_blocks
           [x61; x62; x63] test_ctx test_key test_ctx_key_domain Hc).
Defined.

(** [buf_len] is 3 * 2^13 blocks of 128 bytes. *)
Lemma buf_len_blocks : exists j, (0 < j)%nat /\ buf_len = (j * 128)%nat.
Proof.
  exists (3 * 2 ^ 13)%nat. split.
  - apply Nat.mul_pos_pos; [lia|].
    apply Nat.neq_0_lt_0, Nat.pow_nonzero. discriminate.
  - unfold buf_len. change 128%nat with (2 ^ 7)%nat.
    rewrite <- Nat.mul_assoc, <- Nat.pow_add_r.
    change (13 + 7)%nat with 20%nat. reflexivity.
Qed.

Lemma uvmac_file_drops_last_byte_witness :
  (exists e : nat, (4 <= e)%nat /\ 128%nat = (2 ^ e)%nat)
  /\ (exists j, (0 < j)%nat /\ buf_len = (j * 128)%nat)
  /\ key_domain test_ctx /\ consistent test_ctx
  /\ uvmac_file 128 ([x61; x62; x63] ++ [x0a]) test_ctx test_key 20 0
     = Some (uvmac 128 ([x61; x62; x63] ++ repeat x00 16) (length [x61; x62; x63])
               test_ctx test_key 20 0)
  /\ uvmac_file 128 ([x61; x62; x63] ++ [x0a]) test_ctx test_key 20 0
     = uvmac_file 128 ([x61; x62; x63] ++ [x64]) test_ctx test_key 20 0.
Proof.
  assert (Hc : consistent test_ctx) by (intros _; reflexivity).
  split; [exact NHBYTES_128|]. split; [exact buf_len_blocks|].
  split; [exact test_ctx_key_domain|]. split; [exact Hc|].
  exact (uvmac_file_drops_last_byte 128 NHBYTES_128 [x61; x62; x63] x0a x64
           test_ctx test_key 20 0 buf_len_blocks test_ctx_key_domain Hc).
Defined.

Lemma set_key_runs_out_of_key_witness :
  (0 <= 20 < 2 ^ 32
   /\ (forall i j, (128 / 8 + 2 <= i < j)%nat -> Z.of_nat j < 20 ->
                   be_word_at large_word_key i < p64 ->
                   p64 <= be_word_at large_word_key j))
  /\ stops_process (uvmac_set_key 128 large_word_key 20 blank_ctx).
Proof.
  assert (H0 : 0 <= 20 < 2 ^ 32) by lia.
  assert (H1 : forall i j, (128 / 8 + 2 <= i < j)%nat -> Z.of_nat j < 20 ->
                           be_word_at large_word_key i < p64 ->
                           p64 <= be_word_at large_word_key j).
  { intros i j Hi Hj _. change (128 / 8 + 2)%nat with 18%nat in Hi.
    assert (E : j = 19%nat) by lia. subst j. vm_compute. discriminate. }
  split; [split; [exact H0 | exact H1]|].
  exact (set_key_runs_out_of_key 128 large_word_key 20 blank_ctx H0 H1).
Defined.

(** The key schedule on the first 160 bytes of the self-test key. *)
Lemma set_key_test_ctx_160 :
  uvmac_set_key 128 (firstn 160 test_key) 20 blank_ctx = Returned test_ctx.
Proof. vm_compute. reflexivity. Qed.

Lemma uvmac_main_tag_witness :
  (exists e : nat, (4 <= e)%nat /\ 128%nat = (2 ^ e)%nat)
  /\ (exists j, (0 < j)%nat /\ buf_len = (j * 128)%nat)
  /\ (160 <= length test_key)%nat
  /\ uvmac_set_key 128 (firstn 160 test_key) 20 blank_ctx = Returned test_ctx
  /\ 0 <= 3 /\ 8 * (3 + 1) <= Z.of_nat (length test_key)
  /\ uvmac_main 128 test_key test_key ([x61; x62; x63] ++ [x0a]) 3 blank_ctx []
     = Some (Returned (TagWritten
               (u64 (be_word_at test_key (Z.to_nat 3)
                     + fst (vhash 128 ([x61; x62; x63] ++ repeat x00 16)
                              (length [x61; x62; x63]) test_ctx))))).
Proof.
  assert (H0 : (160 <= length test_key)%nat) by (vm_compute; lia).
  assert (H1 : 0 <= 3) by lia.
  assert (H2 : 8 * (3 + 1) <= Z.of_nat (length test_key))
    by (vm_compute; discriminate).
  split; [exact NHBYTES_128|]. split; [exact buf_len_blocks|].
  split; [exact H0|]. split; [exact set_key_test_ctx_160|].
  split; [exact H1|]. split; [exact H2|].
  exact (uvmac_main_tag 128 NHBYTES_128 test_key test_key [x61; x62; x63] x0a 3
           blank_ctx [] test_ctx buf_len_blocks H0 set_key_test_ctx_160 H1 H2).
Defined.

(** The key schedule of [authenticate] on the self-test key. *)
Lemma set_key_test_ctx_340 :
  uvmac_set_key 128 (firstn 340 test_key)
    (Z.of_nat (Nat.min 340 (length test_key) / 8)) blank_ctx = Returned test_ctx.
Proof. vm_compute. reflexivity. Qed.

Lemma authenticate_main_tag_witness :
  (exists e : nat, (4 <= e)%nat /\ 128%nat = (2 ^ e)%nat)
  /\ (exists j, (0 < j)%nat /\ bufferSize = (j * 128)%nat)
  /\ (160 <= length test_key)%nat
  /\ uvmac_set_key 128 (firstn 340 test_key)
       (Z.of_nat (Nat.min 340 (length test_key) / 8)) blank_ctx = Returned test_ctx
  /\ (8 <= length test_key)%nat
  /\ authenticate_main 128 [x61; x62; x63] test_key test_key blank_ctx
     = Some (Returned (TagWritten
               (u64 (be_word_at test_key 0
                     + fst (vhash 128 ([x61; x62; x63] ++ repeat x00 16)
                              (length [x61; x62; x63]) test_ctx))))).
Proof.
  assert (H0 : (160 <= length test_key)%nat) by (vm_compute; lia).
  assert (H1 : (8 <= length test_key)%nat) by (vm_compute; lia).
  split; [exact NHBYTES_128|]. split; [exact bufferSize_blocks|].
  split; [exact H0|]. split; [exact set_key_test_ctx_340|]. split; [exact H1|].
  exact (authenticate_main_tag 128 NHBYTES_128 [x61; x62; x63] test_key test_key
           blank_ctx test_ctx bufferSize_blocks H0 set_key_test_ctx_340 H1).
Defined.

(** The self-test of the build for 128-bit tags: the key schedule and the
    tags of "abc" repeated 1 and 100 times. *)
Example set_key128_test_ctx :
  uvmac_set_key128 128 test_key128 26 blank_ctx128 = Returned test_ctx128.
Proof. vm_compute. reflexivity. Qed.

Example uvmac128_vector_3 :
  uvmac128 128 (test_msg 1) 3 test_ctx128 test_key 20 0
  = Returned (0x1E59621DEA8080AA, 0x1E59621DEA8080AA, test_ctx128, 2).
Proof. vm_compute. reflexivity. Qed.

Example uvmac128_vector_300 :
  uvmac128 128 (test_msg 100) 300 test_ctx128 test_key 20 0
  = Returned (0xFC48C8853C7E9CAB, 0xFC48C8853C7E9CAB, test_ctx128, 2).
Proof. vm_compute. reflexivity. Qed.

Lemma tag128_is_two_tags_witness :
  (0 <= 0 /\ 0 + 2 <= 20 /\ 20 < 2 ^ 64)
  /\ uvmac128 128 (test_msg 1) 3 test_ctx128 test_key 20 0
     = Returned
         (u64 (get64BE (advance test_key (Z.to_nat 0))
               + fst (vhash 128 (test_msg 1) 3 (tag_lane1 test_ctx128))),
          u64 (get64BE (advance test_key (Z.to_nat (0 + 1)))
               + fst (vhash 128 (test_msg 1) 3 (tag_lane2 test_ctx128))),
          vhash_abort128 test_ctx128, 0 + 2)
  /\ uvmac 128 (test_msg 1) 3 (tag_lane1 test_ctx128) test_key 20 0
     = Returned
         (u64 (get64BE (advance test_key (Z.to_nat 0))
               + fst (vhash 128 (test_msg 1) 3 (tag_lane1 test_ctx128))),
          tag_lane1 (vhash_abort128 test_ctx128), 0 + 1)
  /\ uvmac 128 (test_msg 1) 3 (tag_lane2 test_ctx128) test_key 20 (0 + 1)
     = Returned
         (u64 (get64BE (advance test_key (Z.to_nat (0 + 1)))
               + fst (vhash 128 (test_msg 1) 3 (tag_lane2 test_ctx128))),
          tag_lane2 (vhash_abort128 test_ctx128), 0 + 2).
Proof.
  assert (H0 : 0 <= 0) by lia.
  assert (H1 : 0 + 2 <= 20) by lia.
  assert (H2 : 20 < 2 ^ 64) by lia.
  split; [split; [exact H0 | split; [exact H1 | exact H2]]|].
  exact (tag128_is_two_tags 128 (test_msg 1) 3 test_ctx128 test_key 20 0 H0 H1 H2).
Defined.

Lemma tag128_needs_two_pad_words_witness :
  (0 <= 19 /\ 19 + 2 < 2 ^ 64 /\ 20 < 19 + 2)
  /\ stops_process (uvmac128 128 (test_msg 1) 3 test_ctx128 test_key 20 19).
Proof.
  assert (H0 : 0 <= 19) by lia.
  assert (H1 : 19 + 2 < 2 ^ 64) by lia.
  assert (H2 : 20 < 19 + 2) by lia.
  split; [split; [exact H0 | split; [exact H1 | exact H2]]|].
  exact (tag128_needs_two_pad_words 128 (test_msg 1) 3 test_ctx128 test_key 20 19
           H0 H1 H2).
Defined.

Lemma set_key128_invariant_witness :
  uvmac_set_key128 128 test_key128 26 blank_ctx128 = Returned test_ctx128
  /\ key_domain (tag_lane1 test_ctx128) /\ fresh (tag_lane1 test_ctx128)
  /\ key_domain (tag_lane2 test_ctx128) /\ fresh (tag_lane2 test_ctx128).
Proof.
  assert (H : uvmac_set_key128 128 test_key128 26 blank_ctx128 = Returned test_ctx128)
    by (vm_compute; reflexivity).
  split; [exact H|].
  exact (set_key128_invariant 128 test_key128 26 blank_ctx128 test_ctx128 H).
Defined.
